(** * jl: a streaming JSON-to-table extractor (src/jl.c)

    A shallow embedding of [jl.c] and the properties of its pattern
    compiler, lexer, runtime and emitter.

    Conventions of the embedding.
    - A byte is an [ascii]; a C string is the list of its bytes before the
      terminating NUL ([bytes]).  [read_char] returns the byte 0 both for a
      NUL byte of the stream and at end of stream, as the source does.
    - [size_t] is 64 bits wide (LP64).  The one [size_t] computation that can
      leave the range on inputs that fit in memory, the product of the row
      counts in [flush_tables], is written in [Z] with its reduction modulo
      [2^64].  The lengths of arrays that are live in memory ([ncols],
      [nrows], [Buf.len], [tables.len]) are lengths of lists.
    - [die] is the result [Die]; a NULL dereference or a signed overflow is
      the result [Undef]; a loop or a recursion of the source that is not
      structural takes a [fuel] argument and answers [OutOfFuel] at 0. *)

From Stdlib Require Import String Ascii List ZArith Lia Bool Arith PeanoNat.
Import ListNotations.

Set Implicit Arguments.

(** ** Bytes and C strings *)

Definition bytes := list ascii.

Definition NUL : ascii := "000"%char.
Definition TAB : ascii := "009"%char.
Definition LF : ascii := "010"%char.
Definition CR : ascii := "013"%char.
Definition DQUOTE : ascii := "034"%char.
Definition BACKSLASH : ascii := "092"%char.

Definition B (s : string) : bytes := list_ascii_of_string s.

(** [memchr(set, c, sizeof set) != NULL] *)
Definition memchr (set : bytes) (c : ascii) : bool :=
  existsb (Ascii.eqb c) set.

Fixpoint bytes_eqb (a b : bytes) : bool :=
  match a, b with
  | [], [] => true
  | x :: a', y :: b' => Ascii.eqb x y && bytes_eqb a' b'
  | _, _ => false
  end.

(** [a[i] = v] on an array held as a list; nothing to write out of range. *)
Fixpoint list_set {A} (l : list A) (i : nat) (v : A) : list A :=
  match l, i with
  | [], _ => []
  | _ :: t, 0 => v :: t
  | h :: t, S j => h :: list_set t j v
  end.

(** ** Results of effectful code *)

Inductive Res (S A : Type) : Type :=
| Ok (a : A) (s : S)
| Die (msg : string) (s : S)
| Undef
| OutOfFuel.

Arguments Ok {S A} a s.
Arguments Die {S A} msg s.
Arguments Undef {S A}.
Arguments OutOfFuel {S A}.

Definition bind {S A C} (m : Res S A) (k : A -> S -> Res S C) : Res S C :=
  match m with
  | Ok a s => k a s
  | Die msg s => Die msg s
  | Undef => Undef
  | OutOfFuel => OutOfFuel
  end.

Notation "x <- m ;; k" := (bind m (fun x => k))
  (at level 61, m at next level, right associativity).
Notation "m ;;; k" := (bind m (fun _ => k))
  (at level 61, right associativity).

(** ** Buffers (struct Buf) *)

Record Buf := mkBuf { len : nat; cap : nat; str : option bytes }.

(** A zero-initialised [Buf], as [calloc] and the static storage give. *)
Definition buf0 : Buf := mkBuf 0 0 None.

(** The C string a buffer holds; the empty string for a NULL [str]. *)
Definition cstr (b : Buf) : bytes :=
  match str b with Some s => s | None => [] end.

Fixpoint double_until (fuel c want : nat) : nat :=
  match fuel with
  | 0 => c
  | S f => if c <? want then double_until f (c * 2) want else c
  end.

Definition ensure_bufcap (b : Buf) (c : nat) : Buf :=
  if cap b <? c then
    let c0 := if cap b =? 0 then 4 else cap b in
    mkBuf (len b) (double_until c c0 c) (Some (cstr b))
  else b.

Definition append_char (b : Buf) (c : ascii) : Buf :=
  let b1 := ensure_bufcap b (len b + 2) in
  mkBuf (S (len b1)) (cap b1) (Some (firstn (len b1) (cstr b1) ++ [c])).

(** ** Tables (struct Table) and the registry [tables] *)

Record Table := mkTable {
  ncols : nat;
  rows : list (list Buf);      (* rows[0 .. nrows) *)
  newrow : list Buf            (* the pending row *)
}.

Definition SIZE_WIDTH : Z := 64.
Definition size_wrap (z : Z) : Z := z mod 2 ^ SIZE_WIDTH.

(** [t->nrows] *)
Definition nrows (t : Table) : Z := Z.of_nat (length (rows t)).

(** The body of [add_value] on the cell [b = &t->newrow[column]]. *)
Definition set_value (b : Buf) (val : bytes) : Buf :=
  let b1 := if 0 <? len b then mkBuf 0 (cap b) (Some []) else b in
  let n := length val in
  if 0 <? n then
    let b2 := ensure_bufcap b1 (n + 1) in
    mkBuf n (cap b2) (Some val)
  else b1.

(** [add_value]; [None] when [column] is outside the pending row. *)
Definition add_value (t : Table) (column : nat) (val : bytes) : option Table :=
  match nth_error (newrow t) column with
  | Some b =>
      Some (mkTable (ncols t) (rows t) (list_set (newrow t) column (set_value b val)))
  | None => None
  end.

Definition hasval (t : Table) : bool :=
  existsb (fun b => 0 <? len b) (firstn (ncols t) (newrow t)).

Definition add_row (t : Table) : Table :=
  if hasval t then
    mkTable (ncols t) (rows t ++ [newrow t]) (repeat buf0 (ncols t))
  else t.

(** ** The emitter: [flush_tables] and [emit_row] *)

(** The first loop of [flush_tables]: [(hasrows, nrows)]. *)
Definition count_rows (tabs : list Table) : bool * Z :=
  fold_left
    (fun acc t =>
       let n := nrows t in
       if 0 <? n then (true, size_wrap (snd acc * n)) else acc)%Z
    tabs (false, 1%Z).

(** The inner loop over [j] that refreshes [rowindex] for output row [i]. *)
Fixpoint set_rowindex (tabs : list Table) (i : Z) (rowindex : list Z) : list Z :=
  match tabs, rowindex with
  | t :: tabs', r :: rowindex' =>
      (if 0 <? nrows t then i mod nrows t else r)%Z :: set_rowindex tabs' i rowindex'
  | _, _ => rowindex
  end.

(** The loop over the columns [j] of table number [i] in [emit_row]. *)
Definition emit_cells (fieldsep : bytes) (i : nat) (t : Table)
    (row : option (list Buf)) (out : bytes) : bytes :=
  fold_left
    (fun o j =>
       let o1 := if (0 <? i) || (0 <? j) then o ++ fieldsep else o in
       match row with
       | Some r =>
           match str (nth j r buf0) with
           | Some s => o1 ++ s
           | None => o1
           end
       | None => o1
       end)
    (seq 0 (ncols t)) out.

Fixpoint emit_tables (fieldsep : bytes) (i : nat) (tabs : list Table)
    (rowindex : list Z) (out : bytes) : bytes :=
  match tabs with
  | [] => out
  | t :: tabs' =>
      let row :=
        if (0 <? nrows t)%Z
        then Some (nth (Z.to_nat (nth i rowindex 0%Z)) (rows t) [])
        else None in
      emit_tables fieldsep (S i) tabs' rowindex (emit_cells fieldsep i t row out)
  end.

Definition emit_row (fieldsep : bytes) (tabs : list Table) (rowindex : list Z)
    (out : bytes) : bytes :=
  emit_tables fieldsep 0 tabs rowindex out ++ [LF].

Definition reset_table (t : Table) : Table :=
  mkTable (ncols t) [] (newrow t).

(** The emission loop [for (i = 0; i < nrows; i++)], from [i] for [n] rounds. *)
Fixpoint emit_loop (fieldsep : bytes) (tabs : list Table) (n : nat) (i : Z)
    (rowindex : list Z) (out : bytes) : bytes :=
  match n with
  | 0 => out
  | S n' =>
      let rowindex' := set_rowindex tabs i rowindex in
      emit_loop fieldsep tabs n' (i + 1)%Z rowindex'
        (emit_row fieldsep tabs rowindex' out)
  end.

Definition flush_tables (fieldsep : bytes) (tabs : list Table) (out : bytes)
    : list Table * bytes :=
  let '(hasrows, n) := count_rows tabs in
  if negb hasrows then (tabs, out)
  else
    let rowindex := repeat 0%Z (length tabs) in
    (map reset_table tabs,
     emit_loop fieldsep tabs (Z.to_nat n) 0%Z rowindex out).

(** ** The operator tree (Op, ArrayOp, ObjectOp, CollectOp, Prop)

    A [Table *] is the index of the table in the registry.  A property name
    is the [char *] the source keeps: an offset into the pattern buffer,
    read as a C string when a key is compared.  The list of an [OpObject]
    is the linked list [prop], most recently added property first.  A tree
    that [parse_pattern] returns has no NULL [next] and no NULL [Prop.op],
    so neither is optional here. *)

#[warnings="-register-all"]
Inductive Op : Type :=
| OpArray (table : option nat) (next : Op) (isroot : bool)
| OpObject (table : option nat) (prop : list (nat * Op)) (isroot : bool)
| OpCollect (table : nat) (column : nat).

Definition is_collect (op : Op) : bool :=
  match op with OpCollect _ _ => true | _ => false end.

(** ** The pattern compiler *)

Record PState := mkPState {
  pbuf : bytes;           (* the pattern string, written to while parsing *)
  ppos : nat;             (* Parser.pos, as an offset into [pbuf] *)
  ptabs : list Table      (* the registry [tables] *)
}.

(** [*p->pos]; the terminating NUL at and after the end of the string. *)
Definition cur (s : PState) : ascii := nth (ppos s) (pbuf s) NUL.

(** [p->pos++] *)
Definition adv (s : PState) : PState := mkPState (pbuf s) (S (ppos s)) (ptabs s).

(** [*q = '\0'] for a pointer [q] into the pattern. *)
Definition put_nul (s : PState) (q : nat) : PState :=
  mkPState (list_set (pbuf s) q NUL) (ppos s) (ptabs s).

Definition new_table (s : PState) : nat * PState :=
  (length (ptabs s), mkPState (pbuf s) (ppos s) (ptabs s ++ [mkTable 0 [] []])).

(** [new_collect_op(t)]: the new node takes column [t->ncols++]. *)
Definition new_collect_op (t : nat) (tabs : list Table) : option (Op * list Table) :=
  match nth_error tabs t with
  | Some tb =>
      Some (OpCollect t (ncols tb),
            list_set tabs t (mkTable (S (ncols tb)) (rows tb) (newrow tb)))
  | None => None
  end.

Definition collect_into (t : nat) (s : PState) : Res PState Op :=
  match new_collect_op t (ptabs s) with
  | Some (op, tabs') => Ok op (mkPState (pbuf s) (ppos s) tabs')
  | None => Undef
  end.

(** [strcspn(s, reject)] *)
Fixpoint strcspn (s reject : bytes) : nat :=
  match s with
  | [] => 0
  | c :: r =>
      if Ascii.eqb c NUL || memchr reject c then 0 else S (strcspn r reject)
  end.

(** The loop of [parse_property] that looks for the closing quote. *)
Fixpoint quoted_loop (fuel : nat) (esc : bool) (s : PState) : Res PState unit :=
  match fuel with
  | 0 => OutOfFuel
  | S f =>
      let c := cur s in
      if Ascii.eqb c NUL then Ok tt s
      else if Ascii.eqb c DQUOTE then
        if negb esc then Ok tt (adv (put_nul s (ppos s)))
        else quoted_loop f false (adv s)
      else if Ascii.eqb c BACKSLASH then quoted_loop f (negb esc) (adv s)
      else quoted_loop f false (adv s)
  end.

(** [parse_property]: the name it hands to [add_property] ([Some start]), or
    NULL.  The caller links the new [Prop] in front of the list. *)
Definition parse_property (fuel : nat) (s : PState) : Res PState (option nat) :=
  let start := ppos s in
  if Ascii.eqb (cur s) DQUOTE then
    quoted_loop fuel false (adv s) ;;; fun s' => Ok (Some (S start)) s'
  else
    let n := strcspn (skipn (ppos s) (pbuf s)) (B ",[]{}") in
    let s' := mkPState (pbuf s) (ppos s + n) (ptabs s) in
    if ppos s' =? start then Ok None s' else Ok (Some start) s'.

Fixpoint parse_array (fuel : nat) (s : PState) : Res PState (option Op) :=
  match fuel with
  | 0 => OutOfFuel
  | S f =>
      let c0 := cur s in
      let s := adv s in
      if negb (Ascii.eqb c0 "["%char) then Ok None s
      else
        r <- (if Ascii.eqb (cur s) "*"%char then
                let '(t, s1) := new_table s in
                op <- collect_into t s1 ;; fun s2 => Ok (Some t, Some op) (adv s2)
              else if Ascii.eqb (cur s) "["%char then
                n <- parse_array f s ;; fun s1 => Ok (None, n) s1
              else if Ascii.eqb (cur s) "{"%char then
                n <- parse_object f s ;; fun s1 => Ok (None, n) s1
              else Ok (None, None) s) ;;
        fun s =>
          match snd r with
          | None => Ok None s
          | Some next =>
              if Ascii.eqb (cur s) NUL then Ok (Some (OpArray (fst r) next false)) s
              else if Ascii.eqb (cur s) "]"%char then
                Ok (Some (OpArray (fst r) next false)) (adv s)
              else Ok None s
          end
  end

with parse_object (fuel : nat) (s : PState) : Res PState (option Op) :=
  match fuel with
  | 0 => OutOfFuel
  | S f =>
      if negb (Ascii.eqb (cur s) "{"%char) then Ok None s
      else parse_props f None [] s
  end

(** The [do ... while (c == ',')] loop of [parse_object] and what follows
    it; [table] and [prop] are the fields of the object under construction. *)
with parse_props (fuel : nat) (table : option nat) (prop : list (nat * Op))
    (s : PState) : Res PState (option Op) :=
  match fuel with
  | 0 => OutOfFuel
  | S f =>
      let s := adv s in
      name <- parse_property f s ;;
      fun s =>
        let end_ := ppos s in
        let c := cur s in
        r <- (if Ascii.eqb c ","%char || Ascii.eqb c "}"%char || Ascii.eqb c NUL then
                match name with
                | None => Ok (table, None) s
                | Some _ =>
                    let '(t, s1) :=
                      match table with
                      | Some t => (t, s)
                      | None => new_table s
                      end in
                    op <- collect_into t s1 ;; fun s2 => Ok (Some t, Some op) s2
                end
              else if Ascii.eqb c "{"%char then
                op <- parse_object f s ;;
                fun s1 => match name with
                          | None => Undef          (* prop->op with prop == NULL *)
                          | Some _ => Ok (table, op) s1
                          end
              else if Ascii.eqb c "["%char then
                op <- parse_array f s ;;
                fun s1 => match name with
                          | None => Undef
                          | Some _ => Ok (table, op) s1
                          end
              else Ok (table, None) s) ;;
        fun s =>
          match name, snd r with
          | Some nm, Some op =>
              let table := fst r in
              let prop := (nm, op) :: prop in
              let c := cur s in
              let s := put_nul s end_ in
              if Ascii.eqb c ","%char then parse_props f table prop s
              else if Ascii.eqb c "}"%char then Ok (Some (OpObject table prop false)) (adv s)
              else if negb (Ascii.eqb c NUL) then Ok None s
              else Ok (Some (OpObject table prop false)) s
          | _, _ => Ok None s
          end
  end.

(** [parse_pattern]: the tree or NULL, and the registry with every pending
    row allocated ([calloc(t->ncols, ...)]) when the tree is not NULL. *)
Definition parse_pattern (fuel : nat) (pat : bytes) : Res PState (option Op) :=
  let s := mkPState pat 0 [] in
  op <- (if Ascii.eqb (cur s) "["%char then parse_array fuel s
         else if Ascii.eqb (cur s) "{"%char then parse_object fuel s
         else Ok None s) ;;
  fun s =>
    match op with
    | Some _ =>
        Ok op (mkPState (pbuf s) (ppos s)
                 (map (fun t => mkTable (ncols t) (rows t) (repeat buf0 (ncols t)))
                      (ptabs s)))
    | None => Ok None s
    end.

(** ** Root selection *)

Inductive RootResult : Type :=
| RootFound (head : Op)     (* true, with [isroot] set on one node *)
| RootNone                  (* false *)
| RootUndef.                (* [oop->prop] is NULL *)

Fixpoint find_root (op : Op) : RootResult :=
  match op with
  | OpArray t next r =>
      if is_collect next then RootFound (OpArray t next true)
      else
        match find_root next with
        | RootFound next' => RootFound (OpArray t next' r)
        | other => other
        end
  | OpObject t prop r =>
      match prop with
      | [] => RootUndef
      | (nm, pop) :: rest =>
          if negb (match rest with [] => true | _ => false end) || is_collect pop
          then RootFound (OpObject t prop true)
          else
            match find_root pop with
            | RootFound pop' => RootFound (OpObject t ((nm, pop') :: rest) r)
            | other => other
            end
      end
  | OpCollect _ _ => RootNone
  end.

(** ** The lexer *)

Inductive TokenType : Type :=
| T_BEGINOBJECT | T_ENDOBJECT | T_PAIRSEP | T_MEMBERSEP | T_BEGINARRAY
| T_ENDARRAY | T_STRING | T_NUMBER | T_BOOL | T_NULL | T_EOF.

Definition TokenType_eqb (a b : TokenType) : bool :=
  match a, b with
  | T_BEGINOBJECT, T_BEGINOBJECT | T_ENDOBJECT, T_ENDOBJECT
  | T_PAIRSEP, T_PAIRSEP | T_MEMBERSEP, T_MEMBERSEP
  | T_BEGINARRAY, T_BEGINARRAY | T_ENDARRAY, T_ENDARRAY
  | T_STRING, T_STRING | T_NUMBER, T_NUMBER | T_BOOL, T_BOOL
  | T_NULL, T_NULL | T_EOF, T_EOF => true
  | _, _ => false
  end.

(** A token; [text] is NULL ([None]) only inside [next_token]. *)
Record Token := mkToken { type : TokenType; text : option bytes }.

(** The global [lexer].  [input] is what the file still holds; [peek] tells
    whether [lexer.peek] points to [lexer.token]. *)
Record Lexer := mkLexer {
  input : bytes;
  unread : ascii;
  ltext : Buf;
  token : Token;
  peek : bool
}.

(** The functions of the lexer read and write the global [lexer] only; they
    are functions of that state. *)
Module Lex.

Definition with_ltext (l : Lexer) (b : Buf) : Lexer :=
  mkLexer (input l) (unread l) b (token l) (peek l).

Definition with_token (l : Lexer) (t : Token) : Lexer :=
  mkLexer (input l) (unread l) (ltext l) t (peek l).

Definition with_peek (l : Lexer) (p : bool) : Lexer :=
  mkLexer (input l) (unread l) (ltext l) (token l) p.

Definition read_char (l : Lexer) : ascii * Lexer :=
  if negb (Ascii.eqb (unread l) NUL) then
    (unread l, mkLexer (input l) NUL (ltext l) (token l) (peek l))
  else
    match input l with
    | [] => (NUL, l)
    | c :: rest => (c, mkLexer rest (unread l) (ltext l) (token l) (peek l))
    end.

Definition unread_char (c : ascii) (l : Lexer) : Lexer :=
  mkLexer (input l) c (ltext l) (token l) (peek l).

(** [append_char(&lexer.text, c)] *)
Definition append_text (c : ascii) (l : Lexer) : Lexer :=
  with_ltext l (append_char (ltext l) c).

Definition set_type (ty : TokenType) (l : Lexer) : Lexer :=
  with_token l (mkToken ty (text (token l))).

Definition set_text (v : bytes) (l : Lexer) : Lexer :=
  with_token l (mkToken (type (token l)) (Some v)).

Definition is_digit (c : ascii) : bool := memchr (B "0123456789") c.
Definition is_1to9 (c : ascii) : bool := memchr (B "123456789") c.
Definition isxdigit (c : ascii) : bool := memchr (B "0123456789abcdefABCDEF") c.

(** Enough rounds for any loop of the lexer: a round that does not leave
    the loop takes a byte from the unread slot or from the input. *)
Definition lex_fuel (l : Lexer) : nat := S (S (length (input l))).

Definition INT_MAX : Z := 2147483647.

(** [append_digits]: the loop from the counter value [n]. *)
Fixpoint append_digits_from (fuel : nat) (n : Z) (l : Lexer) : Res Lexer Z :=
  match fuel with
  | 0 => OutOfFuel
  | S f =>
      let '(c, l) := read_char l in
      if Ascii.eqb c NUL then Ok n l
      else if is_digit c then
        if (n =? INT_MAX)%Z then Undef        (* n++ overflows an int *)
        else append_digits_from f (n + 1) (append_text c l)
      else Ok n (unread_char c l)
  end.

Definition append_digits (l : Lexer) : Res Lexer Z :=
  append_digits_from (lex_fuel l) 0 l.

Definition is_e (c : ascii) : bool := Ascii.eqb c "e"%char || Ascii.eqb c "E"%char.

Definition after_exp (l : Lexer) : Res Lexer unit :=
  let '(c, l) := read_char l in
  if Ascii.eqb c NUL then Die "no exponent digits" l
  else if Ascii.eqb c "+"%char || Ascii.eqb c "-"%char then
    n <- append_digits (append_text c l) ;;
    fun l => if (n =? 0)%Z then Die "no exponent digits" l else Ok tt l
  else if is_digit c then
    _ <- append_digits (append_text c l) ;; fun l => Ok tt l
  else Die "no exponent digits" l.

Definition after_frac (l : Lexer) : Res Lexer unit :=
  n <- append_digits l ;;
  fun l =>
    if (n <? 1)%Z then Die "no digits after fraction" l
    else
      let '(c, l) := read_char l in
      if Ascii.eqb c NUL then Ok tt l
      else if is_e c then after_exp (append_text c l)
      else Ok tt (unread_char c l).

Fixpoint after_1to9_loop (fuel : nat) (l : Lexer) : Res Lexer unit :=
  match fuel with
  | 0 => OutOfFuel
  | S f =>
      let '(c, l) := read_char l in
      if Ascii.eqb c NUL then Ok tt l
      else if Ascii.eqb c "."%char then after_frac (append_text c l)
      else if is_digit c then after_1to9_loop f (append_text c l)
      else if is_e c then after_exp (append_text c l)
      else Ok tt (unread_char c l)
  end.

Definition after_1to9 (l : Lexer) : Res Lexer unit :=
  after_1to9_loop (lex_fuel l) l.

Definition after_0 (l : Lexer) : Res Lexer unit :=
  let '(c, l) := read_char l in
  if Ascii.eqb c "."%char then after_frac (append_text "."%char l)
  else if is_e c then after_exp (append_text c l)
  else if negb (Ascii.eqb c NUL) then Ok tt (unread_char c l)
  else Ok tt l.

Definition after_minus (l : Lexer) : Res Lexer unit :=
  let '(c, l) := read_char l in
  if Ascii.eqb c "0"%char then after_0 (append_text c l)
  else if is_1to9 c then after_1to9 (append_text c l)
  else Die "no digit following minus sign" l.

(** The [for] loop of [after_slash] over the four hex digits. *)
Fixpoint hex_digits (k : nat) (l : Lexer) : Res Lexer unit :=
  match k with
  | 0 => Ok tt l
  | S k' =>
      let '(c, l) := read_char l in
      if isxdigit c then hex_digits k' (append_text c l)
      else Die "not a hex character" l
  end.

(** The array [valid] of [after_slash]. *)
Definition valid_escapes : bytes :=
  [DQUOTE; BACKSLASH; "/"; "b"; "f"; "n"; "r"; "t"]%char.

Definition after_slash (l : Lexer) : Res Lexer unit :=
  let '(c, l) := read_char l in
  if memchr valid_escapes c then Ok tt (append_text c l)
  else if Ascii.eqb c "u"%char then hex_digits 4 (append_text "u"%char l)
  else Die "invalid escape character" l.

(** [c >= 0x00 && c <= 0x1f] on the value [read_char] returns: a byte above
    0x7f is negative or above 0x1f according to the signedness of [char],
    and fails the test either way. *)
Definition is_control (c : ascii) : bool := nat_of_ascii c <=? 31.

Fixpoint after_quote_loop (fuel : nat) (l : Lexer) : Res Lexer unit :=
  match fuel with
  | 0 => OutOfFuel
  | S f =>
      let '(c, l) := read_char l in
      if Ascii.eqb c NUL then Die "non-terminated string" l
      else if Ascii.eqb c DQUOTE then Ok tt l
      else if Ascii.eqb c BACKSLASH then
        after_slash (append_text BACKSLASH l) ;;; after_quote_loop f
      else if is_control c then Die "control character in string" l
      else after_quote_loop f (append_text c l)
  end.

Definition after_quote (l : Lexer) : Res Lexer unit :=
  after_quote_loop (lex_fuel l) l.

(** [read_literal(t, v, offset)]: [rest] is [v + offset]. *)
Fixpoint read_literal_from (rest : bytes) (l : Lexer) : Res Lexer unit :=
  match rest with
  | [] => Ok tt l
  | p :: rest' =>
      let '(c, l) := read_char l in
      if negb (Ascii.eqb c p) then Die "error matching literal" l
      else read_literal_from rest' l
  end.

Definition read_literal (v : bytes) (offset : nat) (l : Lexer) : Res Lexer unit :=
  read_literal_from (skipn offset v) l ;;; fun l => Ok tt (set_text v l).

(** The array [ws] of [read_token]. *)
Definition ws : bytes := [" "; TAB; LF; CR]%char.

(** The loop of [read_token] that skips white space. *)
Fixpoint skip_ws (fuel : nat) (l : Lexer) : Res Lexer ascii :=
  match fuel with
  | 0 => OutOfFuel
  | S f =>
      let '(c, l) := read_char l in
      if memchr ws c then skip_ws f l else Ok c l
  end.

Definition punct (ty : TokenType) (v : string) (l : Lexer) : Res Lexer unit :=
  Ok tt (set_text (B v) (set_type ty l)).

Definition read_token (l : Lexer) : Res Lexer unit :=
  c <- skip_ws (lex_fuel l) l ;;
  fun l =>
    if Ascii.eqb c NUL then Ok tt (set_type T_EOF l)
    else if Ascii.eqb c "{"%char then punct T_BEGINOBJECT "{" l
    else if Ascii.eqb c "}"%char then punct T_ENDOBJECT "}" l
    else if Ascii.eqb c ":"%char then punct T_PAIRSEP ":" l
    else if Ascii.eqb c ","%char then punct T_MEMBERSEP "," l
    else if Ascii.eqb c "["%char then punct T_BEGINARRAY "[" l
    else if Ascii.eqb c "]"%char then punct T_ENDARRAY "]" l
    else if Ascii.eqb c "t"%char then read_literal (B "true") 1 (set_type T_BOOL l)
    else if Ascii.eqb c "f"%char then read_literal (B "false") 1 (set_type T_BOOL l)
    else if Ascii.eqb c "n"%char then read_literal (B "null") 1 (set_type T_NULL l)
    else if Ascii.eqb c DQUOTE then after_quote (set_type T_STRING l)
    else if Ascii.eqb c "-"%char then after_minus (append_text c (set_type T_NUMBER l))
    else if Ascii.eqb c "0"%char then after_0 (append_text c (set_type T_NUMBER l))
    else if is_1to9 c then after_1to9 (append_text c (set_type T_NUMBER l))
    else Die "unexpected character" l.

Definition next_token (l : Lexer) : Res Lexer Token :=
  if peek l then Ok (token l) (with_peek l false)
  else
    let l := with_token l (mkToken (type (token l)) None) in
    let l :=
      if 0 <? len (ltext l)
      then with_ltext l (mkBuf 0 (cap (ltext l)) (Some []))
      else l in
    read_token l ;;;
    fun l =>
      let l :=
        match text (token l) with
        | None => set_text (cstr (ltext l)) l
        | Some _ => l
        end in
      Ok (token l) l.

Definition peek_token (l : Lexer) : Res Lexer Token :=
  if negb (peek l) then
    t <- next_token l ;; fun l => Ok t (with_peek l true)
  else Ok (token l) l.

End Lex.

(** The process state at run time. *)
Record World := mkWorld {
  lexer : Lexer;
  tables : list Table;
  out : bytes;            (* what has been written to stdout *)
  fieldsep : bytes;
  pattern : bytes         (* the pattern buffer the property names point into *)
}.

Definition M (A : Type) : Type := World -> Res World A.

Definition with_lexer (w : World) (l : Lexer) : World :=
  mkWorld l (tables w) (out w) (fieldsep w) (pattern w).

(** A function of the lexer, run in the process state. *)
Definition on_lexer {A} (f : Lexer -> Res Lexer A) : M A := fun w =>
  match f (lexer w) with
  | Ok a l => Ok a (with_lexer w l)
  | Die msg l => Die msg (with_lexer w l)
  | Undef => Undef
  | OutOfFuel => OutOfFuel
  end.

Definition next_token : M Token := on_lexer Lex.next_token.
Definition peek_token : M Token := on_lexer Lex.peek_token.

(** ** The runtime *)

Definition is_literal (ty : TokenType) : bool :=
  match ty with
  | T_NULL | T_BOOL | T_NUMBER | T_STRING => true
  | _ => false
  end.

Definition accept (ty : TokenType) : M unit := fun w =>
  t <- next_token w ;;
  fun w =>
    if negb (TokenType_eqb (type t) ty) then Die "unexpected token type" w
    else Ok tt w.

Fixpoint skip_value (fuel : nat) (w : World) : Res World unit :=
  match fuel with
  | 0 => OutOfFuel
  | S f =>
      t <- peek_token w ;;
      fun w =>
        match type t with
        | T_BEGINARRAY => skip_array f w
        | T_BEGINOBJECT => skip_object f w
        | ty =>
            if negb (is_literal ty) then Die "unexpected token type" w
            else next_token w ;;; fun w => Ok tt w
        end
  end

with skip_array (fuel : nat) (w : World) : Res World unit :=
  match fuel with
  | 0 => OutOfFuel
  | S f =>
      accept T_BEGINARRAY w ;;;
      fun w =>
        t <- peek_token w ;;
        fun w =>
          if TokenType_eqb (type t) T_ENDARRAY then next_token w ;;; fun w => Ok tt w
          else skip_array_loop f w
  end

(** The [do ... while (t->type == T_MEMBERSEP)] loop of [skip_array] and the
    test that follows it. *)
with skip_array_loop (fuel : nat) (w : World) : Res World unit :=
  match fuel with
  | 0 => OutOfFuel
  | S f =>
      skip_value f w ;;;
      fun w =>
        t <- next_token w ;;
        fun w =>
          if TokenType_eqb (type t) T_MEMBERSEP then skip_array_loop f w
          else if negb (TokenType_eqb (type t) T_ENDARRAY)
               then Die "expected array end" w
               else Ok tt w
  end

with skip_object (fuel : nat) (w : World) : Res World unit :=
  match fuel with
  | 0 => OutOfFuel
  | S f =>
      accept T_BEGINOBJECT w ;;;
      fun w =>
        t <- peek_token w ;;
        fun w =>
          if TokenType_eqb (type t) T_ENDOBJECT then next_token w ;;; fun w => Ok tt w
          else skip_object_loop f w
  end

with skip_object_loop (fuel : nat) (w : World) : Res World unit :=
  match fuel with
  | 0 => OutOfFuel
  | S f =>
      accept T_STRING w ;;;
      fun w =>
        accept T_PAIRSEP w ;;;
        fun w =>
          skip_value f w ;;;
          fun w =>
            t <- next_token w ;;
            fun w =>
              if TokenType_eqb (type t) T_MEMBERSEP then skip_object_loop f w
              else if negb (TokenType_eqb (type t) T_ENDOBJECT)
                   then Die "expected object end" w
                   else Ok tt w
  end.

Definition with_tables (w : World) (tabs : list Table) : World :=
  mkWorld (lexer w) tabs (out w) (fieldsep w) (pattern w).

(** [add_value(op->op.table, op->column, t->text)] on the registry. *)
Definition do_add_value (t column : nat) (val : option bytes) : M unit := fun w =>
  match nth_error (tables w) t, val with
  | Some tb, Some v =>
      match add_value tb column v with
      | Some tb' => Ok tt (with_tables w (list_set (tables w) t tb'))
      | None => Undef
      end
  | _, _ => Undef
  end.

(** [if (op->op.table) add_row(op->op.table);] *)
Definition do_add_row (table : option nat) : M unit := fun w =>
  match table with
  | None => Ok tt w
  | Some t =>
      match nth_error (tables w) t with
      | Some tb => Ok tt (with_tables w (list_set (tables w) t (add_row tb)))
      | None => Undef
      end
  end.

(** [if (op->isroot) flush_tables();] *)
Definition do_flush (isroot : bool) : M unit := fun w =>
  if isroot then
    let '(tabs, o) := flush_tables (fieldsep w) (tables w) (out w) in
    Ok tt (mkWorld (lexer w) tabs o (fieldsep w) (pattern w))
  else Ok tt w.

Definition run_collect_op (fuel : nat) (table column : nat) : M unit := fun w =>
  t <- peek_token w ;;
  fun w =>
    match type t with
    | T_BEGINARRAY => skip_array fuel w
    | T_BEGINOBJECT => skip_object fuel w
    | ty =>
        if negb (is_literal ty) then Die "unexpected token type" w
        else
          do_add_value table column (text t) w ;;;
          fun w => next_token w ;;; fun w => Ok tt w
    end.

(** The C string at offset [name] of the pattern buffer. *)
Definition cstring_at (mem : bytes) (name : nat) : bytes :=
  let s := skipn name mem in
  firstn (strcspn s []) s.

(** The search loop of [run_object_op]: the first property whose name
    [strcmp]s equal to the key. *)
Fixpoint find_prop (mem : bytes) (prop : list (nat * Op)) (key : bytes)
    : option Op :=
  match prop with
  | [] => None
  | (nm, op) :: rest =>
      if bytes_eqb (cstring_at mem nm) key then Some op
      else find_prop mem rest key
  end.

Fixpoint run_op (fuel : nat) (op : Op) (w : World) : Res World unit :=
  match fuel with
  | 0 => OutOfFuel
  | S f =>
      match op with
      | OpArray table next isroot => run_array_op f table next isroot w
      | OpObject table prop isroot => run_object_op f table prop isroot w
      | OpCollect table column => run_collect_op f table column w
      end
  end

with run_array_op (fuel : nat) (table : option nat) (next : Op) (isroot : bool)
    (w : World) : Res World unit :=
  match fuel with
  | 0 => OutOfFuel
  | S f =>
      t <- peek_token w ;;
      fun w =>
        if TokenType_eqb (type t) T_BEGINARRAY then
          accept T_BEGINARRAY w ;;;
          fun w =>
            t <- peek_token w ;;
            fun w =>
              if TokenType_eqb (type t) T_ENDARRAY then
                next_token w ;;; fun w => Ok tt w
              else
                run_array_loop f table next w ;;;
                fun w => do_add_row table w ;;; do_flush isroot
        else skip_value f w
  end

(** The [do ... while] loop of [run_array_op] with the test for the array
    end that follows it. *)
with run_array_loop (fuel : nat) (table : option nat) (next : Op) (w : World)
    : Res World unit :=
  match fuel with
  | 0 => OutOfFuel
  | S f =>
      run_op f next w ;;;
      fun w =>
        do_add_row table w ;;;
        fun w =>
          t <- next_token w ;;
          fun w =>
            if TokenType_eqb (type t) T_MEMBERSEP then run_array_loop f table next w
            else if negb (TokenType_eqb (type t) T_ENDARRAY)
                 then Die "expected array end" w
                 else Ok tt w
  end

with run_object_op (fuel : nat) (table : option nat) (prop : list (nat * Op))
    (isroot : bool) (w : World) : Res World unit :=
  match fuel with
  | 0 => OutOfFuel
  | S f =>
      t <- peek_token w ;;
      fun w =>
        if negb (TokenType_eqb (type t) T_BEGINOBJECT) then skip_value f w
        else
          accept T_BEGINOBJECT w ;;;
          fun w =>
            t <- next_token w ;;
            fun w =>
              t <- run_object_loop f prop t w ;;
              fun w =>
                if negb (TokenType_eqb (type t) T_ENDOBJECT)
                then Die "expected object end" w
                else do_add_row table w ;;; do_flush isroot
  end

(** The [while (t->type == T_STRING)] loop of [run_object_op]; the result is
    the token [t] the loop leaves with. *)
with run_object_loop (fuel : nat) (prop : list (nat * Op)) (t : Token)
    (w : World) : Res World Token :=
  match fuel with
  | 0 => OutOfFuel
  | S f =>
      if TokenType_eqb (type t) T_STRING then
        match text t with
        | None => Undef
        | Some key =>
            let p := find_prop (pattern w) prop key in
            accept T_PAIRSEP w ;;;
            fun w =>
              match p with
              | Some op => run_op f op w
              | None => skip_value f w
              end ;;;
              fun w =>
                t <- next_token w ;;
                fun w =>
                  if negb (TokenType_eqb (type t) T_MEMBERSEP) then Ok t w
                  else t <- next_token w ;; run_object_loop f prop t
        end
      else Ok t w
  end.

(** ** The program *)

(** [do { run_op(head); t = peek_token(); } while (t->type != T_EOF);] *)
Fixpoint run_stream (fuel : nat) (head : Op) (w : World) : Res World unit :=
  match fuel with
  | 0 => OutOfFuel
  | S f =>
      run_op f head w ;;;
      fun w =>
        t <- peek_token w ;;
        fun w =>
          if negb (TokenType_eqb (type t) T_EOF) then run_stream f head w
          else Ok tt w
  end.

Definition lexer0 (stdin : bytes) : Lexer :=
  mkLexer stdin NUL buf0 (mkToken T_BEGINOBJECT None) false.

(** What [main] leaves behind. *)
Inductive Exit : Type :=
| Exit0 (stdout : bytes)                  (* return from main *)
| ExitDie (msg : string) (stdout : bytes) (* die(): exit(1) *)
| Abort                                   (* abort() *)
| Crash                                   (* undefined behaviour *)
| Timeout.                                (* the model ran out of fuel *)

(** [main] with no FILE argument: the pattern is run over standard input. *)
Definition main (fuel : nat) (fs pat stdin : bytes) : Exit :=
  match parse_pattern fuel pat with
  | Ok None _ => ExitDie "invalid pattern" []
  | Ok (Some head) s =>
      match find_root head with
      | RootFound head' =>
          match run_stream fuel head'
                  (mkWorld (lexer0 stdin) (ptabs s) [] fs (pbuf s)) with
          | Ok _ w => Exit0 (out w)
          | Die msg w => ExitDie msg (out w)
          | Undef => Crash
          | OutOfFuel => Timeout
          end
      | RootNone => Abort
      | RootUndef => Crash
      end
  | Die msg _ => ExitDie msg []
  | Undef => Crash
  | OutOfFuel => Timeout
  end.

(** ** The program with its arguments and files

    [main] with [argv]: the optional [-f FIELDSEP], the pattern and the
    FILE arguments.  [open] gives the contents of a file by its name (every
    FILE is one that [fopen] opens).  [buffered] tells how many of the bytes
    of a stream that were not read sit in [lexer.buf.data] when the stream
    is left: they stay there when [lexer.file] changes, and are read before
    the bytes of the next file. *)

Definition usage : string := "usage: jl [-f FIELDSEP] PATTERN [FILE...]".

(** [lexer.file = fopen(name, "r")], all other fields of [lexer] as they
    are. *)
Definition open_file (buffered : bytes -> nat) (contents : bytes) (l : Lexer)
    : Lexer :=
  mkLexer (firstn (buffered (input l)) (input l) ++ contents)
    (unread l) (ltext l) (token l) (peek l).

(** The [for (; argi < argc; argi++)] loop over the files. *)
Fixpoint run_files (fuel : nat) (buffered : bytes -> nat) (head : Op)
    (files : list bytes) (w : World) : Res World unit :=
  match files with
  | [] => Ok tt w
  | f :: rest =>
      run_stream fuel head (with_lexer w (open_file buffered f (lexer w))) ;;;
      run_files fuel buffered head rest
  end.

(** [main] from [parse_pattern(argv[argi++])] on. *)
Definition run_args (fuel : nat) (buffered : bytes -> nat) (open : bytes -> bytes)
    (fs pat : bytes) (names : list bytes) (stdin : bytes) : Exit :=
  match parse_pattern fuel pat with
  | Ok None _ => ExitDie "invalid pattern" []
  | Ok (Some head) s =>
      match find_root head with
      | RootFound head' =>
          match
            match names with
            | [] => run_stream fuel head'
                      (mkWorld (lexer0 stdin) (ptabs s) [] fs (pbuf s))
            | _ :: _ => run_files fuel buffered head' (map open names)
                          (mkWorld (lexer0 []) (ptabs s) [] fs (pbuf s))
            end
          with
          | Ok _ w => Exit0 (out w)
          | Die msg w => ExitDie msg (out w)
          | Undef => Crash
          | OutOfFuel => Timeout
          end
      | RootNone => Abort
      | RootUndef => Crash
      end
  | Die msg _ => ExitDie msg []
  | Undef => Crash
  | OutOfFuel => Timeout
  end.

(** [main(argc, argv)]; [argv] starts with the program name. *)
Definition jl (fuel : nat) (buffered : bytes -> nat) (open : bytes -> bytes)
    (argv : list bytes) (stdin : bytes) : Exit :=
  match argv with
  | _ :: a1 :: rest =>
      if bytes_eqb a1 (B "-f") then
        match rest with
        | sep :: pat :: names => run_args fuel buffered open sep pat names stdin
        | _ => ExitDie usage []            (* argi + 2 >= argc *)
        end
      else run_args fuel buffered open [TAB] a1 rest stdin
  | _ => ExitDie usage []                  (* argc < 2 *)
  end.

(** ** Definitions used to state the properties *)

(** Test data: a string literal with ['] standing for the double quote. *)
Definition Q (s : string) : bytes :=
  map (fun c => if Ascii.eqb c "'"%char then DQUOTE else c) (B s).

(** A buffer whose [len] is the length of the string it holds. *)
Definition buf_wf (b : Buf) : Prop := len b = length (cstr b).

(** A row with [n] cells, one of which at least is not empty. *)
Definition row_ok (n : nat) (r : list Buf) : Prop :=
  length r = n /\ exists b, In b r /\ 0 < len b.

(** [max(r_1,1) * ... * max(r_k,1)] over the integers. *)
Definition row_count (tabs : list Table) : Z :=
  fold_right (fun t acc => Z.max 1 (nrows t) * acc)%Z 1%Z tabs.

(** The row index of every table for output line [i]: [i mod max(1, r_j)]. *)
Definition spec_index (tabs : list Table) (i : Z) : list Z :=
  map (fun t => i mod Z.max 1 (nrows t))%Z tabs.

(** The array [[1,1,...,1]] of [n] ones, [n >= 1]. *)
Definition ones_array (n : nat) : bytes :=
  B "[1" ++ concat (repeat (B ",1") (n - 1)) ++ B "]".

(** The object whose members [a] to [h] are each the array of [n] ones. *)
Definition eight_arrays (n : nat) : bytes :=
  B "{" ++
  concat (map (fun k => [DQUOTE; k; DQUOTE; ":"%char] ++ ones_array n ++ B ",")
              (B "abcdefg")) ++
  [DQUOTE; "h"%char; DQUOTE; ":"%char] ++ ones_array n ++ B "}".

(** The lexer with [i] left in the input stream. *)
Definition with_input (l : Lexer) (i : bytes) : Lexer :=
  mkLexer i (unread l) (ltext l) (token l) (peek l).

(** The lexer after [append_char(&lexer.text, c)] for every [c] of [cs]. *)
Definition append_texts (cs : bytes) (l : Lexer) : Lexer :=
  fold_left (fun l c => Lex.append_text c l) cs l.

(** The lexer has nothing pushed back and [i] is what the stream holds. *)
Definition at_input (l : Lexer) (i : bytes) : Prop :=
  unread l = NUL /\ input l = i.

Definition all_digits (ds : bytes) : Prop :=
  Forall (fun c => Lex.is_digit c = true) ds.

(** What may stand between the quotes of a string: a byte other than the
    quote, the backslash and the control bytes; a backslash with one of the
    eight escape characters; [\u] with four hex digits. *)
Inductive str_item : bytes -> Prop :=
| item_char c :
    Ascii.eqb c DQUOTE = false -> Ascii.eqb c BACKSLASH = false ->
    Lex.is_control c = false -> str_item [c]
| item_escape x :
    memchr Lex.valid_escapes x = true -> str_item [BACKSLASH; x]
| item_unicode h1 h2 h3 h4 :
    Lex.isxdigit h1 = true -> Lex.isxdigit h2 = true ->
    Lex.isxdigit h3 = true -> Lex.isxdigit h4 = true ->
    str_item [BACKSLASH; "u"%char; h1; h2; h3; h4].

Inductive str_body : bytes -> Prop :=
| body_nil : str_body []
| body_cons i s : str_item i -> str_body s -> str_body (i ++ s).

(** The lexer state an initial segment of a run leaves behind when nothing
    is cached or pushed back: input [i], lexeme buffer [b], last token [t]. *)
Definition lexer_at (i : bytes) (b : Buf) (t : Token) : Lexer :=
  mkLexer i NUL b t false.

(** [yields l ts l']: from the lexer state [l], successive calls of
    [next_token] return the tokens [ts] and leave the state [l']. *)
Inductive yields : Lexer -> list Token -> Lexer -> Prop :=
| yields_nil l : yields l [] l
| yields_cons l t l1 ts l2 :
    Lex.next_token l = Ok t l1 -> yields l1 ts l2 -> yields l (t :: ts) l2.

(** The token sequences of the document grammar: one value; the elements
    of a non-empty array; the members of a non-empty object. *)
Inductive value_toks : list Token -> Prop :=
| vt_literal t : is_literal (type t) = true -> value_toks [t]
| vt_empty_array b e :
    type b = T_BEGINARRAY -> type e = T_ENDARRAY -> value_toks [b; e]
| vt_array b es e :
    type b = T_BEGINARRAY -> elems_toks es -> type e = T_ENDARRAY ->
    value_toks (b :: es ++ [e])
| vt_empty_object b e :
    type b = T_BEGINOBJECT -> type e = T_ENDOBJECT -> value_toks [b; e]
| vt_object b ms e :
    type b = T_BEGINOBJECT -> members_toks ms -> type e = T_ENDOBJECT ->
    value_toks (b :: ms ++ [e])

with elems_toks : list Token -> Prop :=
| et_last v : value_toks v -> elems_toks v
| et_more v c es :
    value_toks v -> type c = T_MEMBERSEP -> elems_toks es ->
    elems_toks (v ++ c :: es)

with members_toks : list Token -> Prop :=
| mt_last k c v :
    type k = T_STRING -> type c = T_PAIRSEP -> value_toks v ->
    members_toks (k :: c :: v)
| mt_more k c v s ms :
    type k = T_STRING -> type c = T_PAIRSEP -> value_toks v ->
    type s = T_MEMBERSEP -> members_toks ms ->
    members_toks (k :: c :: v ++ s :: ms).

Scheme value_toks_mut := Minimality for value_toks Sort Prop
  with elems_toks_mut := Minimality for elems_toks Sort Prop
  with members_toks_mut := Minimality for members_toks Sort Prop.

Combined Scheme doc_toks_ind from value_toks_mut, elems_toks_mut, members_toks_mut.

(** The document [ts] does not have the shape of the top operator [op]. *)
Definition mismatch (op : Op) (ts : list Token) : Prop :=
  match op, ts with
  | OpArray _ _ _, t :: _ => type t <> T_BEGINARRAY
  | OpObject _ _ _, t :: _ => type t <> T_BEGINOBJECT
  | _, _ => False
  end.

(** The lexeme buffer as [next_token] leaves it before it reads a token. *)
Definition fresh_text (b : Buf) : Buf :=
  if 0 <? len b then mkBuf 0 (cap b) (Some []) else b.

Definition tok (ty : TokenType) (v : bytes) : Token := mkToken ty (Some v).

(** [n + 1] empty strings separated by commas, and the array of them. *)
Fixpoint empty_strings (n : nat) : bytes :=
  match n with
  | 0 => [DQUOTE; DQUOTE]
  | S k => DQUOTE :: DQUOTE :: ","%char :: empty_strings k
  end.

Definition empty_strings_array (n : nat) : bytes :=
  "["%char :: empty_strings n ++ B "]".

(** The bytes the lexer can still read: the unread slot and the input. *)
Definition avail (l : Lexer) : nat :=
  (if Ascii.eqb (unread l) NUL then 0 else 1) + length (input l).

(** [find_root] returns true on [op]. *)
Definition has_root (op : Op) : Prop :=
  exists head, find_root op = RootFound head.

(** What a child of a compiled node is: a Collect, or a node under which a
    root is found. *)
Definition rootable (op : Op) : Prop :=
  is_collect op = true \/ has_root op.

(** The first token of a value opens an array or an object or is a literal. *)
Definition starts_value (t : Token) : Prop :=
  is_literal (type t) = true \/ type t = T_BEGINARRAY \/ type t = T_BEGINOBJECT.

(** A stream of white space only. *)
Definition all_ws (i : bytes) : Prop := Forall (fun c => memchr Lex.ws c = true) i.

(** [r] is [OutOfFuel], or it is [r']. *)
Definition le_res {S A} (r r' : Res S A) : Prop := r = OutOfFuel \/ r = r'.

(** A table as the program keeps it: the pending row has [ncols] cells and
    every completed row has [ncols] cells, one of which is not empty. *)
Definition table_wf (t : Table) : Prop :=
  length (newrow t) = ncols t /\ Forall (row_ok (ncols t)) (rows t).

Definition tables_wf (w : World) : Prop := Forall table_wf (tables w).

(** No table of the registry has a completed row. *)
Definition no_rows (tabs : list Table) : Prop := Forall (fun t => rows t = []) tabs.

(** ** Definitions used to state the further properties *)

(** The first token of [ts] opens an array or an object. *)
Definition opens_container (ts : list Token) : Prop :=
  match ts with
  | t :: _ => type t = T_BEGINARRAY \/ type t = T_BEGINOBJECT
  | [] => False
  end.

(** A buffer as the program keeps it: never written and all zero, or
    allocated with room for its [len] bytes and the terminating NUL. *)
Definition buf_ok (b : Buf) : Prop :=
  (b = buf0)
  \/ (exists s, str b = Some s /\ len b = length s /\ len b < cap b).

(** The argument vector of a call with an optional [-f SEP], the pattern
    and the FILE names. *)
Definition jl_args (sep : option bytes) (pat : bytes) (names : list bytes)
    : list bytes :=
  B "jl" ::
  match sep with
  | Some fs => B "-f" :: fs :: pat :: names
  | None => pat :: names
  end.

(** A result of the compiler that is not a timeout: undefined behaviour, or
    a state whose position is at least [p] in a pattern buffer of [n]
    bytes. *)
Definition parsed {A} (p n : nat) (r : Res PState A) : Prop :=
  match r with
  | Ok _ s' => p <= ppos s' /\ length (pbuf s') = n
  | Undef => True
  | _ => False
  end.

(** The fuel that is enough for the compiler on a pattern of [n] bytes. *)
Definition parse_fuel (n : nat) : nat := 2 * n + 2.

(** The bytes a token can start with, the white space and the NUL that
    stands for the end of the stream. *)
Definition token_start : bytes :=
  NUL :: Lex.ws ++ B "{}:,[]tfn-0123456789" ++ [DQUOTE].

(** The three literal names and their token types. *)
Definition literal_names : list (bytes * TokenType) :=
  [(B "true", T_BOOL); (B "false", T_BOOL); (B "null", T_NULL)].

(** What [next_token] does after it has reset the token and the lexeme
    buffer and [read_token] has returned. *)
Definition finish_token (l : Lexer) : Res Lexer Token :=
  let l :=
    match text (token l) with
    | None => Lex.set_text (cstr (ltext l)) l
    | Some _ => l
    end in
  Ok (token l) l.

(** The lexer state in which [next_token] calls [read_token]. *)
Definition lexer_reset (i : bytes) (b : Buf) (t : Token) : Lexer :=
  mkLexer i NUL (fresh_text b) (mkToken (type t) None) false.

(** How a string can go wrong after a well-formed part of its body, with
    the message of the lexer: the stream ends (or holds a NUL); a control
    byte; a backslash before a byte that is no escape character; [\u]
    before fewer than four hex digits. *)
Inductive bad_string_end : bytes -> string -> Prop :=
| bad_eof : bad_string_end [] "non-terminated string"
| bad_nul rest : bad_string_end (NUL :: rest) "non-terminated string"
| bad_control c rest :
    Lex.is_control c = true -> c <> NUL ->
    bad_string_end (c :: rest) "control character in string"
| bad_escape rest :
    memchr Lex.valid_escapes (hd NUL rest) = false -> hd NUL rest <> "u"%char ->
    bad_string_end (BACKSLASH :: rest) "invalid escape character"
| bad_hex hs rest :
    length hs < 4 -> Forall (fun h => Lex.isxdigit h = true) hs ->
    Lex.isxdigit (hd NUL rest) = false ->
    bad_string_end (BACKSLASH :: "u"%char :: hs ++ rest) "not a hex character".

(** The number grammar of JSON: an optional minus sign, [0] or a digit
    from 1 to 9 and digits, an optional fraction, an optional exponent. *)
Inductive int_part : bytes -> Prop :=
| int_zero : int_part ["0"%char]
| int_digits d ds : Lex.is_1to9 d = true -> all_digits ds -> int_part (d :: ds).

Inductive frac_part : bytes -> Prop :=
| frac_none : frac_part []
| frac_digits ds : all_digits ds -> ds <> [] -> frac_part ("."%char :: ds).

Inductive exp_part : bytes -> Prop :=
| exp_none : exp_part []
| exp_digits e ds :
    Lex.is_e e = true -> all_digits ds -> ds <> [] -> exp_part (e :: ds)
| exp_signed e sg ds :
    Lex.is_e e = true -> sg = "+"%char \/ sg = "-"%char ->
    all_digits ds -> ds <> [] -> exp_part (e :: sg :: ds).

Inductive json_number : bytes -> Prop :=
| num_plain i f e :
    int_part i -> frac_part f -> exp_part e -> json_number (i ++ f ++ e)
| num_minus i f e :
    int_part i -> frac_part f -> exp_part e ->
    json_number ("-"%char :: i ++ f ++ e).

(** The stream ends, or goes on with a byte that is no digit and not NUL. *)
Definition digits_end (rest : bytes) : Prop :=
  match rest with
  | [] => True
  | c :: _ => c <> NUL /\ Lex.is_digit c = false
  end.

(** The stream ends, or goes on with a byte that cannot continue a number:
    no digit, no point, no [e] or [E] (and not NUL). *)
Definition ends_number (rest : bytes) : Prop :=
  match rest with
  | [] => True
  | c :: _ =>
      c <> NUL /\ Lex.is_digit c = false /\ c <> "."%char /\ Lex.is_e c = false
  end.

(** The lexer that has read up to [rest] and pushed its first byte back. *)
Definition pushed_back (l : Lexer) (rest : bytes) : Lexer :=
  mkLexer (tl rest) (hd NUL rest) (ltext l) (token l) (peek l).

(** The lexer with nothing pushed back and [i] in the stream. *)
Definition lexer_on (l : Lexer) (i : bytes) : Lexer :=
  mkLexer i NUL (ltext l) (token l) (peek l).

(** The fields of an output line.  [row_cells t row] is one field for each
    column of [t]: the text of the cell, or nothing when the table has no
    row.  [table_row] is the row [emit_row] takes for table number [i];
    [cells_from] lists the fields of the tables from number [i] on. *)
Definition row_cells (t : Table) (row : option (list Buf)) : list bytes :=
  map (fun j => match row with
                | Some r => cstr (nth j r buf0)
                | None => []
                end) (seq 0 (ncols t)).

Definition table_row (t : Table) (i : nat) (rowindex : list Z)
    : option (list Buf) :=
  if (0 <? nrows t)%Z
  then Some (nth (Z.to_nat (nth i rowindex 0%Z)) (rows t) [])
  else None.

Fixpoint cells_from (i : nat) (tabs : list Table) (rowindex : list Z)
    : list bytes :=
  match tabs with
  | [] => []
  | t :: tabs' =>
      row_cells t (table_row t i rowindex) ++ cells_from (S i) tabs' rowindex
  end.

(** The fields with [sep] between them. *)
Definition join (sep : bytes) (cells : list bytes) : bytes :=
  match cells with
  | [] => []
  | c :: rest => c ++ concat (map (fun x => sep ++ x) rest)
  end.




(** The measure of what is left of the stream: two for every byte the
    lexer can still read, and one more for a cached token that is not
    [Eof]. *)
Definition mu (l : Lexer) : nat :=
  2 * avail l
  + (if peek l && negb (TokenType_eqb (type (token l)) T_EOF) then 1 else 0).

(** Fuel that is enough to run an operator over a stream of [n] bytes. *)
Definition run_fuel (n : nat) : nat := 6 * n + 6.

(** [unmatched_tail mem prop k ts]: after the key token [k] of a member of
    an object, [ts] are the tokens up to the closing brace of the object,
    and neither [k] nor a later key is the name of a property of [prop]
    (the names are C strings in the pattern buffer [mem]).  The last member
    may be followed by a comma. *)
Inductive unmatched_tail (mem : bytes) (prop : list (nat * Op))
    : Token -> list Token -> Prop :=
| ut_last k key c v e :
    type k = T_STRING -> text k = Some key -> find_prop mem prop key = None ->
    type c = T_PAIRSEP -> value_toks v -> type e = T_ENDOBJECT ->
    unmatched_tail mem prop k (c :: v ++ [e])
| ut_trailing k key c v s e :
    type k = T_STRING -> text k = Some key -> find_prop mem prop key = None ->
    type c = T_PAIRSEP -> value_toks v -> type s = T_MEMBERSEP ->
    type e = T_ENDOBJECT ->
    unmatched_tail mem prop k (c :: v ++ [s; e])
| ut_more k key c v s k' rest :
    type k = T_STRING -> text k = Some key -> find_prop mem prop key = None ->
    type c = T_PAIRSEP -> value_toks v -> type s = T_MEMBERSEP ->
    unmatched_tail mem prop k' rest ->
    unmatched_tail mem prop k (c :: v ++ s :: k' :: rest).

(** The number of nodes of a tree that are marked as the root, and the
    tree with every mark removed. *)
Fixpoint count_roots (op : Op) : nat :=
  match op with
  | OpArray _ next r => (if r then 1 else 0) + count_roots next
  | OpObject _ prop r =>
      (if r then 1 else 0) + list_sum (map (fun p => count_roots (snd p)) prop)
  | OpCollect _ _ => 0
  end.

Fixpoint erase_root (op : Op) : Op :=
  match op with
  | OpArray t next _ => OpArray t (erase_root next) false
  | OpObject t prop _ =>
      OpObject t (map (fun p => (fst p, erase_root (snd p))) prop) false
  | OpCollect t c => OpCollect t c
  end.

(** The token can neither start a value nor continue or end an array. *)
Definition bad_after_element (t : Token) : Prop :=
  type t <> T_MEMBERSEP /\ type t <> T_ENDARRAY.



(** * Properties *)

(** ** Tables: [add_value] and [add_row] *)

Lemma hasval_true_iff (t : Table) :
  length (newrow t) = ncols t ->
  hasval t = true <-> exists b, In b (newrow t) /\ 0 < len b.
Proof.
  intros Hwf. unfold hasval.
  rewrite <- Hwf, firstn_all, existsb_exists.
  split; intros [b [Hin Hb]]; exists b; split; auto.
  - apply Nat.ltb_lt; exact Hb.
  - apply Nat.ltb_lt; exact Hb.
Qed.

Lemma hasval_false_all_empty (t : Table) :
  length (newrow t) = ncols t ->
  hasval t = false -> Forall (fun b => len b = 0) (newrow t).
Proof.
  intros Hwf Hv. apply Forall_forall. intros b Hin.
  destruct (Nat.eq_dec (len b) 0) as [|Hne]; [assumption|].
  assert (hasval t = true) as Ht.
  { apply hasval_true_iff; [assumption|]. exists b. split; [assumption|lia]. }
  congruence.
Qed.

Lemma repeat_buf0_empty (n : nat) : Forall (fun b => len b = 0) (repeat buf0 n).
Proof. induction n; simpl; constructor; auto. Qed.

Lemma app_one_neq {A} (l : list A) (x : A) : l ++ [x] <> l.
Proof.
  intros H. apply (f_equal (@length A)) in H.
  rewrite length_app in H. simpl in H. lia.
Qed.

(** C5. [add_row] on a table whose pending row has [ncols] cells: the
    pending row is appended to the completed rows exactly when one of its
    cells is not empty (and the completed rows are unchanged otherwise);
    after the call every cell of the pending row is empty; and if every
    completed row had [ncols] cells and a non-empty cell before the call,
    every completed row has them after it. *)
Theorem add_row_promotes_nonempty (t : Table) :
  length (newrow t) = ncols t ->
  (rows (add_row t) = rows t ++ [newrow t]
     <-> exists b, In b (newrow t) /\ 0 < len b)
  /\ ((forall b, In b (newrow t) -> len b = 0) -> rows (add_row t) = rows t)
  /\ Forall (fun b => len b = 0) (newrow (add_row t))
  /\ length (newrow (add_row t)) = ncols t
  /\ ncols (add_row t) = ncols t
  /\ (Forall (row_ok (ncols t)) (rows t)
      -> Forall (row_ok (ncols t)) (rows (add_row t))).
Proof.
  intros Hwf. pose proof (hasval_true_iff t Hwf) as Hiff.
  unfold add_row. destruct (hasval t) eqn:Hv; simpl.
  - repeat split.
    + intros _. apply Hiff. reflexivity.
    + intros Hall. destruct (proj1 Hiff eq_refl) as [b [Hin Hb]].
      specialize (Hall b Hin). lia.
    + apply repeat_buf0_empty.
    + apply repeat_length.
    + intros Hrows. apply Forall_app. split; [assumption|].
      constructor; [|constructor]. split; [assumption|].
      apply Hiff. reflexivity.
  - repeat split.
    + intros H. symmetry in H. apply app_one_neq in H. contradiction.
    + intros H. apply Hiff in H. discriminate.
    + apply hasval_false_all_empty; assumption.
    + assumption.
    + auto.
Qed.

Lemma add_row_promotes_nonempty_witness :
  let t := mkTable 2 [] [buf0; mkBuf 1 4 (Some (B "x"))] in
  rows (add_row t) = [[buf0; mkBuf 1 4 (Some (B "x"))]]
  /\ Forall (fun b => len b = 0) (newrow (add_row t)).
Proof.
  intros t.
  pose proof (add_row_promotes_nonempty t eq_refl) as [H1 [_ [H3 _]]].
  split; [|exact H3].
  apply H1. exists (mkBuf 1 4 (Some (B "x"))). simpl. split; [auto|lia].
Defined.

(** ** The emitter *)

Lemma emit_cells_app fs i t row o :
  emit_cells fs i t row o = o ++ emit_cells fs i t row [].
Proof.
  unfold emit_cells. generalize (seq 0 (ncols t)) as js.
  intros js. revert o.
  assert (forall (acc o : bytes),
    fold_left (fun o j =>
       let o1 := if (0 <? i) || (0 <? j) then o ++ fs else o in
       match row with
       | Some r => match str (nth j r buf0) with Some s => o1 ++ s | None => o1 end
       | None => o1
       end) js (o ++ acc)
    = o ++ fold_left (fun o j =>
       let o1 := if (0 <? i) || (0 <? j) then o ++ fs else o in
       match row with
       | Some r => match str (nth j r buf0) with Some s => o1 ++ s | None => o1 end
       | None => o1
       end) js acc) as H.
  { induction js as [|j js IH]; intros acc o; simpl; [reflexivity|].
    destruct ((0 <? i) || (0 <? j)); destruct row as [r|];
      try destruct (str (nth j r buf0));
      rewrite <- ?app_assoc; apply IH. }
  intros o. specialize (H [] o). rewrite app_nil_r in H. exact H.
Qed.

Lemma emit_tables_app fs tabs : forall i ri o,
  emit_tables fs i tabs ri o = o ++ emit_tables fs i tabs ri [].
Proof.
  induction tabs as [|t tabs IH]; intros i ri o; simpl.
  - rewrite app_nil_r. reflexivity.
  - rewrite IH. rewrite (IH _ _ (emit_cells fs i t _ [])).
    rewrite (emit_cells_app fs i t _ o). rewrite app_assoc. reflexivity.
Qed.

(** One call of [emit_row] appends one line, which does not depend on what
    was written before. *)
Lemma emit_row_app fs tabs ri o :
  emit_row fs tabs ri o = o ++ emit_row fs tabs ri [].
Proof.
  unfold emit_row. rewrite emit_tables_app. rewrite app_assoc. reflexivity.
Qed.

Lemma row_count_pos tabs : (1 <= row_count tabs)%Z.
Proof.
  induction tabs as [|t tabs IH]; simpl; [lia|].
  assert (1 <= Z.max 1 (nrows t))%Z by lia. nia.
Qed.

Lemma nrows_nonneg t : (0 <= nrows t)%Z.
Proof. unfold nrows. lia. Qed.

Lemma row_count_cons t tabs :
  row_count (t :: tabs) = (Z.max 1 (nrows t) * row_count tabs)%Z.
Proof. reflexivity. Qed.

Lemma count_rows_from tabs : forall (b : bool) (a : Z),
  (1 <= a)%Z -> (a * row_count tabs < 2 ^ SIZE_WIDTH)%Z ->
  fold_left
    (fun acc t =>
       let n := nrows t in
       if 0 <? n then (true, size_wrap (snd acc * n)) else acc)%Z
    tabs (b, a)
  = (b || existsb (fun t => 0 <? nrows t)%Z tabs, (a * row_count tabs)%Z).
Proof.
  unfold size_wrap. generalize (2 ^ SIZE_WIDTH)%Z as m. intros m.
  induction tabs as [|t tabs IH]; intros b a Ha Hlt.
  - simpl. rewrite orb_false_r. f_equal. lia.
  - rewrite row_count_cons in *. pose proof (row_count_pos tabs) as Hp.
    pose proof (nrows_nonneg t) as Hn.
    cbn [fold_left existsb snd].
    destruct (0 <? nrows t)%Z eqn:Hz.
    + apply Z.ltb_lt in Hz.
      assert (Z.max 1 (nrows t) = nrows t) as Hmax by lia.
      rewrite Hmax in *.
      assert ((a * nrows t) mod m = a * nrows t)%Z as Hw.
      { apply Z.mod_small. split; [nia|].
        assert (a * nrows t <= a * (nrows t * row_count tabs))%Z by nia. lia. }
      rewrite Hw. rewrite IH.
      * cbn [orb]. rewrite orb_true_r. f_equal. symmetry. apply Z.mul_assoc.
      * nia.
      * rewrite <- Z.mul_assoc. exact Hlt.
    + apply Z.ltb_ge in Hz.
      assert (Z.max 1 (nrows t) = 1)%Z as Hmax by lia.
      rewrite Hmax in *. rewrite IH; [|assumption|lia].
      cbn [orb]. f_equal. lia.
Qed.

Lemma count_rows_spec tabs :
  (row_count tabs < 2 ^ SIZE_WIDTH)%Z ->
  count_rows tabs = (existsb (fun t => 0 <? nrows t)%Z tabs, row_count tabs).
Proof.
  intros H. unfold count_rows.
  rewrite count_rows_from; [|lia|rewrite Z.mul_1_l; exact H].
  cbn [orb]. f_equal. apply Z.mul_1_l.
Qed.

(** [rowindex] after the inner loop, whatever the round before left in it
    for the tables that have rows. *)
Lemma set_rowindex_spec tabs : forall i ri,
  Forall2 (fun t r => nrows t = 0%Z -> r = 0%Z) tabs ri ->
  set_rowindex tabs i ri = spec_index tabs i.
Proof.
  induction tabs as [|t tabs IH]; intros i ri H;
    inversion H as [|t0 r tabs0 ri0 Hr Hrest]; subst; simpl.
  - reflexivity.
  - f_equal; [|apply IH; assumption].
    pose proof (nrows_nonneg t).
    destruct (0 <? nrows t)%Z eqn:Hz.
    + apply Z.ltb_lt in Hz. replace (Z.max 1 (nrows t)) with (nrows t) by lia.
      reflexivity.
    + apply Z.ltb_ge in Hz. replace (Z.max 1 (nrows t)) with 1%Z by lia.
      rewrite Z.mod_1_r. apply Hr. lia.
Qed.

Lemma spec_index_compat tabs i :
  Forall2 (fun t r => nrows t = 0%Z -> r = 0%Z) tabs (spec_index tabs i).
Proof.
  induction tabs as [|t tabs IH]; simpl; constructor; [|exact IH].
  intros Hz. rewrite Hz. simpl. apply Z.mod_1_r.
Qed.

Lemma zeros_compat tabs :
  Forall2 (fun t r => nrows t = 0%Z -> r = 0%Z) tabs (repeat 0%Z (length tabs)).
Proof. induction tabs; simpl; constructor; auto. Qed.

Lemma emit_loop_spec fs tabs : forall n i ri o,
  Forall2 (fun t r => nrows t = 0%Z -> r = 0%Z) tabs ri ->
  emit_loop fs tabs n i ri o
  = o ++ concat (map (fun k => emit_row fs tabs (spec_index tabs (i + Z.of_nat k)) [])
                     (seq 0 n)).
Proof.
  induction n as [|n IH]; intros i ri o H.
  - simpl. rewrite app_nil_r. reflexivity.
  - cbn [emit_loop]. rewrite (set_rowindex_spec i H).
    rewrite IH by apply spec_index_compat.
    rewrite emit_row_app. rewrite <- app_assoc. f_equal.
    cbn [seq map concat]. rewrite Z.add_0_r. f_equal.
    rewrite <- seq_shift, map_map. f_equal.
    apply map_ext. intros k. do 2 f_equal. lia.
Qed.

Lemma rows_reset tabs : Forall (fun t => rows t = []) (map reset_table tabs).
Proof. induction tabs; simpl; constructor; auto. Qed.

Lemma existsb_nrows_false tabs :
  existsb (fun t => 0 <? nrows t)%Z tabs = false ->
  Forall (fun t => rows t = []) tabs.
Proof.
  induction tabs as [|t tabs IH]; simpl; intros H; constructor.
  - apply orb_false_elim in H. destruct H as [H _].
    apply Z.ltb_ge in H. unfold nrows in H.
    destruct (rows t); [reflexivity|simpl in H; lia].
  - apply IH. apply orb_false_elim in H. tauto.
Qed.

(** The Cartesian product of [flush_tables], as long as the product of the
    row counts is below [2^64]: if some table has a completed row, the
    flush writes [row_count tabs] lines, line [i] being the line of
    [emit_row] at the row indices [i mod max(1, r_j)]; if none has, it
    writes nothing; no table has a completed row afterwards. *)
Lemma flush_tables_cartesian fs tabs o :
  (row_count tabs < 2 ^ SIZE_WIDTH)%Z ->
  let lines :=
    map (fun i => emit_row fs tabs (spec_index tabs (Z.of_nat i)) [])
        (seq 0 (Z.to_nat (row_count tabs))) in
  (Exists (fun t => 0 < nrows t)%Z tabs ->
     snd (flush_tables fs tabs o) = o ++ concat lines
     /\ Z.of_nat (length lines) = row_count tabs)
  /\ (Forall (fun t => nrows t = 0%Z) tabs ->
        snd (flush_tables fs tabs o) = o)
  /\ Forall (fun t => rows t = []) (fst (flush_tables fs tabs o)).
Proof.
  intros Hfit lines. unfold flush_tables. rewrite (count_rows_spec _ Hfit).
  assert (Exists (fun t => 0 < nrows t)%Z tabs ->
          existsb (fun t => 0 <? nrows t)%Z tabs = true) as Hex.
  { intros Hex. apply Exists_exists in Hex. destruct Hex as [t [Hin Ht]].
    apply existsb_exists. exists t. split; [assumption|].
    apply Z.ltb_lt. assumption. }
  destruct (existsb (fun t => 0 <? nrows t)%Z tabs) eqn:He; simpl.
  - split; [|split].
    + intros _. split.
      * rewrite emit_loop_spec by apply zeros_compat. reflexivity.
      * unfold lines. rewrite length_map, length_seq.
        pose proof (row_count_pos tabs). lia.
    + intros Hall. apply existsb_exists in He. destruct He as [t [Hin Ht]].
      rewrite Forall_forall in Hall. apply Z.ltb_lt in Ht.
      specialize (Hall t Hin). lia.
    + apply rows_reset.
  - split; [|split].
    + intros H. apply Hex in H. discriminate.
    + reflexivity.
    + apply existsb_nrows_false. assumption.
Qed.

(** ** The pattern compiler and root selection *)

Lemma has_root_array t next r : rootable next -> has_root (OpArray t next r).
Proof.
  intros [Hc | [h Hh]]; unfold has_root; simpl.
  - rewrite Hc. eauto.
  - destruct (is_collect next); [eauto|]. rewrite Hh. eauto.
Qed.

Lemma has_root_object t nm op rest r :
  rootable op -> has_root (OpObject t ((nm, op) :: rest) r).
Proof.
  intros [Hc | [h Hh]]; unfold has_root; simpl.
  - rewrite Hc, orb_true_r. eauto.
  - destruct (negb match rest with [] => true | _ :: _ => false end || is_collect op);
      [eauto|]. rewrite Hh. eauto.
Qed.

Lemma bind_Ok {S A C} (m : Res S A) (k : A -> S -> Res S C) c s' :
  bind m k = Ok c s' -> exists a s, m = Ok a s /\ k a s = Ok c s'.
Proof. destruct m; simpl; intros H; try discriminate. eauto. Qed.

Lemma collect_into_collect t s op s' :
  collect_into t s = Ok op s' -> is_collect op = true.
Proof.
  unfold collect_into, new_collect_op.
  destruct (nth_error (ptabs s) t); [|discriminate].
  intros H. inversion H. reflexivity.
Qed.

(** Every tree the three mutually recursive parsers return has a root below
    it; [parse_props] is given the properties parsed so far. *)
Lemma parse_has_root (fuel : nat) :
  (forall s op s', parse_array fuel s = Ok (Some op) s' -> has_root op)
  /\ (forall s op s', parse_object fuel s = Ok (Some op) s' -> has_root op)
  /\ (forall table prop s op s',
        parse_props fuel table prop s = Ok (Some op) s' -> has_root op).
Proof.
  induction fuel as [|f [IHa [IHo IHp]]].
  - repeat split; intros; discriminate.
  - split; [|split].
    + intros s op s' H. cbn [parse_array] in H.
      destruct (negb (Ascii.eqb (cur s) "["%char)); [discriminate|].
      apply bind_Ok in H. destruct H as [[tbl nx] [s1 [Hr Hk]]].
      cbn [fst snd] in Hk.
      destruct nx as [next|]; [|discriminate].
      assert (rootable next) as Hnext.
      { destruct (Ascii.eqb (cur (adv s)) "*"%char).
        - destruct (new_table (adv s)) as [t0 s0].
          apply bind_Ok in Hr. destruct Hr as [op0 [s2 [Hc Hr]]].
          inversion Hr; subst. left. eapply collect_into_collect; eauto.
        - destruct (Ascii.eqb (cur (adv s)) "["%char).
          + apply bind_Ok in Hr. destruct Hr as [n [s2 [Hc Hr]]].
            inversion Hr; subst. right. eapply IHa; eauto.
          + destruct (Ascii.eqb (cur (adv s)) "{"%char).
            * apply bind_Ok in Hr. destruct Hr as [n [s2 [Hc Hr]]].
              inversion Hr; subst. right. eapply IHo; eauto.
            * inversion Hr. }
      destruct (Ascii.eqb (cur s1) NUL).
      { inversion Hk; subst. apply has_root_array; assumption. }
      destruct (Ascii.eqb (cur s1) "]"%char); [|discriminate].
      inversion Hk; subst. apply has_root_array; assumption.
    + intros s op s' H. cbn [parse_object] in H.
      destruct (negb (Ascii.eqb (cur s) "{"%char)); [discriminate|].
      eapply IHp; eauto.
    + intros table prop s op s' H. cbn [parse_props] in H.
      apply bind_Ok in H. destruct H as [name [s1 [Hname H]]].
      apply bind_Ok in H. destruct H as [[tbl o] [s2 [Hr Hk]]].
      cbn [fst snd] in Hk.
      destruct name as [nm|]; [|discriminate].
      destruct o as [pop|]; [|discriminate].
      assert (rootable pop) as Hpop.
      { destruct (Ascii.eqb (cur s1) ","%char || Ascii.eqb (cur s1) "}"%char
                  || Ascii.eqb (cur s1) NUL).
        - destruct (match table with Some t => (t, s1) | None => new_table s1 end)
            as [t0 s0].
          apply bind_Ok in Hr. destruct Hr as [op0 [s3 [Hc Hr]]].
          inversion Hr; subst. left. eapply collect_into_collect; eauto.
        - destruct (Ascii.eqb (cur s1) "{"%char).
          + apply bind_Ok in Hr. destruct Hr as [n [s3 [Hc Hr]]].
            inversion Hr; subst. right. eapply IHo; eauto.
          + destruct (Ascii.eqb (cur s1) "["%char).
            * apply bind_Ok in Hr. destruct Hr as [n [s3 [Hc Hr]]].
              inversion Hr; subst. right. eapply IHa; eauto.
            * inversion Hr. }
      destruct (Ascii.eqb (cur s2) ","%char).
      { eapply IHp; eauto. }
      destruct (Ascii.eqb (cur s2) "}"%char).
      { inversion Hk; subst. apply has_root_object; assumption. }
      destruct (negb (Ascii.eqb (cur s2) NUL)); [discriminate|].
      inversion Hk; subst. apply has_root_object; assumption.
Qed.

Lemma parse_pattern_has_root fuel pat head s :
  parse_pattern fuel pat = Ok (Some head) s -> has_root head.
Proof.
  unfold parse_pattern. intros H.
  apply bind_Ok in H. destruct H as [op [s1 [Hp Hk]]].
  destruct op as [op|]; [|discriminate].
  inversion Hk; subst. clear Hk.
  destruct (parse_has_root fuel) as [Ha [Ho _]].
  destruct (Ascii.eqb (cur (mkPState pat 0 [])) "["%char).
  - eapply Ha; eauto.
  - destruct (Ascii.eqb (cur (mkPState pat 0 [])) "{"%char).
    + eapply Ho; eauto.
    + discriminate.
Qed.

(** The node [find_root] hands back is an Array or an Object. *)
Lemma find_root_not_collect op head :
  find_root op = RootFound head -> is_collect head = false.
Proof.
  destruct op as [t next r | t prop r | t c]; cbn [find_root]; intros H.
  - destruct (is_collect next); [inversion H; reflexivity|].
    destruct (find_root next); inversion H; reflexivity.
  - destruct prop as [|[nm pop] rest]; [discriminate|].
    destruct (negb match rest with [] => true | _ :: _ => false end || is_collect pop);
      [inversion H; reflexivity|].
    destruct (find_root pop); inversion H; reflexivity.
  - discriminate.
Qed.

(** C9. Whenever [parse_pattern] returns a tree (with whatever fuel),
    [find_root] returns true on that tree: it marks a root and neither
    returns false nor meets an object without properties. *)
Theorem find_root_succeeds_on_compiled (fuel : nat) (pat : bytes) (head : Op)
    (s : PState) :
  parse_pattern fuel pat = Ok (Some head) s ->
  exists head', find_root head = RootFound head'.
Proof. apply parse_pattern_has_root. Qed.

Lemma find_root_succeeds_on_compiled_witness :
  exists head', find_root
    (OpArray None
       (OpObject (Some 0)
          [(5, OpArray (Some 1) (OpCollect 1 0) false); (2, OpCollect 0 0)]
          false) false) = RootFound head'.
Proof.
  apply (@find_root_succeeds_on_compiled 20 (B "[{id,vals[*]}]") _
           (mkPState (B "[{id" ++ [NUL] ++ B "vals" ++ [NUL] ++ B "*]}]") 14
              [mkTable 1 [] [buf0]; mkTable 1 [] [buf0]])).
  vm_compute. reflexivity.
Defined.

(** ** The lexer *)

Lemma read_char_input w c rest :
  at_input w (c :: rest) -> Lex.read_char w = (c, with_input w rest).
Proof.
  destruct w as [i0 u b t p]. intros [Hu Hi].
  simpl in Hu, Hi. subst. reflexivity.
Qed.

Lemma read_char_eof w : at_input w [] -> Lex.read_char w = (NUL, w).
Proof.
  destruct w as [i0 u b t p]. intros [Hu Hi].
  simpl in Hu, Hi. subst. reflexivity.
Qed.

Lemma with_input_same w i : input w = i -> with_input w i = w.
Proof. destruct w as [i0 u b t p]. simpl. intros ->. reflexivity. Qed.

Lemma with_input_twice w i j : with_input (with_input w i) j = with_input w j.
Proof. reflexivity. Qed.

Lemma at_input_with_input w i j : at_input w i -> at_input (with_input w j) j.
Proof. intros [Hu _]. split; [exact Hu|reflexivity]. Qed.

Lemma at_input_append_text w i c : at_input w i -> at_input (Lex.append_text c w) i.
Proof. intros H. exact H. Qed.

Lemma append_text_with_input c w i :
  Lex.append_text c (with_input w i) = with_input (Lex.append_text c w) i.
Proof. reflexivity. Qed.

Lemma append_texts_with_input cs : forall w i,
  append_texts cs (with_input w i) = with_input (append_texts cs w) i.
Proof.
  induction cs as [|c cs IH]; intros w i; [reflexivity|].
  cbn [append_texts fold_left]. rewrite append_text_with_input. apply IH.
Qed.

Lemma append_texts_app a b w :
  append_texts (a ++ b) w = append_texts b (append_texts a w).
Proof. unfold append_texts. apply fold_left_app. Qed.

Lemma at_input_append_texts cs : forall w i,
  at_input w i -> at_input (append_texts cs w) i.
Proof.
  induction cs as [|c cs IH]; intros w i H; [exact H|].
  cbn [append_texts fold_left]. apply IH. exact H.
Qed.

Lemma digit_not_nul c : Lex.is_digit c = true -> Ascii.eqb c NUL = false.
Proof.
  intros H. destruct (Ascii.eqb c NUL) eqn:E; [|reflexivity].
  apply Ascii.eqb_eq in E. subst. discriminate.
Qed.

(** [append_digits] on a stream that ends after the digits [ds]. *)
Lemma append_digits_from_eof ds : forall fuel n w,
  at_input w ds -> all_digits ds -> length ds < fuel ->
  (n + Z.of_nat (length ds) <= Lex.INT_MAX)%Z ->
  Lex.append_digits_from fuel n w
  = Ok (n + Z.of_nat (length ds))%Z (with_input (append_texts ds w) []).
Proof.
  induction ds as [|c ds IH]; intros fuel n w Hin Hd Hf Hn;
    (destruct fuel as [|f]; [simpl in Hf; lia|]); cbn [Lex.append_digits_from].
  - rewrite (read_char_eof Hin). cbn [Ascii.eqb NUL Bool.eqb].
    simpl. rewrite Z.add_0_r. rewrite with_input_same; [reflexivity|apply Hin].
  - rewrite (read_char_input Hin). inversion Hd as [|c0 ds0 Hc Hds]; subst.
    rewrite (digit_not_nul _ Hc), Hc.
    cbn [length] in Hn, Hf. rewrite Nat2Z.inj_succ in Hn.
    replace (n =? Lex.INT_MAX)%Z with false by (symmetry; apply Z.eqb_neq; lia).
    rewrite IH.
    + f_equal; [cbn [length]; lia|].
      rewrite append_text_with_input, append_texts_with_input. reflexivity.
    + apply at_input_append_text. eapply at_input_with_input. exact Hin.
    + assumption.
    + lia.
    + lia.
Qed.

Lemma append_digits_eof ds w :
  at_input w ds -> all_digits ds -> (Z.of_nat (length ds) <= Lex.INT_MAX)%Z ->
  Lex.append_digits w = Ok (Z.of_nat (length ds)) (with_input (append_texts ds w) []).
Proof.
  intros Hin Hd Hn. unfold Lex.append_digits.
  rewrite (@append_digits_from_eof ds); auto.
  unfold Lex.lex_fuel. destruct Hin as [_ ->]. lia.
Qed.

(** C7. End of stream in a number.  [after_exp] dies with "no exponent
    digits" when the stream ends right after the [e]/[E], and when it ends
    after the sign that follows it.  [after_frac] ends the token normally,
    with the digits appended to the lexeme and nothing pushed back, when
    the stream ends after one or more digits of the fraction; so does
    [after_exp] when it ends after one or more digits of the exponent,
    with or without a sign before them.  (The digit count is within the
    [int] the source counts them in.) *)
Theorem number_end_of_stream (w : Lexer) (ds : bytes) :
  unread w = NUL ->
  all_digits ds -> ds <> [] -> (Z.of_nat (length ds) <= Lex.INT_MAX)%Z ->
  Lex.after_exp (with_input w []) = Die "no exponent digits" (with_input w [])
  /\ (forall sg, sg = "+"%char \/ sg = "-"%char ->
        Lex.after_exp (with_input w [sg])
        = Die "no exponent digits" (with_input (Lex.append_text sg w) []))
  /\ Lex.after_frac (with_input w ds) = Ok tt (with_input (append_texts ds w) [])
  /\ Lex.after_exp (with_input w ds) = Ok tt (with_input (append_texts ds w) [])
  /\ (forall sg, sg = "+"%char \/ sg = "-"%char ->
        Lex.after_exp (with_input w (sg :: ds))
        = Ok tt (with_input (append_texts (sg :: ds) w) []))
  /\ (exists l, Lex.next_token (lexer0 (B "1e")) = Die "no exponent digits" l)
  /\ (exists l, Lex.next_token (lexer0 (B "2.5E-")) = Die "no exponent digits" l)
  /\ (exists l, Lex.next_token (lexer0 (B "2.5")) = Ok (tok T_NUMBER (B "2.5")) l)
  /\ (exists l, Lex.next_token (lexer0 (B "2.5e10"))
                = Ok (tok T_NUMBER (B "2.5e10")) l).
Proof.
  intros Hu Hd Hne Hn.

  assert (forall i, at_input (with_input w i) i) as Hat.
  { intros i. split; [exact Hu|reflexivity]. }
  split; [|split; [|split; [|split; [|split]]]];
    [ | | | | |repeat split; eexists; vm_compute; reflexivity].
  - unfold Lex.after_exp. rewrite (read_char_eof (Hat [])). reflexivity.
  - intros sg Hsg. unfold Lex.after_exp. rewrite (read_char_input (Hat [sg])).
    rewrite with_input_twice.
    assert (Ascii.eqb sg NUL = false) as E1 by (destruct Hsg; subst; reflexivity).
    assert (Ascii.eqb sg "+"%char || Ascii.eqb sg "-"%char = true) as E2
      by (destruct Hsg; subst; reflexivity).
    rewrite E1, E2.
    rewrite (@append_digits_eof [] (Lex.append_text sg (with_input w [])));
      [|apply at_input_append_text; apply Hat|constructor|simpl; lia].
    reflexivity.
  - unfold Lex.after_frac. rewrite (@append_digits_eof ds); auto.
    cbn [bind].
    destruct ds as [|c ds']; [congruence|].
    replace (Z.of_nat (length (c :: ds')) <? 1)%Z with false
      by (symmetry; apply Z.ltb_ge; cbn [length]; lia).
    rewrite append_texts_with_input, with_input_twice.
    rewrite read_char_eof.
    + change (Ascii.eqb NUL NUL) with true. cbv iota. reflexivity.
    + eapply at_input_with_input. apply at_input_append_texts.
      apply (Hat (input w)).
  - unfold Lex.after_exp.
    destruct ds as [|c ds']; [congruence|].
    rewrite (read_char_input (Hat (c :: ds'))). rewrite with_input_twice.
    inversion Hd as [|c0 ds0 Hc Hds]; subst.
    rewrite (digit_not_nul _ Hc), Hc.
    assert (Ascii.eqb c "+"%char || Ascii.eqb c "-"%char = false) as E.
    { destruct (Ascii.eqb c "+"%char) eqn:E1;
        [apply Ascii.eqb_eq in E1; subst; discriminate|].
      destruct (Ascii.eqb c "-"%char) eqn:E2;
        [apply Ascii.eqb_eq in E2; subst; discriminate|]. reflexivity. }
    rewrite E.
    rewrite (@append_digits_eof ds' (Lex.append_text c (with_input w ds')));
      [|apply at_input_append_text; apply Hat|assumption|cbn [length] in Hn; lia].
    cbn [bind]. rewrite append_text_with_input, append_texts_with_input.
    reflexivity.
  - intros sg Hsg. unfold Lex.after_exp.
    rewrite (read_char_input (Hat (sg :: ds))). rewrite with_input_twice.
    assert (Ascii.eqb sg NUL = false) as E1 by (destruct Hsg; subst; reflexivity).
    assert (Ascii.eqb sg "+"%char || Ascii.eqb sg "-"%char = true) as E2
      by (destruct Hsg; subst; reflexivity).
    rewrite E1, E2.
    rewrite (@append_digits_eof ds (Lex.append_text sg (with_input w ds)));
      [|apply at_input_append_text; apply Hat|assumption|assumption].
    cbn [bind].
    destruct ds as [|c ds']; [congruence|].
    replace (Z.of_nat (length (c :: ds')) =? 0)%Z with false
      by (symmetry; apply Z.eqb_neq; cbn [length]; lia).
    rewrite append_text_with_input, append_texts_with_input. reflexivity.
Qed.

Lemma number_end_of_stream_witness :
  Lex.after_exp (lexer0 []) = Die "no exponent digits" (lexer0 [])
  /\ Lex.after_frac (lexer0 (B "25"))
     = Ok tt (with_input (append_texts (B "25") (lexer0 [])) []).
Proof.
  assert (all_digits (B "25")) as Hd by (repeat constructor).
  assert (B "25" <> []) as Hne by discriminate.
  assert (Z.of_nat (length (B "25")) <= Lex.INT_MAX)%Z as Hn by (vm_compute; discriminate).
  destruct (@number_end_of_stream (lexer0 []) (B "25") eq_refl Hd Hne Hn)
    as [H1 [_ [H3 _]]].
  split; [exact H1|exact H3].
Defined.

(** *** Strings *)

Lemma append_char_wf b c :
  buf_wf b ->
  buf_wf (append_char b c) /\ cstr (append_char b c) = cstr b ++ [c].
Proof.
  unfold buf_wf, append_char, ensure_bufcap. intros Hwf.
  destruct (cap b <? len b + 2); cbn [len cstr str].
  - rewrite Hwf, firstn_all. rewrite length_app. simpl. split; [lia|reflexivity].
  - rewrite Hwf, firstn_all. rewrite length_app. simpl. split; [lia|reflexivity].
Qed.

Lemma append_texts_text cs : forall l,
  buf_wf (ltext l) ->
  buf_wf (ltext (append_texts cs l))
  /\ cstr (ltext (append_texts cs l)) = cstr (ltext l) ++ cs.
Proof.
  induction cs as [|c cs IH]; intros l Hwf.
  - simpl. rewrite app_nil_r. auto.
  - cbn [append_texts fold_left].
    destruct (append_char_wf c Hwf) as [Hwf' Hc].
    destruct (IH (Lex.append_text c l) Hwf') as [H1 H2].
    split; [exact H1|].
    unfold append_texts in H2. rewrite H2.
    cbn [Lex.append_text Lex.with_ltext ltext]. rewrite Hc.
    rewrite <- app_assoc. reflexivity.
Qed.

Lemma not_control_not_nul c : Lex.is_control c = false -> Ascii.eqb c NUL = false.
Proof.
  intros H. destruct (Ascii.eqb c NUL) eqn:E; [|reflexivity].
  apply Ascii.eqb_eq in E. subst. discriminate.
Qed.

Lemma xdigit_read l h rest :
  at_input l (h :: rest) -> Lex.isxdigit h = true ->
  forall k, Lex.hex_digits (S k) l
            = Lex.hex_digits k (Lex.append_text h (with_input l rest)).
Proof.
  intros Hin Hh k. cbn [Lex.hex_digits].
  rewrite (read_char_input Hin), Hh. reflexivity.
Qed.

(** [after_quote] on a well-formed string body: every byte up to the
    closing quote goes to the lexeme, escapes included, and the stream is
    left after the quote. *)
Lemma after_quote_loop_body body :
  str_body body ->
  forall fuel l rest,
    at_input l (body ++ DQUOTE :: rest) -> length body < fuel ->
    Lex.after_quote_loop fuel l = Ok tt (with_input (append_texts body l) rest).
Proof.
  induction 1 as [|i s Hi Hs IH]; intros fuel l rest Hin Hf;
    (destruct fuel as [|f]; [simpl in Hf; lia|]); cbn [Lex.after_quote_loop];
    pose proof (proj1 Hin) as Hu.
  - cbn [app] in Hin. rewrite (read_char_input Hin).
    change (Ascii.eqb DQUOTE NUL) with false.
    change (Ascii.eqb DQUOTE DQUOTE) with true. cbv iota. reflexivity.
  - destruct Hi as [c Hq Hb Hc | x Hx | h1 h2 h3 h4 H1 H2 H3 H4].
    + cbn [app] in Hin. rewrite (read_char_input Hin).
      rewrite (not_control_not_nul _ Hc), Hq, Hb, Hc.
      rewrite (IH f _ rest).
      * rewrite append_text_with_input, append_texts_with_input. reflexivity.
      * split; [exact Hu|reflexivity].
      * cbn [app length] in Hf. lia.
    + cbn [app] in Hin. rewrite (read_char_input Hin).
      change (Ascii.eqb BACKSLASH NUL) with false.
      change (Ascii.eqb BACKSLASH DQUOTE) with false.
      change (Ascii.eqb BACKSLASH BACKSLASH) with true. cbv iota.
      unfold Lex.after_slash.
      rewrite (@read_char_input _ x (s ++ DQUOTE :: rest)), Hx;
        [|split; [exact Hu|reflexivity]].
      cbn [bind]. rewrite (IH f _ rest).
      * rewrite !append_text_with_input, !with_input_twice,
          append_texts_with_input. reflexivity.
      * split; [exact Hu|reflexivity].
      * cbn [app length] in Hf. lia.
    + cbn [app] in Hin. rewrite (read_char_input Hin).
      change (Ascii.eqb BACKSLASH NUL) with false.
      change (Ascii.eqb BACKSLASH DQUOTE) with false.
      change (Ascii.eqb BACKSLASH BACKSLASH) with true. cbv iota.
      unfold Lex.after_slash.
      rewrite (@read_char_input _ "u"%char (h1 :: h2 :: h3 :: h4 :: s ++ DQUOTE :: rest));
        [|split; [exact Hu|reflexivity]].
      change (memchr Lex.valid_escapes "u"%char) with false.
      change (Ascii.eqb "u"%char "u"%char) with true. cbv iota.
      rewrite (@xdigit_read _ h1 (h2 :: h3 :: h4 :: s ++ DQUOTE :: rest));
        [|split; [exact Hu|reflexivity]|exact H1].
      rewrite (@xdigit_read _ h2 (h3 :: h4 :: s ++ DQUOTE :: rest));
        [|split; [exact Hu|reflexivity]|exact H2].
      rewrite (@xdigit_read _ h3 (h4 :: s ++ DQUOTE :: rest));
        [|split; [exact Hu|reflexivity]|exact H3].
      rewrite (@xdigit_read _ h4 (s ++ DQUOTE :: rest));
        [|split; [exact Hu|reflexivity]|exact H4].
      cbn [Lex.hex_digits bind]. rewrite (IH f _ rest).
      * rewrite !append_text_with_input, !with_input_twice,
          append_texts_with_input. reflexivity.
      * split; [exact Hu|reflexivity].
      * cbn [app length] in Hf. lia.
Qed.

(** *** The one-token cache *)

Lemma read_char_peek l c l' : Lex.read_char l = (c, l') -> peek l' = peek l.
Proof.
  unfold Lex.read_char. destruct (negb (Ascii.eqb (unread l) NUL)).
  - intros H. inversion H. reflexivity.
  - destruct (input l); intros H; inversion H; reflexivity.
Qed.

(** Taking a result of the lexer apart, one step at a time. *)
Ltac lex_step H :=
  match type of H with
  | bind ?m ?k = Ok _ _ =>
      let a := fresh "a" in let l := fresh "l" in let E := fresh "E" in
      apply bind_Ok in H; destruct H as [a [l [E H]]]
  | (let '(_, _) := ?x in _) = Ok _ _ =>
      let c := fresh "c" in let l := fresh "l" in let E := fresh "Erc" in
      destruct x as [c l] eqn:E
  | (if ?b then _ else _) = Ok _ _ => destruct b
  | Ok _ _ = Ok _ _ => inversion H; subst; clear H
  | Die _ _ = Ok _ _ => discriminate H
  | Undef = Ok _ _ => discriminate H
  | OutOfFuel = Ok _ _ => discriminate H
  end.

Ltac peek_chain :=
  repeat match goal with
  | H : Lex.read_char _ = (_, _) |- _ => apply read_char_peek in H
  end;
  cbn [peek Lex.append_text Lex.unread_char Lex.with_ltext Lex.with_token
       Lex.set_type Lex.set_text Lex.punct] in *;
  try congruence.

Lemma append_digits_from_peek fuel : forall n l r l',
  Lex.append_digits_from fuel n l = Ok r l' -> peek l' = peek l.
Proof.
  induction fuel as [|f IH]; intros n l r l' H; [discriminate|].
  cbn [Lex.append_digits_from] in H. repeat lex_step H; peek_chain.
  apply IH in H. peek_chain.
Qed.

Lemma append_digits_peek l r l' :
  Lex.append_digits l = Ok r l' -> peek l' = peek l.
Proof. apply append_digits_from_peek. Qed.

Lemma after_exp_peek l r l' : Lex.after_exp l = Ok r l' -> peek l' = peek l.
Proof.
  unfold Lex.after_exp. intros H. repeat lex_step H;
    repeat match goal with
    | E : Lex.append_digits _ = Ok _ _ |- _ => apply append_digits_peek in E
    end; peek_chain.
Qed.

Lemma after_frac_peek l r l' : Lex.after_frac l = Ok r l' -> peek l' = peek l.
Proof.
  unfold Lex.after_frac. intros H. repeat lex_step H;
    repeat match goal with
    | E : Lex.append_digits _ = Ok _ _ |- _ => apply append_digits_peek in E
    | E : Lex.after_exp _ = Ok _ _ |- _ => apply after_exp_peek in E
    end; peek_chain.
Qed.

Lemma after_1to9_loop_peek fuel : forall l r l',
  Lex.after_1to9_loop fuel l = Ok r l' -> peek l' = peek l.
Proof.
  induction fuel as [|f IH]; intros l r l' H; [discriminate|].
  cbn [Lex.after_1to9_loop] in H. repeat lex_step H;
    repeat match goal with
    | E : Lex.after_frac _ = Ok _ _ |- _ => apply after_frac_peek in E
    | E : Lex.after_exp _ = Ok _ _ |- _ => apply after_exp_peek in E
    | E : Lex.after_1to9_loop f _ = Ok _ _ |- _ => apply IH in E
    end; peek_chain.
Qed.

Lemma after_0_peek l r l' : Lex.after_0 l = Ok r l' -> peek l' = peek l.
Proof.
  unfold Lex.after_0. intros H. repeat lex_step H;
    repeat match goal with
    | E : Lex.after_frac _ = Ok _ _ |- _ => apply after_frac_peek in E
    | E : Lex.after_exp _ = Ok _ _ |- _ => apply after_exp_peek in E
    end; peek_chain.
Qed.

Lemma after_minus_peek l r l' : Lex.after_minus l = Ok r l' -> peek l' = peek l.
Proof.
  unfold Lex.after_minus, Lex.after_1to9. intros H. repeat lex_step H;
    repeat match goal with
    | E : Lex.after_0 _ = Ok _ _ |- _ => apply after_0_peek in E
    | E : Lex.after_1to9_loop _ _ = Ok _ _ |- _ => apply after_1to9_loop_peek in E
    end; peek_chain.
Qed.

Lemma hex_digits_peek k : forall l r l',
  Lex.hex_digits k l = Ok r l' -> peek l' = peek l.
Proof.
  induction k as [|k IH]; intros l r l' H; cbn [Lex.hex_digits] in H.
  - inversion H. reflexivity.
  - repeat lex_step H. apply IH in H. peek_chain.
Qed.

Lemma after_slash_peek l r l' : Lex.after_slash l = Ok r l' -> peek l' = peek l.
Proof.
  unfold Lex.after_slash. intros H. repeat lex_step H;
    repeat match goal with
    | E : Lex.hex_digits _ _ = Ok _ _ |- _ => apply hex_digits_peek in E
    end; peek_chain.
Qed.

Lemma after_quote_loop_peek fuel : forall l r l',
  Lex.after_quote_loop fuel l = Ok r l' -> peek l' = peek l.
Proof.
  induction fuel as [|f IH]; intros l r l' H; [discriminate|].
  cbn [Lex.after_quote_loop] in H. repeat lex_step H;
    repeat match goal with
    | E : Lex.after_slash _ = Ok _ _ |- _ => apply after_slash_peek in E
    | E : Lex.after_quote_loop f _ = Ok _ _ |- _ => apply IH in E
    end; peek_chain.
Qed.

Lemma read_literal_from_peek v : forall l r l',
  Lex.read_literal_from v l = Ok r l' -> peek l' = peek l.
Proof.
  induction v as [|p v IH]; intros l r l' H; cbn [Lex.read_literal_from] in H.
  - inversion H. reflexivity.
  - repeat lex_step H. apply IH in H. peek_chain.
Qed.

Lemma read_literal_peek v k l r l' :
  Lex.read_literal v k l = Ok r l' -> peek l' = peek l.
Proof.
  unfold Lex.read_literal. intros H. repeat lex_step H.
  apply read_literal_from_peek in E. peek_chain.
Qed.

Lemma skip_ws_peek fuel : forall l r l',
  Lex.skip_ws fuel l = Ok r l' -> peek l' = peek l.
Proof.
  induction fuel as [|f IH]; intros l r l' H; [discriminate|].
  cbn [Lex.skip_ws] in H. repeat lex_step H; peek_chain.
  apply IH in H. peek_chain.
Qed.

Lemma read_token_peek l r l' : Lex.read_token l = Ok r l' -> peek l' = peek l.
Proof.
  unfold Lex.read_token, Lex.after_quote, Lex.after_1to9, Lex.punct. intros H.
  lex_step H. apply skip_ws_peek in E.
  repeat lex_step H;
    repeat match goal with
    | E : Lex.read_literal _ _ _ = Ok _ _ |- _ => apply read_literal_peek in E
    | E : Lex.after_quote_loop _ _ = Ok _ _ |- _ => apply after_quote_loop_peek in E
    | E : Lex.after_minus _ = Ok _ _ |- _ => apply after_minus_peek in E
    | E : Lex.after_0 _ = Ok _ _ |- _ => apply after_0_peek in E
    | E : Lex.after_1to9_loop _ _ = Ok _ _ |- _ => apply after_1to9_loop_peek in E
    end; peek_chain.
Qed.

(** After [next_token] nothing is cached and [lexer.token] is the token it
    returned. *)
Lemma next_token_post l t l' :
  Lex.next_token l = Ok t l' -> peek l' = false /\ token l' = t.
Proof.
  unfold Lex.next_token. destruct (peek l) eqn:Hp.
  - intros H. inversion H. split; reflexivity.
  - intros H. lex_step H. apply read_token_peek in E.
    destruct (text (token l0)); inversion H; subst; clear H; split; try reflexivity.
    + destruct (0 <? len (ltext (Lex.with_token l (mkToken (type (token l)) None))));
        cbn [peek Lex.with_ltext Lex.with_token] in E; congruence.
    + cbn [peek Lex.set_text Lex.with_token].
      destruct (0 <? len (ltext (Lex.with_token l (mkToken (type (token l)) None))));
        cbn [peek Lex.with_ltext Lex.with_token] in E; congruence.
Qed.

Lemma with_peek_true_false l : peek l = false -> Lex.with_peek (Lex.with_peek l true) false = l.
Proof. destruct l as [i u b t p]. simpl. intros ->. reflexivity. Qed.

(** [peek_token] returns the token [next_token] would, and the [next_token]
    that follows returns it again and leaves the state [next_token] alone
    would have left. *)
Lemma peek_then_next l t l' :
  Lex.next_token l = Ok t l' ->
  exists lp, Lex.peek_token l = Ok t lp /\ Lex.next_token lp = Ok t l'
             /\ Lex.peek_token lp = Ok t lp.
Proof.
  intros H. destruct (next_token_post _ H) as [Hp Ht].
  unfold Lex.peek_token. destruct (peek l) eqn:Hpl.
  - cbn [negb]. exists l. split; [|split].
    + unfold Lex.next_token in H. rewrite Hpl in H. inversion H. reflexivity.
    + exact H.
    + rewrite Hpl. cbn [negb]. unfold Lex.next_token in H. rewrite Hpl in H.
      inversion H. reflexivity.
  - cbn [negb]. rewrite H. cbn [bind]. exists (Lex.with_peek l' true).
    split; [reflexivity|]. split.
    + unfold Lex.next_token. cbn [peek Lex.with_peek token].
      rewrite with_peek_true_false by exact Hp. rewrite Ht. reflexivity.
    + cbn [peek Lex.with_peek negb token]. rewrite Ht. reflexivity.
Qed.

(** *** The fuel of the lexer's loops is enough *)

Lemma read_char_avail l c l' :
  Lex.read_char l = (c, l') ->
  avail l' <= avail l /\ (Ascii.eqb c NUL = false -> avail l' < avail l).
Proof.
  unfold Lex.read_char, avail. destruct (Ascii.eqb (unread l) NUL) eqn:Hu; cbn [negb].
  - destruct (input l) as [|c0 rest] eqn:Hi; intros H; inversion H; subst; clear H;
      cbn [unread input length]; rewrite ?Hu, ?Hi; cbn [length].
    + split; [lia|]. intros Hc. discriminate.
    + split; lia.
  - intros H. inversion H; subst; clear H. cbn [unread input].
    change (Ascii.eqb NUL NUL) with true. split; lia.
Qed.

Lemma bind_no_oof {S A C} (m : Res S A) (k : A -> S -> Res S C) :
  m <> OutOfFuel -> (forall a s, m = Ok a s -> k a s <> OutOfFuel) ->
  bind m k <> OutOfFuel.
Proof.
  intros Hm Hk. destruct m; cbn [bind]; try discriminate; [|congruence].
  apply Hk. reflexivity.
Qed.

Lemma append_digits_from_fuel fuel : forall n l,
  avail l < fuel -> Lex.append_digits_from fuel n l <> OutOfFuel.
Proof.
  induction fuel as [|f IH]; intros n l Hf; [lia|].
  cbn [Lex.append_digits_from].
  destruct (Lex.read_char l) as [c l1] eqn:E.
  destruct (read_char_avail _ E) as [_ Hlt].
  destruct (Ascii.eqb c NUL); [discriminate|]. specialize (Hlt eq_refl).
  destruct (Lex.is_digit c); [|discriminate].
  destruct (n =? Lex.INT_MAX)%Z; [discriminate|].
  apply IH. change (avail (Lex.append_text c l1)) with (avail l1). lia.
Qed.

Lemma lex_fuel_avail l : avail l < Lex.lex_fuel l.
Proof. unfold avail, Lex.lex_fuel. destruct (Ascii.eqb (unread l) NUL); lia. Qed.

Lemma append_digits_fuel l : Lex.append_digits l <> OutOfFuel.
Proof. apply append_digits_from_fuel, lex_fuel_avail. Qed.

Lemma after_exp_fuel l : Lex.after_exp l <> OutOfFuel.
Proof.
  unfold Lex.after_exp. destruct (Lex.read_char l) as [c l1].
  destruct (Ascii.eqb c NUL); [discriminate|].
  destruct (Ascii.eqb c "+"%char || Ascii.eqb c "-"%char).
  - apply bind_no_oof; [apply append_digits_fuel|].
    intros n s _. destruct (n =? 0)%Z; discriminate.
  - destruct (Lex.is_digit c); [|discriminate].
    apply bind_no_oof; [apply append_digits_fuel|]. intros; discriminate.
Qed.

Lemma after_frac_fuel l : Lex.after_frac l <> OutOfFuel.
Proof.
  unfold Lex.after_frac. apply bind_no_oof; [apply append_digits_fuel|].
  intros n s _. destruct (n <? 1)%Z; [discriminate|].
  destruct (Lex.read_char s) as [c l1].
  destruct (Ascii.eqb c NUL); [discriminate|].
  destruct (Lex.is_e c); [apply after_exp_fuel|discriminate].
Qed.

Lemma after_1to9_loop_fuel fuel : forall l,
  avail l < fuel -> Lex.after_1to9_loop fuel l <> OutOfFuel.
Proof.
  induction fuel as [|f IH]; intros l Hf; [lia|].
  cbn [Lex.after_1to9_loop].
  destruct (Lex.read_char l) as [c l1] eqn:E.
  destruct (read_char_avail _ E) as [_ Hlt].
  destruct (Ascii.eqb c NUL); [discriminate|]. specialize (Hlt eq_refl).
  destruct (Ascii.eqb c "."%char); [apply after_frac_fuel|].
  destruct (Lex.is_digit c).
  - apply IH. change (avail (Lex.append_text c l1)) with (avail l1). lia.
  - destruct (Lex.is_e c); [apply after_exp_fuel|discriminate].
Qed.

Lemma after_0_fuel l : Lex.after_0 l <> OutOfFuel.
Proof.
  unfold Lex.after_0. destruct (Lex.read_char l) as [c l1].
  destruct (Ascii.eqb c "."%char); [apply after_frac_fuel|].
  destruct (Lex.is_e c); [apply after_exp_fuel|].
  destruct (negb (Ascii.eqb c NUL)); discriminate.
Qed.

Lemma after_minus_fuel l : Lex.after_minus l <> OutOfFuel.
Proof.
  unfold Lex.after_minus. destruct (Lex.read_char l) as [c l1].
  destruct (Ascii.eqb c "0"%char); [apply after_0_fuel|].
  destruct (Lex.is_1to9 c); [|discriminate].
  apply after_1to9_loop_fuel, lex_fuel_avail.
Qed.

Lemma hex_digits_avail k : forall l a l',
  Lex.hex_digits k l = Ok a l' -> avail l' <= avail l.
Proof.
  induction k as [|k IH]; intros l a l' H; cbn [Lex.hex_digits] in H.
  - inversion H. lia.
  - destruct (Lex.read_char l) as [c l1] eqn:E.
    destruct (read_char_avail _ E) as [Hle _].
    destruct (Lex.isxdigit c); [|discriminate].
    apply IH in H. change (avail (Lex.append_text c l1)) with (avail l1) in H. lia.
Qed.

Lemma hex_digits_fuel k : forall l, Lex.hex_digits k l <> OutOfFuel.
Proof.
  induction k as [|k IH]; intros l; cbn [Lex.hex_digits]; [discriminate|].
  destruct (Lex.read_char l) as [c l1].
  destruct (Lex.isxdigit c); [apply IH|discriminate].
Qed.

Lemma after_slash_avail l a l' :
  Lex.after_slash l = Ok a l' -> avail l' <= avail l.
Proof.
  unfold Lex.after_slash. destruct (Lex.read_char l) as [c l1] eqn:E.
  destruct (read_char_avail _ E) as [Hle _].
  destruct (memchr Lex.valid_escapes c).
  - intros H. inversion H; subst.
    change (avail (Lex.append_text c l1)) with (avail l1). lia.
  - destruct (Ascii.eqb c "u"%char); [|discriminate].
    intros H. apply hex_digits_avail in H.
    change (avail (Lex.append_text "u"%char l1)) with (avail l1) in H. lia.
Qed.

Lemma after_slash_fuel l : Lex.after_slash l <> OutOfFuel.
Proof.
  unfold Lex.after_slash. destruct (Lex.read_char l) as [c l1].
  destruct (memchr Lex.valid_escapes c); [discriminate|].
  destruct (Ascii.eqb c "u"%char); [apply hex_digits_fuel|discriminate].
Qed.

Lemma after_quote_loop_fuel fuel : forall l,
  avail l < fuel -> Lex.after_quote_loop fuel l <> OutOfFuel.
Proof.
  induction fuel as [|f IH]; intros l Hf; [lia|].
  cbn [Lex.after_quote_loop].
  destruct (Lex.read_char l) as [c l1] eqn:E.
  destruct (read_char_avail _ E) as [_ Hlt].
  destruct (Ascii.eqb c NUL); [discriminate|]. specialize (Hlt eq_refl).
  destruct (Ascii.eqb c DQUOTE); [discriminate|].
  destruct (Ascii.eqb c BACKSLASH).
  - apply bind_no_oof; [apply after_slash_fuel|].
    intros a s Hs. apply after_slash_avail in Hs.
    change (avail (Lex.append_text BACKSLASH l1)) with (avail l1) in Hs.
    apply IH. lia.
  - destruct (Lex.is_control c); [discriminate|].
    apply IH. change (avail (Lex.append_text c l1)) with (avail l1). lia.
Qed.

Lemma read_literal_from_fuel v : forall l, Lex.read_literal_from v l <> OutOfFuel.
Proof.
  induction v as [|p v IH]; intros l; cbn [Lex.read_literal_from]; [discriminate|].
  destruct (Lex.read_char l) as [c l1].
  destruct (negb (Ascii.eqb c p)); [discriminate|apply IH].
Qed.

Lemma read_literal_fuel v k l : Lex.read_literal v k l <> OutOfFuel.
Proof.
  unfold Lex.read_literal. apply bind_no_oof; [apply read_literal_from_fuel|].
  intros; discriminate.
Qed.

Lemma skip_ws_fuel fuel : forall l,
  avail l < fuel -> Lex.skip_ws fuel l <> OutOfFuel.
Proof.
  induction fuel as [|f IH]; intros l Hf; [lia|].
  cbn [Lex.skip_ws].
  destruct (Lex.read_char l) as [c l1] eqn:E.
  destruct (read_char_avail _ E) as [_ Hlt].
  destruct (memchr Lex.ws c) eqn:Hws; [|discriminate].
  apply IH.
  assert (Ascii.eqb c NUL = false) as Hc.
  { destruct (Ascii.eqb c NUL) eqn:Ec; [|reflexivity].
    apply Ascii.eqb_eq in Ec. subst. discriminate. }
  specialize (Hlt Hc). lia.
Qed.

Lemma read_token_fuel l : Lex.read_token l <> OutOfFuel.
Proof.
  unfold Lex.read_token, Lex.punct, Lex.after_quote, Lex.after_1to9.
  apply bind_no_oof; [apply skip_ws_fuel, lex_fuel_avail|].
  intros c s _.
  repeat match goal with
  | |- (if ?b then _ else _) <> OutOfFuel => destruct b
  end;
  first [ discriminate | apply read_literal_fuel | apply after_minus_fuel
        | apply after_0_fuel | apply after_quote_loop_fuel, lex_fuel_avail
        | apply after_1to9_loop_fuel, lex_fuel_avail ].
Qed.

(** [next_token] and [peek_token] never run out of fuel. *)
Lemma next_token_fuel l :
  Lex.next_token l <> OutOfFuel /\ Lex.peek_token l <> OutOfFuel.
Proof.
  assert (Lex.next_token l <> OutOfFuel) as Hn.
  { unfold Lex.next_token. destruct (peek l); [discriminate|].
    apply bind_no_oof; [apply read_token_fuel|]. intros; discriminate. }
  split; [exact Hn|].
  unfold Lex.peek_token. destruct (negb (peek l)); [|discriminate].
  apply bind_no_oof; [exact Hn|]. intros; discriminate.
Qed.

(** ** The runtime *)

Lemma next_token_w w t l' :
  Lex.next_token (lexer w) = Ok t l' -> next_token w = Ok t (with_lexer w l').
Proof. unfold next_token, on_lexer. intros ->. reflexivity. Qed.

Lemma peek_token_w w t l' :
  Lex.peek_token (lexer w) = Ok t l' -> peek_token w = Ok t (with_lexer w l').
Proof. unfold peek_token, on_lexer. intros ->. reflexivity. Qed.

Lemma accept_w w ty t l' :
  Lex.next_token (lexer w) = Ok t l' -> type t = ty ->
  accept ty w = Ok tt (with_lexer w l').
Proof.
  intros H Hty. unfold accept. rewrite (next_token_w _ H). cbn [bind].
  rewrite Hty. destruct ty; reflexivity.
Qed.

Lemma yields_app a : forall l b l',
  yields l (a ++ b) l' <-> exists lm, yields l a lm /\ yields lm b l'.
Proof.
  induction a as [|t a IH]; intros l b l'; cbn [app].
  - split.
    + intros H. exists l. split; [constructor|exact H].
    + intros [lm [H1 H2]]. inversion H1; subst. exact H2.
  - split.
    + intros H. inversion H as [|l0 t0 l1 ts l2 Hn Hy]; subst.
      apply IH in Hy. destruct Hy as [lm [H1 H2]].
      exists lm. split; [econstructor; eauto|exact H2].
    + intros [lm [H1 H2]]. inversion H1 as [|l0 t0 l1 ts l2 Hn Hy]; subst.
      econstructor; [exact Hn|]. apply IH. eauto.
Qed.

Lemma yields_one l t l' : yields l [t] l' <-> Lex.next_token l = Ok t l'.
Proof.
  split.
  - intros H. inversion H as [|l0 t0 l1 ts l2 Hn Hy]; subst.
    inversion Hy; subst. exact Hn.
  - intros H. econstructor; [exact H|constructor].
Qed.

(** Looking at the first token of a stream does not change what the
    stream yields. *)
Lemma yields_peek l t ts l' :
  yields l (t :: ts) l' ->
  exists lp, Lex.peek_token l = Ok t lp /\ yields lp (t :: ts) l'.
Proof.
  intros H. inversion H as [|l0 t0 l1 ts0 l2 Hn Hy]; subst.
  destruct (peek_then_next _ Hn) as [lp [Hp [Hn' _]]].
  exists lp. split; [exact Hp|]. econstructor; eauto.
Qed.

Lemma doc_toks_first :
  (forall ts, value_toks ts -> exists t rest, ts = t :: rest /\ starts_value t)
  /\ (forall ts, elems_toks ts -> exists t rest, ts = t :: rest /\ starts_value t)
  /\ (forall ts, members_toks ts -> exists t rest, ts = t :: rest /\ type t = T_STRING).
Proof.
  apply doc_toks_ind; intros; unfold starts_value in *;
    try (eexists; eexists; split; [reflexivity|]; now auto).
  - assumption.
  - destruct H0 as [t [rest [-> Hs]]]. exists t, (rest ++ c :: es). auto.
Qed.

Lemma starts_value_not_end t :
  starts_value t ->
  TokenType_eqb (type t) T_ENDARRAY = false
  /\ TokenType_eqb (type t) T_ENDOBJECT = false.
Proof.
  unfold starts_value. destruct (type t); intros [H | [H | H]];
    try discriminate; split; reflexivity.
Qed.

Lemma with_lexer_twice w a b : with_lexer (with_lexer w a) b = with_lexer w b.
Proof. reflexivity. Qed.

(** [skip_value] on the tokens of one value, and the loops of [skip_array]
    and [skip_object] on the elements and members up to the closing token:
    each consumes exactly these tokens and touches nothing besides the
    lexer. *)
Lemma skip_consumes :
  (forall ts, value_toks ts ->
     forall fuel w l', yields (lexer w) ts l' -> 3 * length ts <= fuel ->
       skip_value fuel w = Ok tt (with_lexer w l'))
  /\ (forall es, elems_toks es ->
        forall fuel w e l', yields (lexer w) (es ++ [e]) l' ->
          type e = T_ENDARRAY -> 3 * length es + 1 <= fuel ->
          skip_array_loop fuel w = Ok tt (with_lexer w l'))
  /\ (forall ms, members_toks ms ->
        forall fuel w e l', yields (lexer w) (ms ++ [e]) l' ->
          type e = T_ENDOBJECT -> 3 * length ms + 1 <= fuel ->
          skip_object_loop fuel w = Ok tt (with_lexer w l')).
Proof.
  apply doc_toks_ind.
  - (* a literal *)
    intros t Hlit fuel w l' Hy Hf.
    destruct fuel as [|f]; [simpl in Hf; lia|]. cbn [skip_value].
    destruct (yields_peek Hy) as [lp [Hp Hy']].
    rewrite (peek_token_w _ Hp). cbn [bind].
    apply yields_one in Hy'.
    rewrite (@next_token_w (with_lexer w lp) t l') by exact Hy'.
    destruct (type t); try discriminate; reflexivity.
  - (* [] *)
    intros b e Hb He fuel w l' Hy Hf.
    destruct fuel as [|[|f]]; [simpl in Hf; lia|simpl in Hf; lia|].
    cbn [skip_value].
    destruct (yields_peek Hy) as [lp [Hp Hy']].
    rewrite (peek_token_w _ Hp). cbn [bind]. rewrite Hb. cbn [skip_array].
    inversion Hy' as [|l0 t0 l1 ts l2 Hn Hy1]; subst.
    rewrite (@accept_w (with_lexer w lp) T_BEGINARRAY b l1) by assumption.
    cbn [bind].
    destruct (yields_peek Hy1) as [lq [Hq Hy2]].
    rewrite (@peek_token_w (with_lexer (with_lexer w lp) l1) e lq) by exact Hq.
    cbn [bind]. rewrite He. cbn [TokenType_eqb].
    apply yields_one in Hy2.
    rewrite (@next_token_w (with_lexer (with_lexer (with_lexer w lp) l1) lq) e l')
      by exact Hy2.
    reflexivity.
  - (* a non-empty array *)
    intros b es e Hb Hes IH He fuel w l' Hy Hf.
    cbn [length] in Hf. rewrite length_app in Hf. cbn [length] in Hf.
    destruct fuel as [|[|f]]; [lia|lia|].
    cbn [skip_value].
    destruct (yields_peek Hy) as [lp [Hp Hy']].
    rewrite (peek_token_w _ Hp). cbn [bind]. rewrite Hb. cbn [skip_array].
    inversion Hy' as [|l0 t0 l1 ts l2 Hn Hy1]; subst.
    rewrite (@accept_w (with_lexer w lp) T_BEGINARRAY b l1) by assumption.
    cbn [bind].
    destruct (proj1 (proj2 doc_toks_first) es Hes) as [t [rest [-> Hst]]].
    cbn [app] in Hy1.
    destruct (yields_peek Hy1) as [lq [Hq Hy2]].
    rewrite (@peek_token_w (with_lexer (with_lexer w lp) l1) t lq) by exact Hq.
    cbn [bind]. rewrite (proj1 (starts_value_not_end Hst)).
    rewrite (IH f (with_lexer (with_lexer (with_lexer w lp) l1) lq) e l');
      [reflexivity|exact Hy2|exact He|cbn [length] in *; lia].
  - (* {} *)
    intros b e Hb He fuel w l' Hy Hf.
    destruct fuel as [|[|f]]; [simpl in Hf; lia|simpl in Hf; lia|].
    cbn [skip_value].
    destruct (yields_peek Hy) as [lp [Hp Hy']].
    rewrite (peek_token_w _ Hp). cbn [bind]. rewrite Hb. cbn [skip_object].
    inversion Hy' as [|l0 t0 l1 ts l2 Hn Hy1]; subst.
    rewrite (@accept_w (with_lexer w lp) T_BEGINOBJECT b l1) by assumption.
    cbn [bind].
    destruct (yields_peek Hy1) as [lq [Hq Hy2]].
    rewrite (@peek_token_w (with_lexer (with_lexer w lp) l1) e lq) by exact Hq.
    cbn [bind]. rewrite He. cbn [TokenType_eqb].
    apply yields_one in Hy2.
    rewrite (@next_token_w (with_lexer (with_lexer (with_lexer w lp) l1) lq) e l')
      by exact Hy2.
    reflexivity.
  - (* a non-empty object *)
    intros b ms e Hb Hms IH He fuel w l' Hy Hf.
    cbn [length] in Hf. rewrite length_app in Hf. cbn [length] in Hf.
    destruct fuel as [|[|f]]; [lia|lia|].
    cbn [skip_value].
    destruct (yields_peek Hy) as [lp [Hp Hy']].
    rewrite (peek_token_w _ Hp). cbn [bind]. rewrite Hb. cbn [skip_object].
    inversion Hy' as [|l0 t0 l1 ts l2 Hn Hy1]; subst.
    rewrite (@accept_w (with_lexer w lp) T_BEGINOBJECT b l1) by assumption.
    cbn [bind].
    destruct (proj2 (proj2 doc_toks_first) ms Hms) as [t [rest [-> Hst]]].
    cbn [app] in Hy1.
    destruct (yields_peek Hy1) as [lq [Hq Hy2]].
    rewrite (@peek_token_w (with_lexer (with_lexer w lp) l1) t lq) by exact Hq.
    cbn [bind]. rewrite Hst. cbn [TokenType_eqb].
    rewrite (IH f (with_lexer (with_lexer (with_lexer w lp) l1) lq) e l');
      [reflexivity|exact Hy2|exact He|cbn [length] in *; lia].
  - (* the last element *)
    intros v Hv IH fuel w e l' Hy He Hf.
    destruct fuel as [|f]; [lia|]. cbn [skip_array_loop].
    apply yields_app in Hy. destruct Hy as [lm [Hy1 Hy2]].
    rewrite (IH f w lm Hy1) by lia. cbn [bind].
    apply yields_one in Hy2.
    rewrite (@next_token_w (with_lexer w lm) e l') by exact Hy2.
    cbn [bind]. rewrite He. reflexivity.
  - (* an element and more *)
    intros v c es Hv IHv Hc Hes IHes fuel w e l' Hy He Hf.
    rewrite length_app in Hf. cbn [length] in Hf.
    destruct fuel as [|f]; [lia|]. cbn [skip_array_loop].
    rewrite <- app_assoc in Hy. cbn [app] in Hy.
    apply yields_app in Hy. destruct Hy as [lm [Hy1 Hy2]].
    rewrite (IHv f w lm Hy1) by lia. cbn [bind].
    inversion Hy2 as [|l0 t0 l1 ts l2 Hn Hy3]; subst.
    rewrite (@next_token_w (with_lexer w lm) c l1) by exact Hn.
    cbn [bind]. rewrite Hc. cbn [TokenType_eqb].
    rewrite (IHes f (with_lexer (with_lexer w lm) l1) e l');
      [reflexivity|exact Hy3|exact He|lia].
  - (* the last member *)
    intros k c v Hk Hc Hv IH fuel w e l' Hy He Hf.
    cbn [length] in Hf.
    destruct fuel as [|f]; [lia|]. cbn [skip_object_loop].
    cbn [app] in Hy.
    inversion Hy as [|l0 t0 l1 ts l2 Hn1 Hy1]; subst.
    inversion Hy1 as [|l0 t0 l3 ts l2 Hn2 Hy2]; subst.
    rewrite (@accept_w w T_STRING k l1) by assumption. cbn [bind].
    rewrite (@accept_w (with_lexer w l1) T_PAIRSEP c l3) by assumption.
    cbn [bind].
    apply yields_app in Hy2. destruct Hy2 as [lm [Hy3 Hy4]].
    rewrite (IH f (with_lexer (with_lexer w l1) l3) lm Hy3) by lia.
    cbn [bind]. apply yields_one in Hy4.
    rewrite (@next_token_w (with_lexer (with_lexer (with_lexer w l1) l3) lm) e l')
      by exact Hy4.
    cbn [bind]. rewrite He. reflexivity.
  - (* a member and more *)
    intros k c v s ms Hk Hc Hv IHv Hs Hms IHms fuel w e l' Hy He Hf.
    cbn [length] in Hf. rewrite length_app in Hf. cbn [length] in Hf.
    destruct fuel as [|f]; [lia|]. cbn [skip_object_loop].
    cbn [app] in Hy.
    inversion Hy as [|l0 t0 l1 ts l2 Hn1 Hy1]; subst.
    inversion Hy1 as [|l0 t0 l3 ts l2 Hn2 Hy2]; subst.
    rewrite (@accept_w w T_STRING k l1) by assumption. cbn [bind].
    rewrite (@accept_w (with_lexer w l1) T_PAIRSEP c l3) by assumption.
    cbn [bind].
    rewrite <- app_assoc in Hy2. cbn [app] in Hy2.
    apply yields_app in Hy2. destruct Hy2 as [lm [Hy3 Hy4]].
    rewrite (IHv f (with_lexer (with_lexer w l1) l3) lm Hy3) by lia.
    cbn [bind].
    inversion Hy4 as [|l0 t0 l5 ts l2 Hn3 Hy5]; subst.
    rewrite (@next_token_w (with_lexer (with_lexer (with_lexer w l1) l3) lm) s l5)
      by exact Hn3.
    cbn [bind]. rewrite Hs. cbn [TokenType_eqb].
    rewrite (IHms f (with_lexer (with_lexer (with_lexer (with_lexer w l1) l3) lm) l5) e l');
      [reflexivity|exact Hy5|exact He|lia].
Qed.

(** C4. A document that is one well-formed value, fed to a top operator of
    the other shape (an Array operator and a value that does not open an
    array, an Object operator and a value that does not open an object):
    [run_op] returns normally, the lexer is left exactly after the tokens
    of that value, and the tables and the output are what they were. *)
Theorem skip_on_mismatch (op : Op) (ts : list Token) (fuel : nat) (w : World)
    (l' : Lexer) :
  value_toks ts ->
  yields (lexer w) ts l' ->
  mismatch op ts ->
  3 * length ts + 2 <= fuel ->
  run_op fuel op w = Ok tt (with_lexer w l')
  /\ out (with_lexer w l') = out w
  /\ tables (with_lexer w l') = tables w.
Proof.
  intros Hv Hy Hm Hf. split; [|split; reflexivity].
  destruct (proj1 doc_toks_first ts Hv) as [t [rest [-> Hst]]].
  destruct (yields_peek Hy) as [lp [Hp Hy']].
  destruct fuel as [|[|f]]; [lia|lia|].
  assert (skip_value f (with_lexer w lp) = Ok tt (with_lexer w l')) as Hskip.
  { rewrite (proj1 skip_consumes (t :: rest) Hv f (with_lexer w lp) l');
      [reflexivity|exact Hy'|lia]. }
  destruct op as [table next isroot | table prop isroot | table column];
    cbn [mismatch] in Hm; [| |contradiction].
  - cbn [run_op run_array_op]. rewrite (peek_token_w _ Hp). cbn [bind].
    replace (TokenType_eqb (type t) T_BEGINARRAY) with false
      by (destruct (type t); try reflexivity; congruence).
    exact Hskip.
  - cbn [run_op run_object_op]. rewrite (peek_token_w _ Hp). cbn [bind].
    replace (TokenType_eqb (type t) T_BEGINOBJECT) with false
      by (destruct (type t); try reflexivity; congruence).
    exact Hskip.
Qed.

Lemma skip_on_mismatch_witness :
  let w := mkWorld (lexer0 (B "[1,2,3]")) [mkTable 1 [] [buf0]] [] [TAB] (B "{a") in
  exists l',
    run_op 23 (OpObject (Some 0) [(1, OpCollect 0 0)] true) w = Ok tt (with_lexer w l')
    /\ input l' = [] /\ unread l' = NUL /\ peek l' = false.
Proof.
  intros w. eexists. split.
  - refine (proj1 (@skip_on_mismatch
        (OpObject (Some 0) [(1, OpCollect 0 0)] true)
        [mkToken T_BEGINARRAY (Some (B "["));
         mkToken T_NUMBER (Some (B "1")); mkToken T_MEMBERSEP (Some (B ","));
         mkToken T_NUMBER (Some (B "2")); mkToken T_MEMBERSEP (Some (B ","));
         mkToken T_NUMBER (Some (B "3")); mkToken T_ENDARRAY (Some (B "]"))]
        23 w _ _ _ _ _)).
    + apply (@vt_array (mkToken T_BEGINARRAY (Some (B "[")))
               [mkToken T_NUMBER (Some (B "1")); mkToken T_MEMBERSEP (Some (B ","));
                mkToken T_NUMBER (Some (B "2")); mkToken T_MEMBERSEP (Some (B ","));
                mkToken T_NUMBER (Some (B "3"))]
               (mkToken T_ENDARRAY (Some (B "]")))); [reflexivity| |reflexivity].
      apply (@et_more [mkToken T_NUMBER (Some (B "1"))]); [now constructor|reflexivity|].
      apply (@et_more [mkToken T_NUMBER (Some (B "2"))]); [now constructor|reflexivity|].
      apply et_last. now constructor.
    + repeat (eapply yields_cons; [cbv; reflexivity|]). apply yields_nil.
    + cbn. discriminate.
    + cbn. lia.
  - cbn. auto.
Defined.

(** *** A stream with no value *)

Lemma skip_ws_all_ws i :
  all_ws i ->
  forall fuel l, at_input l i -> length i < fuel ->
    Lex.skip_ws fuel l = Ok NUL (with_input l []).
Proof.
  induction 1 as [|c i Hc Hi IH]; intros fuel l Hin Hf;
    (destruct fuel as [|f]; [simpl in Hf; lia|]); cbn [Lex.skip_ws].
  - rewrite (read_char_eof Hin). change (memchr Lex.ws NUL) with false.
    cbv iota. rewrite with_input_same; [reflexivity|apply Hin].
  - rewrite (read_char_input Hin), Hc.
    rewrite (IH f (with_input l i)).
    + reflexivity.
    + split; [apply Hin|reflexivity].
    + cbn [length] in Hf. lia.
Qed.

(** On a stream of white space only, [next_token] returns an [Eof] token. *)
Lemma next_token_eof l i :
  all_ws i -> at_input l i -> peek l = false ->
  exists t l', Lex.next_token l = Ok t l' /\ type t = T_EOF.
Proof.
  intros Hws Hin Hp. unfold Lex.next_token. rewrite Hp.
  set (l1 := Lex.with_token l (mkToken (type (token l)) None)).
  set (l2 := if 0 <? len (ltext l1)
             then Lex.with_ltext l1 (mkBuf 0 (cap (ltext l1)) (Some []))
             else l1).
  assert (at_input l2 i) as Hin2.
  { unfold l2. destruct (0 <? len (ltext l1)); exact Hin. }
  assert (text (token l2) = None) as Htx.
  { unfold l2. destruct (0 <? len (ltext l1)); reflexivity. }
  unfold Lex.read_token.
  rewrite (@skip_ws_all_ws i Hws (Lex.lex_fuel l2) l2 Hin2)
    by (unfold Lex.lex_fuel; rewrite (proj2 Hin2); lia).
  cbn [bind]. change (Ascii.eqb NUL NUL) with true. cbv iota.
  cbn [bind Lex.set_type Lex.with_token token text with_input].
  rewrite Htx. eexists. eexists. split; reflexivity.
Qed.

(** A top operator that finds [Eof] where a document should start dies in
    [skip_value]. *)
Lemma run_op_at_eof op w t l' fuel :
  is_collect op = false ->
  Lex.next_token (lexer w) = Ok t l' -> type t = T_EOF -> 3 <= fuel ->
  exists lp, run_op fuel op w = Die "unexpected token type" (with_lexer w lp).
Proof.
  intros Hop Hn Ht Hf.
  destruct (peek_then_next _ Hn) as [lp [Hp [_ Hpp]]].
  exists lp.
  destruct fuel as [|[|[|f]]]; [lia|lia|lia|].
  assert (skip_value (S f) (with_lexer w lp)
          = Die "unexpected token type" (with_lexer w lp)) as Hskip.
  { cbn [skip_value].
    rewrite (@peek_token_w (with_lexer w lp) t lp) by exact Hpp.
    cbn [bind]. rewrite Ht. reflexivity. }
  destruct op as [table next isroot | table prop isroot | table column];
    [| |discriminate].
  - cbn [run_op run_array_op]. rewrite (peek_token_w _ Hp). cbn [bind].
    rewrite Ht. cbn [TokenType_eqb]. exact Hskip.
  - cbn [run_op run_object_op]. rewrite (peek_token_w _ Hp). cbn [bind].
    rewrite Ht. cbn [TokenType_eqb negb]. exact Hskip.
Qed.

(** C10. For a pattern that compiles, standard input that holds white
    space only (or nothing) makes [main] die with "unexpected token type"
    before anything is written: the top operator runs once, before the
    test for [Eof], and its [skip_value] rejects the [Eof] token. *)
Theorem empty_input_is_fatal (fuel : nat) (fs pat stdin : bytes) (head : Op)
    (s : PState) :
  parse_pattern fuel pat = Ok (Some head) s ->
  4 <= fuel ->
  all_ws stdin ->
  main fuel fs pat stdin = ExitDie "unexpected token type" [].
Proof.
  intros Hparse Hf Hws. unfold main. rewrite Hparse.
  destruct (parse_pattern_has_root _ _ Hparse) as [head' Hroot].
  rewrite Hroot.
  pose proof (find_root_not_collect _ Hroot) as Hnc.
  destruct fuel as [|f]; [lia|]. cbn [run_stream].
  set (w := mkWorld (lexer0 stdin) (ptabs s) [] fs (pbuf s)).
  destruct (@next_token_eof (lexer0 stdin) stdin Hws) as [t [l' [Hn Ht]]];
    [split; reflexivity|reflexivity|].
  destruct (@run_op_at_eof head' w t l' f Hnc Hn Ht) as [lp Hrun]; [lia|].
  rewrite Hrun. reflexivity.
Qed.

Lemma empty_input_is_fatal_witness :
  main 20 [TAB] (B "[{id,vals[*]}]") [" "%char; LF]
  = ExitDie "unexpected token type" [].
Proof.
  refine (@empty_input_is_fatal 20 [TAB] (B "[{id,vals[*]}]") [" "%char; LF]
            (OpArray None
               (OpObject (Some 0)
                  [(5, OpArray (Some 1) (OpCollect 1 0) false); (2, OpCollect 0 0)]
                  false) false)
            (mkPState (B "[{id" ++ [NUL] ++ B "vals" ++ [NUL] ++ B "*]}]") 14
               [mkTable 1 [] [buf0]; mkTable 1 [] [buf0]]) _ _ _).
  - vm_compute. reflexivity.
  - lia.
  - repeat constructor.
Defined.

(** *** Single tokens *)

Lemma fresh_text_wf b : buf_wf b -> buf_wf (fresh_text b) /\ cstr (fresh_text b) = [].
Proof.
  unfold buf_wf, fresh_text. intros Hwf.
  destruct (0 <? len b) eqn:E; cbn [len cstr str].
  - split; reflexivity.
  - apply Nat.ltb_ge in E. split; [exact Hwf|].
    destruct (cstr b); [reflexivity|simpl in Hwf; lia].
Qed.

Lemma fresh_text_idem b : fresh_text (fresh_text b) = fresh_text b.
Proof.
  unfold fresh_text. destruct (0 <? len b) eqn:E; cbn [len]; [reflexivity|].
  rewrite E. reflexivity.
Qed.

Lemma next_token_begin_array i b t :
  Lex.next_token (lexer_at ("["%char :: i) b t)
  = Ok (tok T_BEGINARRAY (B "[")) (lexer_at i (fresh_text b) (tok T_BEGINARRAY (B "["))).
Proof.
  unfold Lex.next_token, fresh_text, lexer_at. cbn [peek token ltext Lex.with_token].
  destruct (0 <? len b); reflexivity.
Qed.

Lemma next_token_end_array i b t :
  Lex.next_token (lexer_at ("]"%char :: i) b t)
  = Ok (tok T_ENDARRAY (B "]")) (lexer_at i (fresh_text b) (tok T_ENDARRAY (B "]"))).
Proof.
  unfold Lex.next_token, fresh_text, lexer_at. cbn [peek token ltext Lex.with_token].
  destruct (0 <? len b); reflexivity.
Qed.

Lemma next_token_comma i b t :
  Lex.next_token (lexer_at (","%char :: i) b t)
  = Ok (tok T_MEMBERSEP (B ",")) (lexer_at i (fresh_text b) (tok T_MEMBERSEP (B ","))).
Proof.
  unfold Lex.next_token, fresh_text, lexer_at. cbn [peek token ltext Lex.with_token].
  destruct (0 <? len b); reflexivity.
Qed.

Lemma next_token_end_of_stream b t :
  buf_wf b ->
  Lex.next_token (lexer_at [] b t)
  = Ok (tok T_EOF []) (lexer_at [] (fresh_text b) (tok T_EOF [])).
Proof.
  intros Hwf. destruct (fresh_text_wf Hwf) as [_ Hc]. revert Hc.
  unfold Lex.next_token, fresh_text, lexer_at. cbn [peek token ltext Lex.with_token].
  destruct (0 <? len b); intros Hc.
  - reflexivity.
  - cbn. unfold Lex.set_text, tok. cbn. rewrite Hc. reflexivity.
Qed.

Lemma append_texts_frame cs : forall l,
  append_texts cs l
  = mkLexer (input l) (unread l) (ltext (append_texts cs l)) (token l) (peek l).
Proof.
  induction cs as [|c cs IH]; intros l.
  - destruct l; reflexivity.
  - cbn [append_texts fold_left]. fold (append_texts cs (Lex.append_text c l)).
    rewrite (IH (Lex.append_text c l)) at 1. reflexivity.
Qed.

(** The string token: its text is the bytes between the quotes. *)
Lemma next_token_string body i b t :
  str_body body -> buf_wf b ->
  exists b',
    Lex.next_token (lexer_at (DQUOTE :: body ++ DQUOTE :: i) b t)
    = Ok (tok T_STRING body) (lexer_at i b' (tok T_STRING body))
    /\ buf_wf b' /\ cstr b' = body.
Proof.
  intros Hbody Hwf.
  destruct (fresh_text_wf Hwf) as [Hwf0 Hc0].
  set (l3 := mkLexer (body ++ DQUOTE :: i) NUL (fresh_text b) (mkToken T_STRING None) false).
  assert (buf_wf (ltext l3)) as Hwf3 by exact Hwf0.
  destruct (@append_texts_text body l3 Hwf3) as [Hwf4 Hc4].
  exists (ltext (append_texts body l3)).
  split; [|split; [exact Hwf4|rewrite Hc4; cbn [l3 ltext]; rewrite Hc0; reflexivity]].
  assert (Lex.read_token
            (mkLexer (DQUOTE :: body ++ DQUOTE :: i) NUL (fresh_text b)
               (mkToken (type t) None) false)
          = Ok tt (with_input (append_texts body l3) i)) as Hread.
  { unfold Lex.read_token, Lex.lex_fuel. cbn [input length Lex.skip_ws].
    unfold Lex.read_char at 1. cbn [unread input].
    change (negb (Ascii.eqb NUL NUL)) with false. cbv iota.
    change (memchr Lex.ws DQUOTE) with false. cbv iota. cbn [bind].
    change (Ascii.eqb DQUOTE NUL) with false.
    change (Ascii.eqb DQUOTE "{"%char) with false.
    change (Ascii.eqb DQUOTE "}"%char) with false.
    change (Ascii.eqb DQUOTE ":"%char) with false.
    change (Ascii.eqb DQUOTE ","%char) with false.
    change (Ascii.eqb DQUOTE "["%char) with false.
    change (Ascii.eqb DQUOTE "]"%char) with false.
    change (Ascii.eqb DQUOTE "t"%char) with false.
    change (Ascii.eqb DQUOTE "f"%char) with false.
    change (Ascii.eqb DQUOTE "n"%char) with false.
    change (Ascii.eqb DQUOTE DQUOTE) with true. cbv iota.
    unfold Lex.after_quote.
    apply (@after_quote_loop_body body Hbody _ l3 i).
    - split; reflexivity.
    - unfold Lex.lex_fuel. cbn [input Lex.set_type Lex.with_token].
      rewrite length_app. lia. }
  unfold Lex.next_token, lexer_at. cbn [peek token ltext Lex.with_token input unread].
  match goal with
  | |- context [Lex.read_token ?x] =>
      replace x with (mkLexer (DQUOTE :: body ++ DQUOTE :: i) NUL (fresh_text b)
                        (mkToken (type t) None) false)
        by (unfold fresh_text; destruct (0 <? len b); reflexivity)
  end.
  rewrite Hread. cbn [bind].
  rewrite (append_texts_frame body l3).
  cbn [with_input token text l3 input unread peek ltext Lex.set_text Lex.with_token type].
  rewrite Hc4. cbn [l3 ltext]. rewrite Hc0. reflexivity.
Qed.

(** *** Collect *)

Lemma nth_error_list_set {A} (l : list A) : forall i v x,
  nth_error l i = Some x -> nth_error (list_set l i v) i = Some v.
Proof.
  induction l as [|h l IH]; intros [|i] v x H; try discriminate; cbn in *.
  - reflexivity.
  - eapply IH; eauto.
Qed.

Lemma length_list_set {A} (l : list A) : forall i v,
  length (list_set l i v) = length l.
Proof.
  induction l as [|h l IH]; intros [|i] v; cbn; auto.
Qed.

Lemma set_value_spec cell v :
  buf_wf cell ->
  cstr (set_value cell v) = v /\ len (set_value cell v) = length v
  /\ buf_wf (set_value cell v)
  /\ (v <> [] -> str (set_value cell v) = Some v).
Proof.
  unfold buf_wf, set_value. intros Hwf.
  destruct v as [|c v].
  - change (0 <? length (@nil ascii)) with false. cbv iota.
    destruct (0 <? len cell) eqn:E.
    + cbn [cstr str len length]. split; [|split; [|split]]; reflexivity.
    + apply Nat.ltb_ge in E.
      assert (cstr cell = []) as Hc
        by (destruct (cstr cell); [reflexivity|simpl in Hwf; lia]).
      rewrite Hc. cbn [length]. split; [|split; [|split]]; try reflexivity; try lia.
      intros H; congruence.
  - change (0 <? length (c :: v)) with true. cbv iota.
    cbn [cstr str len]. split; [|split; [|split]]; reflexivity.
Qed.

(** [run_collect_op] on a literal token: the token text is written to the
    cell and the token is consumed. *)
Lemma run_collect_literal fuel t col w tk l' v tb cell :
  Lex.next_token (lexer w) = Ok tk l' ->
  is_literal (type tk) = true -> text tk = Some v ->
  nth_error (tables w) t = Some tb -> nth_error (newrow tb) col = Some cell ->
  run_collect_op fuel t col w
  = Ok tt (mkWorld l'
             (list_set (tables w) t
                (mkTable (ncols tb) (rows tb)
                   (list_set (newrow tb) col (set_value cell v))))
             (out w) (fieldsep w) (pattern w)).
Proof.
  intros Hn Hlit Htx Ht Hc.
  destruct (peek_then_next _ Hn) as [lp [Hp [Hn' _]]].
  unfold run_collect_op. rewrite (peek_token_w _ Hp). cbn [bind].
  assert (do_add_value t col (text tk) (with_lexer w lp)
          = Ok tt (with_tables (with_lexer w lp)
                     (list_set (tables w) t
                        (mkTable (ncols tb) (rows tb)
                           (list_set (newrow tb) col (set_value cell v)))))) as Hadd.
  { unfold do_add_value. cbn [tables with_lexer]. rewrite Ht, Htx.
    unfold add_value. rewrite Hc. reflexivity. }
  destruct (type tk); try discriminate; cbn [is_literal negb];
    rewrite Hadd; cbn [bind];
    rewrite (@next_token_w _ tk l') by exact Hn'; reflexivity.
Qed.

(** Steps of a symbolic run: rewrite the next call in the goal with what
    the lexer is known to return. *)
Ltac peek_with H :=
  match goal with
  | |- context [peek_token ?w] => rewrite (@peek_token_w w _ _ H)
  end.

Ltac next_with H :=
  match goal with
  | |- context [next_token ?w] => rewrite (@next_token_w w _ _ H)
  end.

Ltac accept_with H :=
  match goal with
  | |- context [accept ?ty ?w] => rewrite (@accept_w w ty _ _ H eq_refl)
  end.

Lemma do_add_row_at w t tb :
  nth_error (tables w) t = Some tb ->
  do_add_row (Some t) w = Ok tt (with_tables w (list_set (tables w) t (add_row tb))).
Proof. unfold do_add_row. intros ->. reflexivity. Qed.

Ltac add_row_at :=
  match goal with
  | |- context [do_add_row (Some ?t) ?w] =>
      rewrite (@do_add_row_at w t _ eq_refl)
  end.

Lemma add_row_promote t :
  hasval t = true ->
  add_row t = mkTable (ncols t) (rows t ++ [newrow t]) (repeat buf0 (ncols t)).
Proof. unfold add_row. intros ->. reflexivity. Qed.

Lemma add_row_keep t : hasval t = false -> add_row t = t.
Proof. unfold add_row. intros ->. reflexivity. Qed.

(** The flush of one table that has one column and one completed row. *)
Lemma flush_one_row fs cell s nr o :
  str cell = Some s ->
  flush_tables fs [mkTable 1 [[cell]] nr] o = ([mkTable 1 [] nr], o ++ s ++ [LF]).
Proof.
  intros Hs. unfold flush_tables.
  change (count_rows [mkTable 1 [[cell]] nr]) with (true, 1%Z).
  cbn [negb length repeat map reset_table ncols newrow].
  change (Z.to_nat 1) with 1.
  cbn [emit_loop set_rowindex]. unfold emit_row, emit_tables, emit_cells.
  change (0 <? nrows (mkTable 1 [[cell]] nr))%Z with true. cbv iota.
  change (0 mod nrows (mkTable 1 [[cell]] nr))%Z with 0%Z.
  cbn [nth Z.to_nat rows ncols seq fold_left Nat.ltb Nat.leb orb].
  rewrite Hs. rewrite <- app_assoc. reflexivity.
Qed.

(** C6. A string whose body is made of plain bytes, two-byte escapes and
    six-byte [\u] escapes. (1) [next_token] returns a String token whose
    text is the bytes between the quotes, unchanged. (2) A Collect that
    meets it writes those bytes to its cell of the pending row and consumes
    the token, and writes nothing to the output. (3) For the pattern [[*]]
    and the document that is the array of that one string, not empty, the
    program writes those bytes and a newline. *)
Theorem string_lexeme_verbatim (body rest : bytes) :
  str_body body ->
  (forall b t, buf_wf b ->
     exists b',
       Lex.next_token (lexer_at (DQUOTE :: body ++ DQUOTE :: rest) b t)
       = Ok (tok T_STRING body) (lexer_at rest b' (tok T_STRING body)))
  /\ (forall fuel w b t table column tb cell,
        lexer w = lexer_at (DQUOTE :: body ++ DQUOTE :: rest) b t ->
        buf_wf b ->
        nth_error (tables w) table = Some tb ->
        nth_error (newrow tb) column = Some cell -> buf_wf cell ->
        exists w' tb' cell',
          run_collect_op fuel table column w = Ok tt w'
          /\ nth_error (tables w') table = Some tb'
          /\ nth_error (newrow tb') column = Some cell'
          /\ cstr cell' = body /\ len cell' = length body
          /\ input (lexer w') = rest /\ out w' = out w)
  /\ (body <> [] ->
      forall fuel fs, 5 <= fuel ->
        main fuel fs (B "[*]") (B "[" ++ DQUOTE :: body ++ DQUOTE :: B "]")
        = Exit0 (body ++ [LF])).
Proof.
  intros Hbody. split; [|split].
  - intros b t Hwf.
    destruct (@next_token_string body rest b t Hbody Hwf) as [b' [H _]].
    exists b'. exact H.
  - intros fuel w b t table column tb cell Hl Hwf Ht Hc Hcell.
    destruct (@next_token_string body rest b t Hbody Hwf) as [b' [Hn _]].
    rewrite <- Hl in Hn.
    rewrite (@run_collect_literal fuel table column w _ _ body tb cell Hn eq_refl eq_refl Ht Hc).
    destruct (set_value_spec body Hcell) as [H1 [H2 _]].
    eexists. eexists. eexists. split; [reflexivity|].
    cbn [tables lexer out input lexer_at].
    split; [eapply nth_error_list_set; exact Ht|].
    cbn [newrow].
    split; [eapply nth_error_list_set; exact Hc|].
    auto.
  - intros Hne fuel fs Hf.
    destruct fuel as [|[|[|[|[|f]]]]]; try lia.
    unfold main.
    change (parse_pattern (S (S (S (S (S f))))) (B "[*]"))
      with (Ok (S:=PState) (Some (OpArray (Some 0) (OpCollect 0 0) false))
              (mkPState (B "[*]") 3 [mkTable 1 [] [buf0]])).
    cbn [find_root is_collect ptabs pbuf].
    set (w0 := mkWorld (lexer0 (B "[" ++ DQUOTE :: body ++ DQUOTE :: B "]"))
                 [mkTable 1 [] [buf0]] [] fs (B "[*]")).
    (* the opening bracket *)
    pose proof (@next_token_begin_array (DQUOTE :: body ++ DQUOTE :: B "]") buf0
                  (mkToken T_BEGINOBJECT None)) as Hn1.
    destruct (peek_then_next _ Hn1) as [lp1 [Hp1 [Hn1' _]]].
    (* the string *)
    destruct (@next_token_string body (B "]") (fresh_text buf0)
                (tok T_BEGINARRAY (B "[")) Hbody) as [b2 [Hn2 [Hwf2 Hc2]]];
      [reflexivity|].
    destruct (peek_then_next _ Hn2) as [lp2 [Hp2 [Hn2' _]]].
    (* the closing bracket and the end of the stream *)
    pose proof (@next_token_end_array [] b2 (tok T_STRING body)) as Hn3.
    assert (buf_wf (fresh_text b2)) as Hwf3 by (apply fresh_text_wf; exact Hwf2).
    pose proof (@next_token_end_of_stream (fresh_text b2) (tok T_ENDARRAY (B "]")) Hwf3)
      as Hn4.
    destruct (peek_then_next _ Hn4) as [lp4 [Hp4 _]].
    destruct (set_value_spec body (cell := buf0) eq_refl) as [_ [Hlen [_ Hstr]]].
    specialize (Hstr Hne).
    assert ((0 <? len (set_value buf0 body)) = true) as Hpos.
    { apply Nat.ltb_lt. rewrite Hlen. destruct body; [congruence|simpl; lia]. }
    cbn [run_stream run_op run_array_op].
    peek_with Hp1. cbn [bind tok type TokenType_eqb].
    accept_with Hn1'. cbn [bind].
    peek_with Hp2. cbn [bind tok type TokenType_eqb].
    cbn [run_array_loop run_op].
    match goal with
    | |- context [run_collect_op ?k 0 0 ?w] =>
        rewrite (@run_collect_literal k 0 0 w _ _ body
                   (mkTable 1 [] [buf0]) buf0 Hn2' eq_refl eq_refl eq_refl eq_refl)
    end.
    set (cellv := set_value buf0 body) in *. clearbody cellv.
    cbn [bind]. add_row_at.
    rewrite add_row_promote
      by (unfold hasval; cbn [list_set ncols newrow rows firstn existsb];
          rewrite Hpos; reflexivity).
    cbn [bind with_tables tables lexer out fieldsep pattern with_lexer w0
         list_set ncols rows newrow app repeat].
    next_with Hn3. cbn [bind tok type TokenType_eqb negb].
    add_row_at. rewrite add_row_keep by reflexivity.
    cbn [bind with_tables tables lexer out fieldsep pattern with_lexer
         list_set do_flush].
    rewrite (@flush_one_row fs cellv body [buf0] [] Hstr).
    cbn [app bind]. peek_with Hp4.
    cbn [bind tok type TokenType_eqb negb out with_lexer]. reflexivity.
Qed.

Lemma string_lexeme_verbatim_witness :
  main 10 [TAB] (B "[*]")
    (B "[" ++ DQUOTE :: (B "a" ++ [BACKSLASH] ++ B "n" ++ [BACKSLASH] ++ B "u00e9")
       ++ DQUOTE :: B "]")
  = Exit0 ((B "a" ++ [BACKSLASH] ++ B "n" ++ [BACKSLASH] ++ B "u00e9") ++ [LF]).
Proof.
  assert (str_body (B "a" ++ [BACKSLASH] ++ B "n" ++ [BACKSLASH] ++ B "u00e9")) as Hb.
  { apply (@body_cons (B "a")); [apply item_char; reflexivity|].
    apply (@body_cons [BACKSLASH; "n"%char]); [apply item_escape; reflexivity|].
    apply (@body_cons (BACKSLASH :: B "u00e9") []);
      [apply item_unicode; reflexivity|apply body_nil]. }
  apply (proj2 (proj2 (@string_lexeme_verbatim _ [] Hb))).
  - discriminate.
  - lia.
Defined.

(** *** Empty strings *)

Lemma list_set_same {A} (l : list A) : forall i x,
  nth_error l i = Some x -> list_set l i x = l.
Proof.
  induction l as [|h l IH]; intros [|i] x H; try discriminate; cbn in *.
  - inversion H. reflexivity.
  - f_equal. apply IH. exact H.
Qed.

Lemma set_value_empty_unassigned cell : len cell = 0 -> set_value cell [] = cell.
Proof. unfold set_value. intros ->. reflexivity. Qed.

Lemma set_value_empty_len cell : len (set_value cell []) = 0.
Proof.
  unfold set_value. cbn [length]. change (0 <? 0) with false. cbv iota.
  destruct (0 <? len cell) eqn:E; [reflexivity|].
  apply Nat.ltb_ge in E. lia.
Qed.

Lemma add_value_empty_unassigned t col cell :
  nth_error (newrow t) col = Some cell -> len cell = 0 ->
  add_value t col [] = Some t.
Proof.
  intros Hc Hl. unfold add_value. rewrite Hc.
  rewrite (set_value_empty_unassigned _ Hl), (list_set_same _ _ Hc).
  destruct t; reflexivity.
Qed.

(** The element loop of the Array of [[*]] over empty strings: no row is
    completed. *)
Lemma run_array_loop_empty_strings n : forall fuel w b t,
  buf_wf b ->
  Lex.next_token (lexer w)
  = Lex.next_token (lexer_at (empty_strings n ++ B "]") b t) ->
  tables w = [mkTable 1 [] [buf0]] ->
  n + 2 <= fuel ->
  exists b',
    run_array_loop fuel (Some 0) (OpCollect 0 0) w
    = Ok tt (mkWorld (lexer_at [] b' (tok T_ENDARRAY (B "]")))
               [mkTable 1 [] [buf0]] (out w) (fieldsep w) (pattern w))
    /\ buf_wf b'.
Proof.
  induction n as [|n IH]; intros fuel w b t Hwf Hn Htabs Hf;
    (destruct fuel as [|[|f]]; [lia|lia|]); cbn [run_array_loop run_op].
  - destruct (@next_token_string [] (B "]") b t body_nil Hwf) as [b1 [Hs [Hwf1 _]]].
    cbn [app] in Hs. cbn [empty_strings app] in Hn. rewrite Hs in Hn.
    rewrite (@run_collect_literal f 0 0 w _ _ [] (mkTable 1 [] [buf0]) buf0
               Hn eq_refl eq_refl); [|rewrite Htabs; reflexivity|reflexivity].
    rewrite Htabs. cbn [bind list_set ncols rows newrow].
    change (set_value buf0 []) with buf0.
    add_row_at. rewrite add_row_keep by reflexivity.
    cbn [bind with_tables tables lexer out fieldsep pattern list_set].
    next_with (@next_token_end_array [] b1 (tok T_STRING [])).
    cbn [bind tok type TokenType_eqb negb with_lexer lexer tables out fieldsep pattern].
    exists (fresh_text b1). split; [reflexivity|apply fresh_text_wf; exact Hwf1].
  - destruct (@next_token_string [] (","%char :: empty_strings n ++ B "]") b t
                body_nil Hwf) as [b1 [Hs [Hwf1 _]]].
    cbn [app] in Hs. cbn [empty_strings app] in Hn. rewrite Hs in Hn.
    rewrite (@run_collect_literal f 0 0 w _ _ [] (mkTable 1 [] [buf0]) buf0
               Hn eq_refl eq_refl); [|rewrite Htabs; reflexivity|reflexivity].
    rewrite Htabs. cbn [bind list_set ncols rows newrow].
    change (set_value buf0 []) with buf0.
    add_row_at. rewrite add_row_keep by reflexivity.
    cbn [bind with_tables tables lexer out fieldsep pattern list_set].
    next_with (@next_token_comma (empty_strings n ++ B "]") b1 (tok T_STRING [])).
    cbn [bind tok type TokenType_eqb negb with_lexer lexer tables out fieldsep pattern].
    assert (buf_wf (fresh_text b1)) as Hwf2 by (apply fresh_text_wf; exact Hwf1).
    destruct (IH (S f)
                (mkWorld (lexer_at (empty_strings n ++ B "]") (fresh_text b1)
                            (tok T_MEMBERSEP (B ",")))
                   [mkTable 1 [] [buf0]] (out w) (fieldsep w) (pattern w))
                (fresh_text b1) (tok T_MEMBERSEP (B ",")) Hwf2 eq_refl eq_refl)
      as [b' [Hrun Hwf']]; [lia|].
    exists b'. split; [exact Hrun|exact Hwf'].
Qed.

(** C8. Writing the empty lexeme to a cell: a cell that was never assigned
    (or is empty) is left exactly as it was, by [set_value] and by
    [add_value]; any cell is empty afterwards. And for the pattern [[*]],
    an array of one or more empty strings makes the program write
    nothing: it ends normally with an empty output. *)
Theorem empty_string_is_no_value :
  (forall cell, len cell = 0 -> set_value cell [] = cell)
  /\ (forall cell, len (set_value cell []) = 0)
  /\ (forall t col cell,
        nth_error (newrow t) col = Some cell -> len cell = 0 ->
        add_value t col [] = Some t)
  /\ (forall n fuel fs,
        n + 5 <= fuel ->
        main fuel fs (B "[*]") (empty_strings_array n) = Exit0 []).
Proof.
  split; [exact set_value_empty_unassigned|].
  split; [exact set_value_empty_len|].
  split; [exact add_value_empty_unassigned|].
  intros n fuel fs Hf.
  destruct fuel as [|[|[|f]]]; try lia.
  unfold main.
  change (parse_pattern (S (S (S f))) (B "[*]"))
    with (Ok (S:=PState) (Some (OpArray (Some 0) (OpCollect 0 0) false))
            (mkPState (B "[*]") 3 [mkTable 1 [] [buf0]])).
  cbn [find_root is_collect ptabs pbuf].
  set (w0 := mkWorld (lexer0 (empty_strings_array n)) [mkTable 1 [] [buf0]] [] fs (B "[*]")).
  pose proof (@next_token_begin_array (empty_strings n ++ B "]") buf0
                (mkToken T_BEGINOBJECT None)) as Hn1.
  destruct (peek_then_next _ Hn1) as [lp1 [Hp1 [Hn1' _]]].
  assert (exists rest,
            Lex.next_token (lexer_at (empty_strings n ++ B "]") (fresh_text buf0)
                              (tok T_BEGINARRAY (B "[")))
            = Ok (tok T_STRING [])
                (lexer_at rest (ltext (lexer_at rest buf0 (tok T_STRING [])))
                   (tok T_STRING []))) as [rest Hn2].
  { destruct n; eexists; reflexivity. }
  destruct (peek_then_next _ Hn2) as [lp2 [Hp2 [Hn2' _]]].
  cbn [run_stream run_op run_array_op].
  peek_with Hp1. cbn [bind tok type TokenType_eqb].
  accept_with Hn1'. cbn [bind].
  peek_with Hp2. cbn [bind tok type TokenType_eqb].
  match goal with
  | |- context [run_array_loop f (Some 0) (OpCollect 0 0) ?w] =>
      destruct (@run_array_loop_empty_strings n f w
                  (fresh_text buf0) (tok T_BEGINARRAY (B "[")))
        as [b' [Hloop Hwf']];
        [reflexivity
        |cbn [lexer with_lexer]; rewrite Hn2'; symmetry; exact Hn2
        |reflexivity
        |lia
        |rewrite Hloop]
  end.
  pose proof (@next_token_end_of_stream b' (tok T_ENDARRAY (B "]")) Hwf') as Hn4.
  destruct (peek_then_next _ Hn4) as [lp4 [Hp4 _]].
  cbn [bind out fieldsep pattern with_lexer w0].
  add_row_at. rewrite add_row_keep by reflexivity.
  cbn [bind with_tables tables lexer out fieldsep pattern list_set do_flush].
  change (flush_tables fs [mkTable 1 [] [buf0]] [])
    with ([mkTable 1 [] [buf0]], @nil ascii).
  cbn [bind]. peek_with Hp4.
  cbn [bind tok type TokenType_eqb negb out with_lexer]. reflexivity.
Qed.

Lemma empty_string_is_no_value_witness :
  add_value (mkTable 1 [] [buf0]) 0 [] = Some (mkTable 1 [] [buf0])
  /\ main 7 [TAB] (B "[*]") (empty_strings_array 2) = Exit0 [].
Proof.
  destruct empty_string_is_no_value as [_ [_ [H3 H4]]].
  split.
  - apply (H3 (mkTable 1 [] [buf0]) 0 buf0); reflexivity.
  - apply H4. lia.
Defined.

(** ** More fuel changes no result *)

Lemma le_res_refl {S A} (r : Res S A) : le_res r r.
Proof. right. reflexivity. Qed.

Lemma bind_le {S A C} (m m' : Res S A) (k k' : A -> S -> Res S C) :
  le_res m m' -> (forall a s, le_res (k a s) (k' a s)) ->
  le_res (bind m k) (bind m' k').
Proof.
  intros [-> | ->] Hk; [left; reflexivity|].
  destruct m'; cbn [bind]; try apply le_res_refl. apply Hk.
Qed.

Ltac mono_step :=
  first
    [ apply le_res_refl
    | apply bind_le; [|intros ? ?]
    | match goal with
      | |- le_res (match ?x with _ => _ end) (match ?x with _ => _ end) =>
          destruct x
      end ].

Lemma quoted_loop_mono n : forall m esc s,
  n <= m -> le_res (quoted_loop n esc s) (quoted_loop m esc s).
Proof.
  induction n as [|n IH]; intros m esc s Hle; [left; reflexivity|].
  destruct m as [|m]; [lia|]. cbn [quoted_loop].
  repeat mono_step; apply IH; lia.
Qed.

Lemma parse_property_mono n m s :
  n <= m -> le_res (parse_property n s) (parse_property m s).
Proof.
  intros Hle. unfold parse_property.
  destruct (Ascii.eqb (cur s) DQUOTE).
  - apply bind_le; [apply quoted_loop_mono; exact Hle|intros; apply le_res_refl].
  - apply le_res_refl.
Qed.

Lemma parse_mono n : forall m, n <= m ->
  (forall s, le_res (parse_array n s) (parse_array m s))
  /\ (forall s, le_res (parse_object n s) (parse_object m s))
  /\ (forall table prop s,
        le_res (parse_props n table prop s) (parse_props m table prop s)).
Proof.
  induction n as [|n IH]; intros m Hle.
  - repeat split; intros; left; reflexivity.
  - destruct m as [|m]; [lia|].
    destruct (IH m ltac:(lia)) as [IHa [IHo IHp]].
    split; [|split].
    + intros s. cbn [parse_array].
      repeat mono_step; first [apply IHa | apply IHo].
    + intros s. cbn [parse_object]. repeat mono_step. apply IHp.
    + intros table prop s. cbn [parse_props].
      apply bind_le; [apply parse_property_mono; lia|intros name s1].
      repeat mono_step; first [apply IHa | apply IHo | apply IHp].
Qed.

Lemma parse_pattern_mono n m pat :
  n <= m -> le_res (parse_pattern n pat) (parse_pattern m pat).
Proof.
  intros Hle. destruct (parse_mono Hle) as [Ha [Ho _]].
  unfold parse_pattern. repeat mono_step; first [apply Ha | apply Ho].
Qed.

Lemma skip_mono n : forall m, n <= m ->
  (forall w, le_res (skip_value n w) (skip_value m w))
  /\ (forall w, le_res (skip_array n w) (skip_array m w))
  /\ (forall w, le_res (skip_array_loop n w) (skip_array_loop m w))
  /\ (forall w, le_res (skip_object n w) (skip_object m w))
  /\ (forall w, le_res (skip_object_loop n w) (skip_object_loop m w)).
Proof.
  induction n as [|n IH]; intros m Hle.
  - repeat split; intros; left; reflexivity.
  - destruct m as [|m]; [lia|].
    destruct (IH m ltac:(lia)) as [IH1 [IH2 [IH3 [IH4 IH5]]]].
    repeat split; intros w;
      cbn [skip_value skip_array skip_array_loop skip_object skip_object_loop];
      repeat mono_step;
      first [apply IH1 | apply IH2 | apply IH3 | apply IH4 | apply IH5].
Qed.

Lemma run_collect_op_mono n m t c w :
  n <= m -> le_res (run_collect_op n t c w) (run_collect_op m t c w).
Proof.
  intros Hle. destruct (skip_mono Hle) as [_ [H2 [_ [H4 _]]]].
  unfold run_collect_op. repeat mono_step; first [apply H2 | apply H4].
Qed.

Lemma run_mono n : forall m, n <= m ->
  (forall op w, le_res (run_op n op w) (run_op m op w))
  /\ (forall t nx r w, le_res (run_array_op n t nx r w) (run_array_op m t nx r w))
  /\ (forall t nx w, le_res (run_array_loop n t nx w) (run_array_loop m t nx w))
  /\ (forall t p r w, le_res (run_object_op n t p r w) (run_object_op m t p r w))
  /\ (forall p tk w, le_res (run_object_loop n p tk w) (run_object_loop m p tk w)).
Proof.
  induction n as [|n IH]; intros m Hle.
  - repeat split; intros; left; reflexivity.
  - destruct m as [|m]; [lia|].
    destruct (IH m ltac:(lia)) as [IH1 [IH2 [IH3 [IH4 IH5]]]].
    assert (n <= m) as Hnm by lia.
    destruct (skip_mono Hnm) as [Hs [Hsa [_ [Hso _]]]].
    pose proof (fun t c w => @run_collect_op_mono n m t c w Hnm) as Hc.
    repeat split; intros;
      cbn [run_op run_array_op run_array_loop run_object_op run_object_loop];
      repeat mono_step;
      first [apply IH1 | apply IH2 | apply IH3 | apply IH4 | apply IH5
            | apply Hs | apply Hc | apply Hsa | apply Hso].
Qed.

Lemma run_stream_mono n : forall m head w,
  n <= m -> le_res (run_stream n head w) (run_stream m head w).
Proof.
  induction n as [|n IH]; intros m head w Hle; [left; reflexivity|].
  destruct m as [|m]; [lia|]. cbn [run_stream].
  apply bind_le; [apply run_mono; lia|intros ? ?].
  repeat mono_step. apply IH. lia.
Qed.

(** What [main] answers with some fuel, short of [Timeout], it answers
    with any larger fuel. *)
Lemma main_mono n m fs pat stdin r :
  main n fs pat stdin = r -> r <> Timeout -> n <= m ->
  main m fs pat stdin = r.
Proof.
  intros Hmain Hr Hle. subst r. unfold main in *.
  destruct (parse_pattern_mono pat Hle) as [E | E].
  - rewrite E in Hr. congruence.
  - rewrite <- E.
    destruct (parse_pattern n pat) as [[head|] s | msg s | |]; try reflexivity.
    destruct (find_root head) as [head' | |]; try reflexivity.
    destruct (run_stream_mono head' (mkWorld (lexer0 stdin) (ptabs s) [] fs (pbuf s)) Hle)
      as [E' | E'].
    + rewrite E' in Hr. congruence.
    + rewrite <- E'. reflexivity.
Qed.

(** ** The tables stay well formed *)

Lemma Forall_list_set {A} (P : A -> Prop) (l : list A) : forall i v,
  Forall P l -> P v -> Forall P (list_set l i v).
Proof.
  induction l as [|h l IH]; intros [|i] v Hl Hv; cbn [list_set];
    inversion Hl; subst; constructor; auto.
Qed.

Lemma nth_error_Forall {A} (P : A -> Prop) (l : list A) i x :
  Forall P l -> nth_error l i = Some x -> P x.
Proof.
  intros Hl Hn. rewrite Forall_forall in Hl. apply Hl.
  eapply nth_error_In; eauto.
Qed.

Lemma add_value_wf t c v t' :
  add_value t c v = Some t' -> table_wf t -> table_wf t'.
Proof.
  unfold add_value, table_wf. destruct (nth_error (newrow t) c); [|discriminate].
  intros H [H1 H2]. inversion H; subst; clear H. cbn [newrow ncols rows].
  rewrite length_list_set. auto.
Qed.

Lemma add_row_wf t : table_wf t -> table_wf (add_row t).
Proof.
  unfold table_wf, add_row. intros [H1 H2].
  destruct (hasval t) eqn:Hv; cbn [newrow ncols rows]; [|auto].
  split; [apply repeat_length|].
  apply Forall_app. split; [exact H2|].
  constructor; [|constructor]. split; [exact H1|].
  apply hasval_true_iff; assumption.
Qed.

Lemma reset_table_wf t : table_wf t -> table_wf (reset_table t).
Proof. unfold table_wf. intros [H1 _]. split; [exact H1|constructor]. Qed.

Lemma flush_tables_wf fs tabs o :
  Forall table_wf tabs -> Forall table_wf (fst (flush_tables fs tabs o)).
Proof.
  intros H. unfold flush_tables. destruct (count_rows tabs) as [hasrows n].
  destruct (negb hasrows); cbn [fst]; [exact H|].
  induction H; cbn [map]; constructor; auto using reset_table_wf.
Qed.

Lemma on_lexer_tables {A} (f : Lexer -> Res Lexer A) w a w' :
  on_lexer f w = Ok a w' -> tables_wf w -> tables_wf w'.
Proof.
  unfold on_lexer. destruct (f (lexer w)); intros H; inversion H; subst.
  intros Hw. exact Hw.
Qed.

Lemma next_token_tables w a w' : next_token w = Ok a w' -> tables_wf w -> tables_wf w'.
Proof. apply on_lexer_tables. Qed.

Lemma peek_token_tables w a w' : peek_token w = Ok a w' -> tables_wf w -> tables_wf w'.
Proof. apply on_lexer_tables. Qed.

(** Taking a result of the runtime apart, one step at a time. *)
Ltac run_step H :=
  match type of H with
  | bind ?m ?k = Ok _ _ =>
      let a := fresh "a" in let s := fresh "w" in let E := fresh "E" in
      apply bind_Ok in H; destruct H as [a [s [E H]]]
  | (if ?b then _ else _) = Ok _ _ => destruct b
  | (match ?x with _ => _ end) = Ok _ _ => destruct x eqn:?
  | Ok _ _ = Ok _ _ => inversion H; subst; clear H
  | Die _ _ = Ok _ _ => discriminate H
  | Undef = Ok _ _ => discriminate H
  | OutOfFuel = Ok _ _ => discriminate H
  end.

Lemma accept_tables ty w a w' : accept ty w = Ok a w' -> tables_wf w -> tables_wf w'.
Proof.
  unfold accept. intros H. repeat run_step H. eauto using next_token_tables.
Qed.

Lemma do_add_value_tables t c v w a w' :
  do_add_value t c v w = Ok a w' -> tables_wf w -> tables_wf w'.
Proof.
  unfold do_add_value, tables_wf. intros H Hw.
  destruct (nth_error (tables w) t) as [tb|] eqn:Et; [|discriminate].
  destruct v as [v|]; [|discriminate].
  destruct (add_value tb c v) as [tb'|] eqn:Ea; [|discriminate].
  inversion H; subst; clear H. cbn [tables with_tables].
  apply Forall_list_set; [exact Hw|].
  eapply add_value_wf; [exact Ea|]. eapply nth_error_Forall; eauto.
Qed.

Lemma do_add_row_tables t w a w' :
  do_add_row t w = Ok a w' -> tables_wf w -> tables_wf w'.
Proof.
  unfold do_add_row, tables_wf. intros H Hw.
  destruct t as [t|]; [|inversion H; subst; exact Hw].
  destruct (nth_error (tables w) t) as [tb|] eqn:Et; [|discriminate].
  inversion H; subst; clear H. cbn [tables with_tables].
  apply Forall_list_set; [exact Hw|].
  apply add_row_wf. eapply nth_error_Forall; eauto.
Qed.

Lemma do_flush_tables r w a w' :
  do_flush r w = Ok a w' -> tables_wf w -> tables_wf w'.
Proof.
  unfold do_flush, tables_wf. intros H Hw.
  destruct r; [|inversion H; subst; exact Hw].
  pose proof (flush_tables_wf (fieldsep w) (out w) Hw) as Hf.
  destruct (flush_tables (fieldsep w) (tables w) (out w)) as [tabs o].
  inversion H; subst; clear H. exact Hf.
Qed.

Ltac tables_chain :=
  eauto 12 using next_token_tables, peek_token_tables, accept_tables,
    do_add_value_tables, do_add_row_tables, do_flush_tables.

Lemma skip_tables fuel :
  (forall w a w', skip_value fuel w = Ok a w' -> tables_wf w -> tables_wf w')
  /\ (forall w a w', skip_array fuel w = Ok a w' -> tables_wf w -> tables_wf w')
  /\ (forall w a w', skip_array_loop fuel w = Ok a w' -> tables_wf w -> tables_wf w')
  /\ (forall w a w', skip_object fuel w = Ok a w' -> tables_wf w -> tables_wf w')
  /\ (forall w a w', skip_object_loop fuel w = Ok a w' -> tables_wf w -> tables_wf w').
Proof.
  induction fuel as [|f [IH1 [IH2 [IH3 [IH4 IH5]]]]].
  - repeat split; intros; discriminate.
  - repeat split; intros w a w' H Hw;
      cbn [skip_value skip_array skip_array_loop skip_object skip_object_loop] in H;
      repeat run_step H; tables_chain.
Qed.

Lemma run_collect_op_tables fuel t c w a w' :
  run_collect_op fuel t c w = Ok a w' -> tables_wf w -> tables_wf w'.
Proof.
  destruct (skip_tables fuel) as [_ [H2 [_ [H4 _]]]].
  unfold run_collect_op. intros H Hw. repeat run_step H; tables_chain.
Qed.

Lemma run_tables fuel :
  (forall op w a w', run_op fuel op w = Ok a w' -> tables_wf w -> tables_wf w')
  /\ (forall t nx r w a w',
        run_array_op fuel t nx r w = Ok a w' -> tables_wf w -> tables_wf w')
  /\ (forall t nx w a w',
        run_array_loop fuel t nx w = Ok a w' -> tables_wf w -> tables_wf w')
  /\ (forall t p r w a w',
        run_object_op fuel t p r w = Ok a w' -> tables_wf w -> tables_wf w')
  /\ (forall p tk w a w',
        run_object_loop fuel p tk w = Ok a w' -> tables_wf w -> tables_wf w').
Proof.
  induction fuel as [|f [IH1 [IH2 [IH3 [IH4 IH5]]]]].
  - repeat split; intros; discriminate.
  - destruct (skip_tables f) as [Hs _].
    pose proof (@run_collect_op_tables f) as Hc.
    repeat split; intros until w'; intros H Hw;
      cbn [run_op run_array_op run_array_loop run_object_op run_object_loop] in H;
      repeat run_step H;
      repeat match goal with
      | E : (match ?x with _ => _ end) = Ok _ _ |- _ => destruct x
      end;
      tables_chain.
Qed.

(** Every run over a stream keeps the tables well formed. *)
Lemma run_stream_tables fuel : forall head w a w',
  run_stream fuel head w = Ok a w' -> tables_wf w -> tables_wf w'.
Proof.
  induction fuel as [|f IH]; intros head w a w' H Hw; [discriminate|].
  destruct (run_tables f) as [Hr _].
  cbn [run_stream] in H. repeat run_step H; tables_chain.
Qed.

(** The compiler creates tables and columns and no row. *)
Lemma new_table_no_rows s t s1 :
  new_table s = (t, s1) -> no_rows (ptabs s) -> no_rows (ptabs s1).
Proof.
  unfold new_table, no_rows. intros H Hs. inversion H; subst. cbn [ptabs].
  apply Forall_app. split; [exact Hs|]. constructor; [reflexivity|constructor].
Qed.

Lemma collect_into_no_rows t s op s' :
  collect_into t s = Ok op s' -> no_rows (ptabs s) -> no_rows (ptabs s').
Proof.
  unfold collect_into, new_collect_op, no_rows.
  destruct (nth_error (ptabs s) t) as [tb|] eqn:E; [|discriminate].
  intros H Hs. inversion H; subst; clear H. cbn [ptabs].
  apply Forall_list_set; [exact Hs|]. cbn [rows].
  eapply (@nth_error_Forall _ (fun t => rows t = [])); eauto.
Qed.

Lemma quoted_loop_ptabs fuel : forall esc s a s',
  quoted_loop fuel esc s = Ok a s' -> ptabs s' = ptabs s.
Proof.
  induction fuel as [|f IH]; intros esc s a s' H; [discriminate|].
  cbn [quoted_loop] in H.
  repeat run_step H; try reflexivity; apply IH in H; exact H.
Qed.

Lemma parse_property_no_rows fuel s a s' :
  parse_property fuel s = Ok a s' -> no_rows (ptabs s) -> no_rows (ptabs s').
Proof.
  unfold parse_property. intros H Hs.
  repeat run_step H; try exact Hs.
  apply quoted_loop_ptabs in E. rewrite E. exact Hs.
Qed.

Lemma parse_no_rows fuel :
  (forall s a s', parse_array fuel s = Ok a s' ->
     no_rows (ptabs s) -> no_rows (ptabs s'))
  /\ (forall s a s', parse_object fuel s = Ok a s' ->
        no_rows (ptabs s) -> no_rows (ptabs s'))
  /\ (forall table prop s a s', parse_props fuel table prop s = Ok a s' ->
        no_rows (ptabs s) -> no_rows (ptabs s')).
Proof.
  induction fuel as [|f [IHa [IHo IHp]]].
  - repeat split; intros; discriminate.
  - pose proof (@parse_property_no_rows f) as Hpp.
    repeat split; intros until s'; intros H Hs;
      cbn [parse_array parse_object parse_props] in H;
      repeat run_step H;
      repeat (cbv zeta in *; cbn [fst snd] in *;
              match goal with
              | E : (match ?x with _ => _ end) = _ |- _ => destruct x eqn:?
              | E : (if ?x then _ else _) = _ |- _ => destruct x
              | E : bind _ _ = Ok _ _ |- _ => run_step E
              | E : Ok _ _ = Ok _ _ |- _ => inversion E; subst; clear E
              | E : (_, _) = (_, _) |- _ => inversion E; subst; clear E
              | E : Undef = Ok _ _ |- _ => discriminate E
              | E : Some _ = None |- _ => discriminate E
              | E : None = Some _ |- _ => discriminate E
              end);
      repeat match goal with
      | E : parse_property f _ = Ok _ _ |- _ =>
          pose proof (Hpp _ _ _ E); clear E
      | E : collect_into _ _ = Ok _ _ |- _ =>
          pose proof (@collect_into_no_rows _ _ _ _ E); clear E
      | E : new_table _ = (_, _) |- _ =>
          pose proof (@new_table_no_rows _ _ _ E); clear E
      | E : parse_array f _ = Ok _ _ |- _ => pose proof (IHa _ _ _ E); clear E
      | E : parse_object f _ = Ok _ _ |- _ => pose proof (IHo _ _ _ E); clear E
      | E : parse_props f _ _ _ = Ok _ _ |- _ =>
          pose proof (IHp _ _ _ _ _ E); clear E
      end;
      cbn [ptabs adv put_nul] in *; auto 10.
Qed.

(** The registry a compiled pattern starts with is well formed. *)
Lemma parse_pattern_tables_wf fuel pat head s :
  parse_pattern fuel pat = Ok (Some head) s -> Forall table_wf (ptabs s).
Proof.
  unfold parse_pattern. intros H.
  apply bind_Ok in H. destruct H as [op [s1 [Hp Hk]]].
  assert (no_rows (ptabs s1)) as Hnr.
  { destruct (parse_no_rows fuel) as [Ha [Ho _]].
    destruct (Ascii.eqb (cur (mkPState pat 0 [])) "["%char).
    - eapply Ha; [exact Hp|constructor].
    - destruct (Ascii.eqb (cur (mkPState pat 0 [])) "{"%char).
      + eapply Ho; [exact Hp|constructor].
      + inversion Hp; subst. constructor. }
  destruct op as [op|]; inversion Hk; subst; clear Hk; cbn [ptabs].
  unfold no_rows in Hnr. induction Hnr as [|t tabs Ht Hrest IH]; cbn [map];
    constructor; auto.
  split; cbn [newrow ncols rows]; [apply repeat_length|].
  rewrite Ht. constructor.
Qed.

(** ** Runs of the program *)

(** C2. Scenario S4. The pattern [[{id,vals[*]}]] compiles to an Array over
    an Object; [find_root] marks the Object, not the Array; and on the
    document of the scenario the program writes the three lines [a TAB 1],
    [a TAB 2], [b TAB 3], in this order, and ends normally. *)
Theorem scenario_nested_array_object (fuel : nat) :
  13 <= fuel ->
  let pat := B "[{id,vals[*]}]" in
  let doc := Q "[{'id':'a','vals':[1,2]},{'id':'b','vals':[3]}]" in
  (exists s,
     parse_pattern fuel pat
     = Ok (Some (OpArray None
                   (OpObject (Some 0)
                      [(5, OpArray (Some 1) (OpCollect 1 0) false);
                       (2, OpCollect 0 0)] false) false)) s
     /\ cstring_at (pbuf s) 2 = B "id" /\ cstring_at (pbuf s) 5 = B "vals")
  /\ find_root (OpArray None
                  (OpObject (Some 0)
                     [(5, OpArray (Some 1) (OpCollect 1 0) false);
                      (2, OpCollect 0 0)] false) false)
     = RootFound (OpArray None
                    (OpObject (Some 0)
                       [(5, OpArray (Some 1) (OpCollect 1 0) false);
                        (2, OpCollect 0 0)] true) false)
  /\ main fuel [TAB] pat doc
     = Exit0 (B "a" ++ [TAB] ++ B "1" ++ [LF] ++
              B "a" ++ [TAB] ++ B "2" ++ [LF] ++
              B "b" ++ [TAB] ++ B "3" ++ [LF]).
Proof.
  intros Hf pat doc. split; [|split].
  - destruct (@parse_pattern_mono 13 fuel pat Hf) as [E | E];
      [vm_compute in E; discriminate|].
    rewrite <- E. eexists. split; [vm_compute; reflexivity|].
    split; vm_compute; reflexivity.
  - reflexivity.
  - apply (@main_mono 13 fuel); [vm_compute; reflexivity|discriminate|exact Hf].
Qed.

Lemma scenario_nested_array_object_witness :
  main 13 [TAB] (B "[{id,vals[*]}]")
    (Q "[{'id':'a','vals':[1,2]},{'id':'b','vals':[3]}]")
  = Exit0 (B "a" ++ [TAB] ++ B "1" ++ [LF] ++
           B "a" ++ [TAB] ++ B "2" ++ [LF] ++
           B "b" ++ [TAB] ++ B "3" ++ [LF]).
Proof.
  apply (proj2 (proj2 (@scenario_nested_array_object 13 (le_n 13)))).
Defined.

Lemma new_collect_op_spec t tabs tb :
  nth_error tabs t = Some tb ->
  new_collect_op t tabs
  = Some (OpCollect t (ncols tb),
          list_set tabs t (mkTable (S (ncols tb)) (rows tb) (newrow tb))).
Proof. unfold new_collect_op. intros ->. reflexivity. Qed.

Lemma nth_error_list_set_other {A} (l : list A) : forall i j v,
  i <> j -> nth_error (list_set l i v) j = nth_error l j.
Proof.
  induction l as [|h l IH]; intros [|i] [|j] v H; cbn; try reflexivity.
  - congruence.
  - apply IH. congruence.
Qed.

(** C3. A Collect created for a table that has had no Collect takes column
    0; of two Collects created one after the other for a table, with
    Collects for other tables in between or not, the second takes the
    column that follows the column of the first.  So the pattern [{a,b}]
    compiles to an Object whose property [a] collects into column 0 and
    whose property [b] collects into column 1 of one table, and on the
    document [{"a":1,"b":2}] the program writes the one line [1 TAB 2]. *)
Theorem columns_in_creation_order (fuel : nat) :
  6 <= fuel ->
  (forall s op tabs',
     new_collect_op (fst (new_table s)) (ptabs (snd (new_table s))) = Some (op, tabs') ->
     op = OpCollect (length (ptabs s)) 0)
  /\ (forall t tabs op1 tabs1 op2 tabs2,
        new_collect_op t tabs = Some (op1, tabs1) ->
        new_collect_op t tabs1 = Some (op2, tabs2) ->
        exists c, op1 = OpCollect t c /\ op2 = OpCollect t (S c))
  /\ (forall t t' tabs op1 tabs1 op' tabs2 op2 tabs3,
        t' <> t ->
        new_collect_op t tabs = Some (op1, tabs1) ->
        new_collect_op t' tabs1 = Some (op', tabs2) ->
        new_collect_op t tabs2 = Some (op2, tabs3) ->
        exists c, op1 = OpCollect t c /\ op2 = OpCollect t (S c))
  /\ (exists s,
        parse_pattern fuel (B "{a,b}")
        = Ok (Some (OpObject (Some 0) [(3, OpCollect 0 1); (1, OpCollect 0 0)] false)) s
        /\ cstring_at (pbuf s) 1 = B "a" /\ cstring_at (pbuf s) 3 = B "b")
  /\ main fuel [TAB] (B "{a,b}") (Q "{'a':1,'b':2}")
     = Exit0 (B "1" ++ [TAB] ++ B "2" ++ [LF]).
Proof.
  intros Hf. split; [|split; [|split; [|split]]].
  - intros s op tabs'. cbn [new_table fst snd ptabs].
    rewrite (@new_collect_op_spec (length (ptabs s)) _ (mkTable 0 [] [])).
    + intros H. inversion H. reflexivity.
    + rewrite nth_error_app2 by lia. rewrite Nat.sub_diag. reflexivity.
  - intros t tabs op1 tabs1 op2 tabs2 H1 H2.
    unfold new_collect_op in H1.
    destruct (nth_error tabs t) as [tb|] eqn:E; [|discriminate].
    inversion H1; subst. clear H1.
    rewrite (@new_collect_op_spec t _ (mkTable (S (ncols tb)) (rows tb) (newrow tb)))
      in H2 by (eapply nth_error_list_set; exact E).
    inversion H2; subst. exists (ncols tb). split; reflexivity.
  - intros t t' tabs op1 tabs1 op' tabs2 op2 tabs3 Hne H1 H' H2.
    unfold new_collect_op in H1.
    destruct (nth_error tabs t) as [tb|] eqn:E; [|discriminate].
    inversion H1; subst. clear H1.
    unfold new_collect_op in H'.
    destruct (nth_error (list_set tabs t _) t') as [tb'|] eqn:E'; [|discriminate].
    inversion H'; subst. clear H'.
    rewrite (@new_collect_op_spec t _ (mkTable (S (ncols tb)) (rows tb) (newrow tb)))
      in H2.
    + inversion H2; subst. exists (ncols tb). split; reflexivity.
    + rewrite nth_error_list_set_other by exact Hne.
      eapply nth_error_list_set; exact E.
  - destruct (@parse_pattern_mono 6 fuel (B "{a,b}") Hf) as [E | E];
      [vm_compute in E; discriminate|].
    rewrite <- E. eexists. split; [vm_compute; reflexivity|].
    split; vm_compute; reflexivity.
  - apply (@main_mono 6 fuel); [vm_compute; reflexivity|discriminate|exact Hf].
Qed.

Lemma columns_in_creation_order_witness :
  main 6 [TAB] (B "{a,b}") (Q "{'a':1,'b':2}")
  = Exit0 (B "1" ++ [TAB] ++ B "2" ++ [LF]).
Proof.
  apply (proj2 (proj2 (proj2 (proj2 (@columns_in_creation_order 6 (le_n 6)))))).
Defined.

(** C1, where the source departs from it.  Eight tables of 256 completed
    rows each: the product of the row counts is [2^64], which [nrows]
    cannot hold; the count computed is 0, no line is written, and the rows
    are dropped.  The pattern [{a[*],...,h[*]}] on the object of eight
    arrays of 256 ones reaches this state, and the program ends normally
    with an empty output; on arrays of 2 ones it writes the 256 lines. *)
Theorem flush_tables_row_count_wraps :
  let tabs := repeat (mkTable 1 (repeat [mkBuf 1 4 (Some (B "1"))] 256) [buf0]) 8 in
  let pat := B "{a[*],b[*],c[*],d[*],e[*],f[*],g[*],h[*]}" in
  Forall (fun t => nrows t = 256%Z) tabs
  /\ row_count tabs = (2 ^ 64)%Z
  /\ count_rows tabs = (true, 0%Z)
  /\ flush_tables [TAB] tabs [] = (map reset_table tabs, [])
  /\ main 300 [TAB] pat (eight_arrays 256) = Exit0 []
  /\ (exists o,
        main 300 [TAB] pat (eight_arrays 2) = Exit0 o
        /\ length (filter (Ascii.eqb LF) o) = 256).
Proof.
  intros tabs pat. split; [|split; [|split; [|split; [|split]]]].
  - repeat constructor.
  - vm_compute. reflexivity.
  - vm_compute. reflexivity.
  - vm_compute. reflexivity.
  - vm_compute. reflexivity.
  - eexists. split; vm_compute; reflexivity.
Qed.

(** * Further properties *)

(** ** The emitter *)

(** X1. [flush_tables] when the product of the row counts is below [2^64]:
    if some table has a completed row, it appends [row_count tabs] lines,
    the line number [i] being the one [emit_row] writes for the row indices
    [i mod max(1, r_j)]; if no table has one, it writes nothing; in both
    cases no table has a completed row afterwards. *)
Theorem flush_writes_cartesian_product (fs : bytes) (tabs : list Table)
    (o : bytes) :
  (row_count tabs < 2 ^ SIZE_WIDTH)%Z ->
  (Exists (fun t => 0 < nrows t)%Z tabs ->
     snd (flush_tables fs tabs o)
     = o ++ concat (map (fun i => emit_row fs tabs (spec_index tabs (Z.of_nat i)) [])
                        (seq 0 (Z.to_nat (row_count tabs)))))
  /\ (Forall (fun t => nrows t = 0%Z) tabs -> snd (flush_tables fs tabs o) = o)
  /\ Forall (fun t => rows t = []) (fst (flush_tables fs tabs o)).
Proof.
  intros Hfit. destruct (@flush_tables_cartesian fs tabs o Hfit) as [H1 [H2 H3]].
  split; [|split; assumption].
  intros Hex. apply H1. exact Hex.
Qed.

Lemma flush_writes_cartesian_product_witness :
  let tabs := [mkTable 1 [[mkBuf 1 4 (Some (B "a"))]; [mkBuf 1 4 (Some (B "b"))]]
                 [buf0];
               mkTable 1 [] [buf0];
               mkTable 1 [[mkBuf 1 4 (Some (B "1"))]; [mkBuf 1 4 (Some (B "2"))];
                          [mkBuf 1 4 (Some (B "3"))]] [buf0]] in
  snd (flush_tables [TAB] tabs [])
  = concat (map (fun i => emit_row [TAB] tabs (spec_index tabs (Z.of_nat i)) [])
                (seq 0 6)).
Proof.
  intros tabs.
  refine (proj1 (@flush_writes_cartesian_product [TAB] tabs [] _) _).
  - vm_compute. reflexivity.
  - constructor. vm_compute. reflexivity.
Defined.

(** ** The lexer *)

(** X4. The one-token cache.  When [next_token] returns a token, so does
    [peek_token], in a state in which [peek_token] returns it again without
    a change and [next_token] returns it once more and leaves the state
    [next_token] alone would have left.  When [next_token] dies,
    [peek_token] dies with the same message. *)
Theorem peek_token_caches_next_token (l : Lexer) :
  (forall t l', Lex.next_token l = Ok t l' ->
     exists lp,
       Lex.peek_token l = Ok t lp
       /\ Lex.peek_token lp = Ok t lp
       /\ Lex.next_token lp = Ok t l'
       /\ peek l' = false /\ token l' = t)
  /\ (forall msg l', Lex.next_token l = Die msg l' ->
        Lex.peek_token l = Die msg l').
Proof.
  split.
  - intros t l' H. destruct (peek_then_next _ H) as [lp [H1 [H2 H3]]].
    destruct (next_token_post _ H) as [H4 H5].
    exists lp. auto.
  - intros msg l' H. unfold Lex.peek_token.
    destruct (peek l) eqn:Hp.
    + unfold Lex.next_token in H. rewrite Hp in H. discriminate.
    + cbn [negb]. rewrite H. reflexivity.
Qed.

Lemma peek_token_caches_next_token_witness :
  exists lp,
    Lex.peek_token (lexer0 (B "[1]")) = Ok (tok T_BEGINARRAY (B "[")) lp
    /\ Lex.peek_token lp = Ok (tok T_BEGINARRAY (B "[")) lp.
Proof.
  destruct (proj1 (peek_token_caches_next_token (lexer0 (B "[1]")))
              (tok T_BEGINARRAY (B "["))
              (lexer_at (B "1]") buf0 (tok T_BEGINARRAY (B "[")))
              eq_refl) as [lp [H1 [H2 _]]].
  exists lp. split; assumption.
Defined.

(** ** Skipping *)

(** X2. [skip_value] on a stream whose next tokens are those of one value
    of the document grammar returns normally and leaves the lexer exactly
    after these tokens; the tables and the output are not touched. *)
Theorem skip_value_consumes_one_value (ts : list Token) (fuel : nat)
    (w : World) (l' : Lexer) :
  value_toks ts -> yields (lexer w) ts l' -> 3 * length ts <= fuel ->
  skip_value fuel w = Ok tt (mkWorld l' (tables w) (out w) (fieldsep w) (pattern w)).
Proof.
  intros Hv Hy Hf. apply (proj1 skip_consumes ts Hv fuel w l' Hy Hf).
Qed.

Lemma skip_value_consumes_one_value_witness :
  let w := mkWorld (lexer0 (Q "{'k':[true,null]} 7")) [mkTable 1 [] [buf0]] [] [TAB] [] in
  exists l',
    skip_value 27 w = Ok tt (mkWorld l' (tables w) (out w) (fieldsep w) (pattern w))
    /\ input l' = B " 7".
Proof.
  intros w. eexists. split.
  - refine (@skip_value_consumes_one_value
        [tok T_BEGINOBJECT (B "{"); tok T_STRING (B "k"); tok T_PAIRSEP (B ":");
         tok T_BEGINARRAY (B "["); tok T_BOOL (B "true"); tok T_MEMBERSEP (B ",");
         tok T_NULL (B "null"); tok T_ENDARRAY (B "]"); tok T_ENDOBJECT (B "}")]
        27 w _ _ _ _).
    + apply (@vt_object (tok T_BEGINOBJECT (B "{"))
               [tok T_STRING (B "k"); tok T_PAIRSEP (B ":");
                tok T_BEGINARRAY (B "["); tok T_BOOL (B "true");
                tok T_MEMBERSEP (B ","); tok T_NULL (B "null");
                tok T_ENDARRAY (B "]")]
               (tok T_ENDOBJECT (B "}"))); [reflexivity| |reflexivity].
      apply mt_last; [reflexivity|reflexivity|].
      apply (@vt_array (tok T_BEGINARRAY (B "["))
               [tok T_BOOL (B "true"); tok T_MEMBERSEP (B ","); tok T_NULL (B "null")]
               (tok T_ENDARRAY (B "]"))); [reflexivity| |reflexivity].
      apply (@et_more [tok T_BOOL (B "true")]); [now constructor|reflexivity|].
      apply et_last. now constructor.
    + repeat (eapply yields_cons; [cbv; reflexivity|]). apply yields_nil.
    + cbn. lia.
  - reflexivity.
Defined.

(** X3. A Collect that meets an array or an object stores nothing: on a
    stream whose next tokens are those of one array or object, it consumes
    exactly these tokens and leaves the tables and the output as they
    were. *)
Theorem collect_skips_containers (ts : list Token) (fuel table column : nat)
    (w : World) (l' : Lexer) :
  value_toks ts -> opens_container ts -> yields (lexer w) ts l' ->
  3 * length ts <= S fuel ->
  run_collect_op fuel table column w
  = Ok tt (mkWorld l' (tables w) (out w) (fieldsep w) (pattern w)).
Proof.
  intros Hv Ho Hy Hf.
  pose proof (proj1 skip_consumes ts Hv (S fuel) w l' Hy Hf) as Hskip.
  destruct ts as [|t rest]; [contradiction|]. cbn [opens_container] in Ho.
  destruct (yields_peek Hy) as [lp [Hp _]].
  cbn [skip_value] in Hskip. unfold run_collect_op.
  rewrite (peek_token_w _ Hp) in *. cbn [bind] in *.
  destruct Ho as [Ht | Ht]; rewrite Ht in *; exact Hskip.
Qed.

Lemma collect_skips_containers_witness :
  let w := mkWorld (lexer0 (B "[1,2],")) [mkTable 1 [] [buf0]] [] [TAB] [] in
  exists l',
    run_collect_op 14 0 0 w
    = Ok tt (mkWorld l' (tables w) (out w) (fieldsep w) (pattern w))
    /\ input l' = B ",".
Proof.
  intros w. eexists. split.
  - refine (@collect_skips_containers
        [tok T_BEGINARRAY (B "["); tok T_NUMBER (B "1"); tok T_MEMBERSEP (B ",");
         tok T_NUMBER (B "2"); tok T_ENDARRAY (B "]")] 14 0 0 w _ _ _ _ _).
    + apply (@vt_array (tok T_BEGINARRAY (B "["))
               [tok T_NUMBER (B "1"); tok T_MEMBERSEP (B ","); tok T_NUMBER (B "2")]
               (tok T_ENDARRAY (B "]"))); [reflexivity| |reflexivity].
      apply (@et_more [tok T_NUMBER (B "1")]); [now constructor|reflexivity|].
      apply et_last. now constructor.
    + left. reflexivity.
    + repeat (eapply yields_cons; [cbv; reflexivity|]). apply yields_nil.
    + cbn. lia.
  - reflexivity.
Defined.

(** ** Cells and buffers *)

(** X6. [add_value] writes and the cell reads back: on a well-formed cell
    of the pending row, whatever it held, the cell holds exactly the value
    written afterwards (the last write wins); the other cells, the
    completed rows and the column count are unchanged. *)
Theorem add_value_reads_back (t : Table) (column : nat) (val : bytes)
    (cell : Buf) :
  nth_error (newrow t) column = Some cell -> buf_wf cell ->
  exists t' cell',
    add_value t column val = Some t'
    /\ nth_error (newrow t') column = Some cell'
    /\ cstr cell' = val /\ len cell' = length val /\ buf_wf cell'
    /\ (forall c, c <> column -> nth_error (newrow t') c = nth_error (newrow t) c)
    /\ length (newrow t') = length (newrow t)
    /\ rows t' = rows t /\ ncols t' = ncols t.
Proof.
  intros Hc Hwf. unfold add_value. rewrite Hc.
  destruct (set_value_spec val Hwf) as [H1 [H2 [H3 _]]].
  eexists. eexists. split; [reflexivity|]. cbn [newrow rows ncols].
  split; [eapply nth_error_list_set; exact Hc|].
  split; [exact H1|]. split; [exact H2|]. split; [exact H3|].
  split; [|split; [apply length_list_set|split; reflexivity]].
  intros c Hne. apply nth_error_list_set_other. congruence.
Qed.

Lemma add_value_reads_back_witness :
  exists t' cell',
    add_value (mkTable 2 [] [mkBuf 3 4 (Some (B "old")); buf0]) 0 (B "new value")
    = Some t'
    /\ nth_error (newrow t') 0 = Some cell'
    /\ cstr cell' = B "new value".
Proof.
  destruct (@add_value_reads_back
              (mkTable 2 [] [mkBuf 3 4 (Some (B "old")); buf0]) 0 (B "new value")
              (mkBuf 3 4 (Some (B "old"))) eq_refl eq_refl)
    as [t' [cell' [H1 [H2 [H3 _]]]]].
  exists t', cell'. auto.
Defined.

Lemma double_until_reaches fuel : forall c want,
  0 < c -> want <= c + fuel -> want <= double_until fuel c want.
Proof.
  induction fuel as [|f IH]; intros c want Hc Hw; cbn [double_until]; [lia|].
  destruct (c <? want) eqn:E.
  - apply IH; lia.
  - apply Nat.ltb_ge in E. exact E.
Qed.

Lemma ensure_bufcap_ok b c :
  buf_ok b -> 0 < c ->
  let b' := ensure_bufcap b c in
  c <= cap b' /\ len b' = len b /\ cstr b' = cstr b
  /\ exists s, str b' = Some s.
Proof.
  intros Hb Hc. unfold ensure_bufcap.
  destruct (cap b <? c) eqn:E; cbn zeta.
  - cbn [cap len cstr str]. split; [|split; [reflexivity|split; [reflexivity|eauto]]].
    apply double_until_reaches; [|lia].
    destruct (cap b =? 0) eqn:E0; [lia|]. apply Nat.eqb_neq in E0. lia.
  - apply Nat.ltb_ge in E. split; [exact E|]. split; [reflexivity|].
    split; [reflexivity|].
    destruct Hb as [-> | [s [Hs _]]]; [simpl in E; lia|eauto].
Qed.

(** X7. The buffers stay within their allocation.  [append_char] and the
    write of [add_value], on a buffer that is all zero or has room for its
    bytes and the terminating NUL, leave a buffer that has room for its
    bytes and the NUL; [append_char] adds the byte at the end of the
    string, and [ensure_bufcap] gives at least the capacity asked for. *)
Theorem buffers_keep_room (b : Buf) (c : ascii) (val : bytes) :
  buf_ok b ->
  buf_ok (append_char b c)
  /\ cstr (append_char b c) = cstr b ++ [c]
  /\ buf_ok (set_value b val)
  /\ cstr (set_value b val) = val
  /\ (forall want, 0 < want -> want <= cap (ensure_bufcap b want)).
Proof.
  intros Hb.
  assert (buf_wf b) as Hwf.
  { destruct Hb as [-> | [s [Hs [Hl _]]]]; [reflexivity|].
    unfold buf_wf, cstr. rewrite Hs. exact Hl. }
  split; [|split; [|split; [|split]]].
  - right. unfold append_char.
    destruct (@ensure_bufcap_ok b (len b + 2) Hb ltac:(lia)) as [H1 [H2 [H3 _]]].
    cbn zeta in *. cbn [str len cap]. eexists. split; [reflexivity|].
    rewrite H2, H3, Hwf, firstn_all, length_app. cbn [length].
    rewrite Hwf in H1. split; lia.
  - apply (append_char_wf c Hwf).
  - unfold set_value.
    set (b1 := if 0 <? len b then mkBuf 0 (cap b) (Some []) else b).
    assert (buf_ok b1) as Hb1.
    { unfold b1. destruct (0 <? len b) eqn:E; [|exact Hb].
      right. exists []. cbn [str len cap length]. apply Nat.ltb_lt in E.
      destruct Hb as [-> | [s [_ [_ Hlt]]]]; [simpl in E; lia|].
      split; [reflexivity|split; [reflexivity|lia]]. }
    destruct (0 <? length val) eqn:Ev; [|exact Hb1].
    apply Nat.ltb_lt in Ev.
    destruct (@ensure_bufcap_ok b1 (length val + 1) Hb1 ltac:(lia)) as [H1 _].
    cbn zeta in H1. right. exists val. cbn [str len cap].
    split; [reflexivity|split; [reflexivity|lia]].
  - apply (set_value_spec val Hwf).
  - intros want Hw. apply (@ensure_bufcap_ok b want Hb Hw).
Qed.

Lemma buffers_keep_room_witness :
  buf_ok (append_char (mkBuf 3 4 (Some (B "abc"))) "d"%char)
  /\ cstr (append_char (mkBuf 3 4 (Some (B "abc"))) "d"%char) = B "abcd".
Proof.
  assert (buf_ok (mkBuf 3 4 (Some (B "abc")))) as Hb.
  { right. exists (B "abc"). cbn. split; [reflexivity|split; [reflexivity|lia]]. }
  destruct (@buffers_keep_room _ "d"%char [] Hb) as [H1 [H2 _]].
  split; [exact H1|exact H2].
Defined.

(** ** The tables over a whole run *)

(** X8. The shape of the tables is an invariant of the program: when a
    pattern compiles and any operator is run over a stream with the tables
    the compiler left, in every state in which the run returns each table
    has a pending row of [ncols] cells and each completed row has [ncols]
    cells of which one at least is not empty. *)
Theorem tables_stay_well_formed (fuel fuel' : nat) (pat : bytes) (head op : Op)
    (s : PState) (l : Lexer) (o fs : bytes) (w' : World) :
  parse_pattern fuel pat = Ok (Some head) s ->
  run_stream fuel' op (mkWorld l (ptabs s) o fs (pbuf s)) = Ok tt w' ->
  Forall (fun t => length (newrow t) = ncols t
                   /\ Forall (row_ok (ncols t)) (rows t)) (tables w').
Proof.
  intros Hp Hr.
  apply (@run_stream_tables fuel' op _ tt w' Hr).
  exact (parse_pattern_tables_wf _ _ Hp).
Qed.

Lemma tables_stay_well_formed_witness :
  exists w',
    run_stream 20 (OpObject (Some 0) [(3, OpCollect 0 1); (1, OpCollect 0 0)] true)
      (mkWorld (lexer0 (Q "{'a':1,'b':2}")) [mkTable 2 [] [buf0; buf0]] [] [TAB]
         (B "{a" ++ [NUL] ++ B "b" ++ [NUL])) = Ok tt w'
    /\ Forall (fun t => length (newrow t) = ncols t
                        /\ Forall (row_ok (ncols t)) (rows t)) (tables w').
Proof.
  eexists. split; [vm_compute; reflexivity|].
  refine (@tables_stay_well_formed 20 20 (B "{a,b}")
            (OpObject (Some 0) [(3, OpCollect 0 1); (1, OpCollect 0 0)] false)
            (OpObject (Some 0) [(3, OpCollect 0 1); (1, OpCollect 0 0)] true)
            (mkPState (B "{a" ++ [NUL] ++ B "b" ++ [NUL]) 5 [mkTable 2 [] [buf0; buf0]])
            (lexer0 (Q "{'a':1,'b':2}")) [] [TAB] _ _ _).
  - vm_compute. reflexivity.
  - vm_compute. reflexivity.
Defined.

(** ** More than one FILE *)

Lemma bytes_eqb_eq a : forall b, bytes_eqb a b = true -> a = b.
Proof.
  induction a as [|x a IH]; intros [|y b] H; cbn [bytes_eqb] in H;
    try discriminate; [reflexivity|].
  apply andb_true_iff in H. destruct H as [H1 H2].
  apply Ascii.eqb_eq in H1. apply IH in H2. congruence.
Qed.

Lemma peek_token_post l t l' :
  Lex.peek_token l = Ok t l' -> peek l' = true /\ token l' = t.
Proof.
  unfold Lex.peek_token. destruct (peek l) eqn:Hp; cbn [negb]; intros H.
  - inversion H; subst. split; [exact Hp|reflexivity].
  - apply bind_Ok in H. destruct H as [a [l1 [E H]]].
    inversion H; subst; clear H.
    destruct (next_token_post _ E) as [_ Ht]. split; [reflexivity|exact Ht].
Qed.

(** The loop over the documents of a stream ends on a cached [Eof]. *)
Lemma run_stream_ends_at_eof fuel : forall head w a w',
  run_stream fuel head w = Ok a w' ->
  peek (lexer w') = true /\ type (token (lexer w')) = T_EOF.
Proof.
  induction fuel as [|f IH]; intros head w a w' H; [discriminate|].
  cbn [run_stream] in H.
  apply bind_Ok in H. destruct H as [a1 [w1 [E1 H]]].
  apply bind_Ok in H. destruct H as [t [w2 [E2 H]]].
  destruct (TokenType_eqb (type t) T_EOF) eqn:Et; cbn [negb] in H.
  - inversion H; subst; clear H.
    unfold peek_token, on_lexer in E2.
    destruct (Lex.peek_token (lexer w1)) as [t' l'| | |] eqn:Ep; try discriminate.
    inversion E2; subst; clear E2. cbn [lexer with_lexer].
    destruct (peek_token_post _ Ep) as [H1 H2]. split; [exact H1|].
    rewrite H2. destruct (type t); try discriminate. reflexivity.
  - eapply IH. exact H.
Qed.

(** X9. A second FILE is never read.  When the call with one FILE returns
    0 after writing [o], the call with further FILE arguments writes the
    same [o] and then dies with "unexpected token type": the [Eof] token
    the lexer has cached at the end of the first file is still cached when
    the top operator starts on the next file. *)
Theorem second_file_dies (fuel : nat) (buffered : bytes -> nat)
    (open : bytes -> bytes) (sep : option bytes) (pat n1 n2 : bytes)
    (names : list bytes) (stdin o : bytes) :
  4 <= fuel ->
  (sep = None -> pat <> B "-f") ->
  jl fuel buffered open (jl_args sep pat [n1]) stdin = Exit0 o ->
  jl fuel buffered open (jl_args sep pat (n1 :: n2 :: names)) stdin
  = ExitDie "unexpected token type" o.
Proof.
  intros Hf Hpat.
  assert (forall fs,
    run_args fuel buffered open fs pat [n1] stdin = Exit0 o ->
    run_args fuel buffered open fs pat (n1 :: n2 :: names) stdin
    = ExitDie "unexpected token type" o) as Hargs.
  { intros fs. unfold run_args.
    destruct (parse_pattern fuel pat) as [[head|] s| | |]; try discriminate.
    destruct (find_root head) as [root| |] eqn:Hroot; try discriminate.
    pose proof (find_root_not_collect _ Hroot) as Hnc.
    cbn [map run_files bind].
    set (w0 := mkWorld (lexer0 []) (ptabs s) [] fs (pbuf s)).
    destruct (run_stream fuel root (with_lexer w0 (open_file buffered (open n1) (lexer w0))))
      as [[] w1| | |] eqn:H1; try discriminate.
    cbn [bind]. intros Ho. inversion Ho; subst; clear Ho.
    destruct (run_stream_ends_at_eof _ _ _ H1) as [Hpk Hty].
    set (w2 := with_lexer w1 (open_file buffered (open n2) (lexer w1))).
    assert (Lex.next_token (lexer w2)
            = Ok (token (lexer w1)) (Lex.with_peek (lexer w2) false)) as Hn.
    { unfold Lex.next_token, w2. cbn [lexer with_lexer open_file peek token].
      rewrite Hpk. reflexivity. }
    destruct fuel as [|f]; [lia|]. cbn [run_stream].
    destruct (@run_op_at_eof root w2 _ _ f Hnc Hn Hty) as [lp Hrun]; [lia|].
    rewrite Hrun. reflexivity. }
  unfold jl, jl_args. destruct sep as [fs|].
  - change (bytes_eqb (B "-f") (B "-f")) with true. cbv iota. apply Hargs.
  - destruct (bytes_eqb pat (B "-f")) eqn:E.
    + exfalso. apply Hpat; [reflexivity|]. apply bytes_eqb_eq. exact E.
    + apply Hargs.
Qed.

Lemma second_file_dies_witness :
  let open := fun name : bytes =>
    if bytes_eqb name (B "a.json") then B "[1,2]" else B "[3]" in
  jl 20 (fun _ => 0) open (jl_args None (B "[*]") [B "a.json"]) [] = Exit0 (B "1" ++ [LF] ++ B "2" ++ [LF])
  /\ jl 20 (fun _ => 0) open (jl_args None (B "[*]") [B "a.json"; B "b.json"]) []
     = ExitDie "unexpected token type" (B "1" ++ [LF] ++ B "2" ++ [LF]).
Proof.
  intros open. split; [vm_compute; reflexivity|].
  apply (@second_file_dies 20 (fun _ => 0) open None (B "[*]") (B "a.json")
           (B "b.json") [] [] (B "1" ++ [LF] ++ B "2" ++ [LF])).
  - lia.
  - intros _. discriminate.
  - vm_compute. reflexivity.
Defined.

(** ** The pattern compiler ends *)

Lemma cur_lt s c :
  Ascii.eqb (cur s) c = true -> c <> NUL -> ppos s < length (pbuf s).
Proof.
  intros H Hc. apply Ascii.eqb_eq in H. unfold cur in H.
  destruct (Nat.lt_ge_cases (ppos s) (length (pbuf s))) as [Hlt|Hge]; [exact Hlt|].
  rewrite nth_overflow in H by exact Hge. congruence.
Qed.

Lemma cur_not_nul_lt s :
  Ascii.eqb (cur s) NUL = false -> ppos s < length (pbuf s).
Proof.
  intros H. unfold cur in H.
  destruct (Nat.lt_ge_cases (ppos s) (length (pbuf s))) as [Hlt|Hge]; [exact Hlt|].
  rewrite nth_overflow in H by exact Hge. discriminate.
Qed.

Lemma parsed_weaken {A} p p' n (r : Res PState A) :
  parsed p n r -> p' <= p -> parsed p' n r.
Proof. destruct r; cbn [parsed]; intros H Hp; [split; lia|auto..]. Qed.

Lemma parsed_bind {A C} p n (m : Res PState A) (k : A -> PState -> Res PState C) :
  parsed p n m ->
  (forall a s1, m = Ok a s1 -> p <= ppos s1 -> length (pbuf s1) = n ->
     parsed p n (k a s1)) ->
  parsed p n (bind m k).
Proof.
  destruct m as [a s1| | |]; cbn [parsed bind]; intros H Hk; auto.
  destruct H. apply Hk; auto.
Qed.

Ltac parsed_ok :=
  cbn [parsed ppos pbuf adv put_nul]; rewrite ?length_list_set;
  split; [lia|first [reflexivity | assumption | congruence | lia]].

Lemma quoted_loop_total fuel : forall esc s,
  length (pbuf s) - ppos s < fuel ->
  parsed (ppos s) (length (pbuf s)) (quoted_loop fuel esc s).
Proof.
  induction fuel as [|f IH]; intros esc s Hf; [lia|].
  cbn [quoted_loop].
  destruct (Ascii.eqb (cur s) NUL) eqn:E0; [parsed_ok|].
  apply cur_not_nul_lt in E0.
  assert (parsed (ppos (adv s)) (length (pbuf (adv s))) (quoted_loop f false (adv s)))
    as H1 by (apply IH; cbn [adv ppos pbuf]; lia).
  assert (parsed (ppos (adv s)) (length (pbuf (adv s))) (quoted_loop f (negb esc) (adv s)))
    as H2 by (apply IH; cbn [adv ppos pbuf]; lia).
  cbn [adv ppos pbuf] in H1, H2.
  destruct (Ascii.eqb (cur s) DQUOTE).
  - destruct (negb esc); [parsed_ok|].
    eapply parsed_weaken; [exact H1|lia].
  - destruct (Ascii.eqb (cur s) BACKSLASH).
    + eapply parsed_weaken; [exact H2|lia].
    + eapply parsed_weaken; [exact H1|lia].
Qed.

Lemma parse_property_total fuel s :
  length (pbuf s) - ppos s <= fuel ->
  parsed (ppos s) (length (pbuf s)) (parse_property fuel s).
Proof.
  intros Hf. unfold parse_property.
  destruct (Ascii.eqb (cur s) DQUOTE) eqn:Eq.
  - assert (ppos s < length (pbuf s)) as Hlt by (apply (cur_lt _ Eq); discriminate).
    apply parsed_bind.
    + apply (@parsed_weaken _ (ppos (adv s))); [|cbn [adv ppos]; lia].
      apply (@quoted_loop_total fuel false (adv s)). cbn [adv ppos pbuf]. lia.
    + intros a s1 _ H1 H2. parsed_ok.
  - cbv zeta. cbn [ppos].
    destruct (ppos s + strcspn (skipn (ppos s) (pbuf s)) (B ",[]{}") =? ppos s);
      parsed_ok.
Qed.

Lemma collect_into_parsed t s :
  parsed (ppos s) (length (pbuf s)) (collect_into t s).
Proof.
  unfold collect_into. destruct (new_collect_op t (ptabs s)) as [[op tabs']|];
    [parsed_ok|exact I].
Qed.

(** With two units of fuel for every byte of the pattern from the position
    on, the compiler does not run out of fuel. *)
Lemma parse_total fuel :
  (forall s, 2 * (length (pbuf s) - ppos s) + 2 <= fuel ->
     parsed (ppos s) (length (pbuf s)) (parse_array fuel s))
  /\ (forall s, 2 * (length (pbuf s) - ppos s) + 2 <= fuel ->
        parsed (ppos s) (length (pbuf s)) (parse_object fuel s))
  /\ (forall table prop s, 2 * (length (pbuf s) - ppos s) + 1 <= fuel ->
        parsed (ppos s) (length (pbuf s)) (parse_props fuel table prop s)).
Proof.
  induction fuel as [|f [IHa [IHo IHp]]].
  - repeat split; intros; lia.
  - split; [|split].
    + intros s Hf. cbn [parse_array]. cbv zeta.
      destruct (Ascii.eqb (cur s) "["%char) eqn:E0; cbn [negb]; [|parsed_ok].
      assert (ppos s < length (pbuf s)) as Hlt by (apply (cur_lt _ E0); discriminate).
      apply parsed_bind.
      * destruct (Ascii.eqb (cur (adv s)) "*"%char).
        { unfold new_table. apply parsed_bind.
          - apply (@parsed_weaken _ (S (ppos s))); [|lia].
            apply (@collect_into_parsed (length (ptabs (adv s)))
                     (mkPState (pbuf (adv s)) (ppos (adv s))
                        (ptabs (adv s) ++ [mkTable 0 [] []]))).
          - intros a s1 _ H1 H2. parsed_ok. }
        destruct (Ascii.eqb (cur (adv s)) "["%char).
        { apply parsed_bind.
          - apply (@parsed_weaken _ (ppos (adv s))); [|cbn [adv ppos]; lia].
            apply (IHa (adv s)). cbn [adv ppos pbuf]. lia.
          - intros a s1 _ H1 H2. parsed_ok. }
        destruct (Ascii.eqb (cur (adv s)) "{"%char).
        { apply parsed_bind.
          - apply (@parsed_weaken _ (ppos (adv s))); [|cbn [adv ppos]; lia].
            apply (IHo (adv s)). cbn [adv ppos pbuf]. lia.
          - intros a s1 _ H1 H2. parsed_ok. }
        parsed_ok.
      * intros [tb nx] s1 _ H1 H2. cbn [fst snd].
        destruct nx as [next|]; [|parsed_ok].
        destruct (Ascii.eqb (cur s1) NUL); [parsed_ok|].
        destruct (Ascii.eqb (cur s1) "]"%char); parsed_ok.
    + intros s Hf. cbn [parse_object].
      destruct (Ascii.eqb (cur s) "{"%char) eqn:E0; cbn [negb]; [|parsed_ok].
      apply IHp. lia.
    + intros table prop s Hf. cbn [parse_props]. cbv zeta.
      apply (@parsed_weaken _ (S (ppos s))); [|lia].
      apply parsed_bind.
      * apply (@parse_property_total f (adv s)). cbn [adv ppos pbuf]. lia.
      * intros name s1 _ H1 H2.
        apply parsed_bind.
        { destruct (Ascii.eqb (cur s1) ","%char || Ascii.eqb (cur s1) "}"%char
                    || Ascii.eqb (cur s1) NUL).
          - destruct name as [nm|]; [|parsed_ok].
            destruct table as [t|].
            + apply parsed_bind.
              * apply (@parsed_weaken _ (ppos s1)); [|lia].
                rewrite <- H2. apply collect_into_parsed.
              * intros a s2 _ H3 H4. parsed_ok.
            + unfold new_table. apply parsed_bind.
              * apply (@parsed_weaken _ (ppos s1)); [|lia]. rewrite <- H2.
                apply (@collect_into_parsed (length (ptabs s1))
                         (mkPState (pbuf s1) (ppos s1)
                            (ptabs s1 ++ [mkTable 0 [] []]))).
              * intros a s2 _ H3 H4. parsed_ok.
          - destruct (Ascii.eqb (cur s1) "{"%char) eqn:Eo.
            + assert (ppos s1 < length (pbuf s1)) as Hlt
                by (apply (cur_lt _ Eo); discriminate).
              apply parsed_bind.
              * apply (@parsed_weaken _ (ppos s1)); [|lia]. rewrite <- H2.
                apply IHo. lia.
              * intros a s2 _ H3 H4. destruct name; [parsed_ok|exact I].
            + destruct (Ascii.eqb (cur s1) "["%char) eqn:Ea; [|parsed_ok].
              assert (ppos s1 < length (pbuf s1)) as Hlt
                by (apply (cur_lt _ Ea); discriminate).
              apply parsed_bind.
              * apply (@parsed_weaken _ (ppos s1)); [|lia]. rewrite <- H2.
                apply IHa. lia.
              * intros a s2 _ H3 H4. destruct name; [parsed_ok|exact I]. }
        intros [tb o] s2 _ H3 H4. cbn [fst snd].
        destruct name as [nm|]; [|parsed_ok].
        destruct o as [op|]; [|parsed_ok].
        destruct (Ascii.eqb (cur s2) ","%char) eqn:Ec.
        { assert (ppos s2 < length (pbuf s2)) as Hlt
            by (apply (cur_lt _ Ec); discriminate).
          apply (@parsed_weaken _ (ppos (put_nul s2 (ppos s1)))).
          - replace (length (pbuf s)) with (length (pbuf (put_nul s2 (ppos s1))))
              by (cbn [put_nul pbuf]; rewrite length_list_set; lia).
            apply IHp. cbn [put_nul pbuf ppos]. rewrite length_list_set. lia.
          - cbn [put_nul ppos]. lia. }
        destruct (Ascii.eqb (cur s2) "}"%char); [parsed_ok|].
        destruct (negb (Ascii.eqb (cur s2) NUL)); parsed_ok.
Qed.

(** X10. The compiler ends on every pattern.  With [parse_fuel] of the
    length of the pattern, two units for every byte and two more,
    [parse_pattern] returns a tree or NULL or runs into undefined
    behaviour, and more fuel does not change what it returns. *)
Theorem parse_pattern_terminates (pat : bytes) (fuel : nat) :
  parse_fuel (length pat) <= fuel ->
  parse_pattern fuel pat = parse_pattern (parse_fuel (length pat)) pat
  /\ (parse_pattern fuel pat = Undef
      \/ exists r s, parse_pattern fuel pat = Ok r s).
Proof.
  intros Hf.
  assert (forall n, parse_fuel (length pat) <= n ->
            parsed 0 (length pat) (parse_pattern n pat)) as Hn.
  { intros n Hle. destruct (parse_total n) as [Ha [Ho _]].
    unfold parse_pattern. cbv zeta. apply parsed_bind.
    - unfold parse_fuel in Hle.
      destruct (Ascii.eqb (cur (mkPState pat 0 [])) "["%char).
      + apply (Ha (mkPState pat 0 [])). cbn [pbuf ppos]. lia.
      + destruct (Ascii.eqb (cur (mkPState pat 0 [])) "{"%char).
        * apply (Ho (mkPState pat 0 [])). cbn [pbuf ppos]. lia.
        * parsed_ok.
    - intros [op|] s1 _ H1 H2; parsed_ok. }
  pose proof (Hn _ (Nat.le_refl _)) as H0.
  pose proof (Hn _ Hf) as H1.
  destruct (parse_pattern_mono pat Hf) as [E|E].
  - rewrite E in H0. contradiction.
  - split; [symmetry; exact E|].
    destruct (parse_pattern fuel pat) as [r s| | |]; cbn [parsed] in H1;
      [right; eauto|contradiction|left; reflexivity|contradiction].
Qed.

Lemma parse_pattern_terminates_witness :
  parse_pattern 100 (B "[{id,vals[*]}]")
  = parse_pattern (parse_fuel 14) (B "[{id,vals[*]}]").
Proof.
  apply (@parse_pattern_terminates (B "[{id,vals[*]}]") 100).
  vm_compute. lia.
Defined.

(** A property with an empty name in front of [{] or [[]: [parse_property]
    returns NULL and [prop->op] is written through it. *)
Lemma parse_props_null_prop fuel table prop s :
  Ascii.eqb (cur (adv s)) "["%char || Ascii.eqb (cur (adv s)) "{"%char = true ->
  2 * (length (pbuf s) - ppos s) + 1 <= fuel ->
  parse_props fuel table prop s = Undef.
Proof.
  intros Hc Hf. destruct fuel as [|f]; [lia|].
  destruct (parse_total f) as [Ha [Ho _]].
  assert (ppos (adv s) < length (pbuf s)) as Hlt.
  { apply orb_true_iff in Hc. destruct Hc as [Hc|Hc];
      apply (cur_lt _ Hc); discriminate. }
  cbn [adv ppos] in Hlt.
  assert (strcspn (skipn (S (ppos s)) (pbuf s)) (B ",[]{}") = 0) as Hn.
  { unfold cur in Hc. cbn [adv ppos pbuf] in Hc.
    rewrite <- (firstn_skipn (S (ppos s)) (pbuf s)) in Hc at 1 2.
    rewrite app_nth2 in Hc by (rewrite length_firstn; lia).
    rewrite length_firstn in Hc.
    replace (S (ppos s) - Nat.min (S (ppos s)) (length (pbuf s))) with 0 in Hc by lia.
    destruct (skipn (S (ppos s)) (pbuf s)) as [|c r]; [reflexivity|].
    cbn [nth] in Hc. cbn [strcspn].
    apply orb_true_iff in Hc. destruct Hc as [Hc|Hc];
      apply Ascii.eqb_eq in Hc; subst c; reflexivity. }
  cbn [parse_props]. cbv zeta. unfold parse_property.
  assert (Ascii.eqb (cur (adv s)) DQUOTE = false) as Hq.
  { apply orb_true_iff in Hc. destruct Hc as [Hc|Hc];
      apply Ascii.eqb_eq in Hc; rewrite Hc; reflexivity. }
  rewrite Hq. cbv zeta. cbn [adv ppos pbuf ptabs]. rewrite Hn.
  rewrite Nat.add_0_r, Nat.eqb_refl. cbn [bind ppos].
  change (mkPState (pbuf s) (S (ppos s)) (ptabs s)) with (adv s).
  apply orb_true_iff in Hc. destruct Hc as [Hc|Hc].
  - pose proof Hc as Hc'. apply Ascii.eqb_eq in Hc'. rewrite Hc'.
    cbn [Ascii.eqb Bool.eqb orb andb].
    change (Ascii.eqb "["%char NUL) with false. cbv iota.
    change ("["%char =? ","%char)%char with false.
    change ("["%char =? "}"%char)%char with false.
    change ("["%char =? "{"%char)%char with false.
    change ("["%char =? "["%char)%char with true. cbn [orb]. cbv iota.
    pose proof (Ha (adv s)) as H. cbn [adv pbuf ppos] in H.
    specialize (H ltac:(lia)).
    change (mkPState (pbuf s) (S (ppos s)) (ptabs s)) with (adv s) in H.
    destruct (parse_array f (adv s)); cbn [parsed] in H; try contradiction;
      reflexivity.
  - pose proof Hc as Hc'. apply Ascii.eqb_eq in Hc'. rewrite Hc'.
    change ("{"%char =? ","%char)%char with false.
    change ("{"%char =? "}"%char)%char with false.
    change ("{"%char =? NUL)%char with false.
    change ("{"%char =? "{"%char)%char with true. cbn [orb]. cbv iota.
    pose proof (Ho (adv s)) as H. cbn [adv pbuf ppos] in H.
    specialize (H ltac:(lia)).
    change (mkPState (pbuf s) (S (ppos s)) (ptabs s)) with (adv s) in H.
    destruct (parse_object f (adv s)); cbn [parsed] in H; try contradiction;
      reflexivity.
Qed.

(** X11. A pattern that opens an object and goes on with [[] or [{], that
    is with a property whose name is empty, makes the program run into
    undefined behaviour: [parse_property] returns NULL for the empty name
    and [parse_object] stores the operator of the property through that
    pointer. *)
Theorem empty_name_before_container_crashes (fuel : nat) (fs rest stdin : bytes)
    (c : ascii) :
  c = "["%char \/ c = "{"%char ->
  parse_fuel (length ("{"%char :: c :: rest)) <= fuel ->
  parse_pattern fuel ("{"%char :: c :: rest) = Undef
  /\ main fuel fs ("{"%char :: c :: rest) stdin = Crash.
Proof.
  intros Hc Hf.
  assert (parse_pattern fuel ("{"%char :: c :: rest) = Undef) as Hp.
  { unfold parse_pattern. cbv zeta.
    change (cur (mkPState ("{"%char :: c :: rest) 0 [])) with "{"%char.
    change ("{"%char =? "["%char)%char with false.
    change ("{"%char =? "{"%char)%char with true. cbv iota.
    destruct fuel as [|f]; [unfold parse_fuel in Hf; lia|].
    cbn [parse_object].
    change (cur (mkPState ("{"%char :: c :: rest) 0 [])) with "{"%char.
    change ("{"%char =? "{"%char)%char with true. cbn [negb]. cbv iota.
    rewrite parse_props_null_prop; [reflexivity| |].
    - change (cur (adv (mkPState ("{"%char :: c :: rest) 0 []))) with c.
      destruct Hc as [-> | ->]; reflexivity.
    - unfold parse_fuel in Hf. cbn [pbuf ppos]. lia. }
  split; [exact Hp|]. unfold main. rewrite Hp. reflexivity.
Qed.

Lemma empty_name_before_container_crashes_witness :
  main 20 [TAB] (B "{[*]}") (B "{}") = Crash.
Proof.
  apply (@empty_name_before_container_crashes 20 [TAB] (B "*]}") (B "{}") "["%char).
  - left. reflexivity.
  - vm_compute. lia.
Defined.

(** X12. Patterns the compiler rejects.  A pattern that starts with
    neither [[] nor [{] (the empty pattern too), an array pattern whose
    [[] is followed by none of [*], [[] and [{], an object pattern whose
    first property name is empty and ends the pattern or is followed by
    [,] or [}]: each makes the program die with "invalid pattern" before
    it reads any input. *)
Theorem rejected_patterns (fuel : nat) (fs pat stdin : bytes) :
  2 <= fuel ->
  (match pat with
   | [] => True
   | c :: rest =>
       (c <> "["%char /\ c <> "{"%char)
       \/ (c = "["%char
           /\ match rest with
              | [] => True
              | d :: _ => d <> "*"%char /\ d <> "["%char /\ d <> "{"%char
              end)
       \/ (c = "{"%char
           /\ match rest with
              | [] => True
              | d :: _ => d = ","%char \/ d = "}"%char \/ d = NUL
              end)
   end) ->
  main fuel fs pat stdin = ExitDie "invalid pattern" [].
Proof.
  intros Hf Hpat.
  assert (parse_pattern fuel pat = Ok None (mkPState pat 0 [])
          \/ exists s, parse_pattern fuel pat = Ok None s) as Hp.
  { destruct fuel as [|[|f]]; [lia|lia|].
    destruct pat as [|c rest]; [left; reflexivity|].
    destruct Hpat as [[H1 H2] | [[-> Hr] | [-> Hr]]].
    - left. unfold parse_pattern. cbv zeta.
      change (cur (mkPState (c :: rest) 0 [])) with c.
      apply Ascii.eqb_neq in H1, H2. rewrite H1, H2. reflexivity.
    - right. unfold parse_pattern. cbv zeta.
      change (cur (mkPState ("["%char :: rest) 0 [])) with "["%char.
      change ("["%char =? "["%char)%char with true. cbv iota.
      cbn [parse_array]. cbv zeta.
      change (cur (mkPState ("["%char :: rest) 0 [])) with "["%char.
      change ("["%char =? "["%char)%char with true. cbn [negb]. cbv iota.
      destruct rest as [|d r].
      + eexists. reflexivity.
      + change (cur (adv (mkPState ("["%char :: d :: r) 0 []))) with d.
        destruct Hr as [H1 [H2 H3]].
        apply Ascii.eqb_neq in H1, H2, H3. rewrite H1, H2, H3.
        eexists. reflexivity.
    - right. unfold parse_pattern. cbv zeta.
      change (cur (mkPState ("{"%char :: rest) 0 [])) with "{"%char.
      change ("{"%char =? "["%char)%char with false.
      change ("{"%char =? "{"%char)%char with true. cbv iota.
      cbn [parse_object].
      change (cur (mkPState ("{"%char :: rest) 0 [])) with "{"%char.
      change ("{"%char =? "{"%char)%char with true. cbn [negb]. cbv iota.
      cbn [parse_props]. cbv zeta. unfold parse_property.
      destruct rest as [|d r].
      + eexists. reflexivity.
      + change (cur (adv (mkPState ("{"%char :: d :: r) 0 []))) with d.
        cbn [adv ppos pbuf skipn strcspn].
        destruct Hr as [-> | [-> | ->]]; eexists; reflexivity. }
  unfold main. destruct Hp as [Hp | [s Hp]]; rewrite Hp; reflexivity.
Qed.

Lemma rejected_patterns_witness :
  main 2 [TAB] (B "{}") (B "{}") = ExitDie "invalid pattern" [].
Proof.
  apply (@rejected_patterns 2 [TAB] (B "{}") (B "{}")).
  - lia.
  - right. right. split; [reflexivity|]. right. left. reflexivity.
Defined.

(** ** Tokens *)

Lemma next_token_at i b t :
  Lex.next_token (lexer_at i b t)
  = (Lex.read_token (lexer_reset i b t) ;;; finish_token).
Proof.
  unfold Lex.next_token, lexer_at, lexer_reset, finish_token, fresh_text.
  cbn [peek token ltext Lex.with_token].
  destruct (0 <? len b); reflexivity.
Qed.

Lemma skip_ws_all_ws_prefix sp i b t p :
  all_ws sp ->
  Lex.skip_ws (S (S (length (sp ++ i)))) (mkLexer (sp ++ i) NUL b t p)
  = Lex.skip_ws (S (S (length i))) (mkLexer i NUL b t p).
Proof.
  induction 1 as [|c sp Hc Hsp IH]; [reflexivity|].
  cbn [app length]. rewrite <- IH.
  remember (S (S (length (sp ++ i)))) as f.
  cbn [Lex.skip_ws]. unfold Lex.read_char. cbn [unread input].
  change (negb (Ascii.eqb NUL NUL)) with false. cbv iota.
  rewrite Hc. reflexivity.
Qed.

(** X13. White space before a token is skipped: with blanks, tabs, line
    feeds and carriage returns in front of the stream, [next_token] returns
    what it returns without them, token, state and error alike. *)
Theorem whitespace_is_skipped (sp i : bytes) (b : Buf) (t : Token) :
  all_ws sp ->
  Lex.next_token (lexer_at (sp ++ i) b t) = Lex.next_token (lexer_at i b t).
Proof.
  intros Hsp. rewrite !next_token_at. f_equal.
  unfold Lex.read_token, Lex.lex_fuel, lexer_reset. cbn [input].
  rewrite (skip_ws_all_ws_prefix i (fresh_text b) (mkToken (type t) None) false Hsp).
  reflexivity.
Qed.

Lemma whitespace_is_skipped_witness :
  Lex.next_token (lexer_at ([" "%char; LF; TAB; CR] ++ B "true,") buf0 (tok T_MEMBERSEP (B ",")))
  = Lex.next_token (lexer_at (B "true,") buf0 (tok T_MEMBERSEP (B ","))).
Proof.
  apply whitespace_is_skipped. repeat constructor.
Defined.

(** X14. A NUL byte in the stream is read as the end of the stream:
    [next_token] returns an [Eof] token with an empty text, and the bytes
    after the NUL stay in the stream. *)
Theorem nul_byte_reads_as_eof (rest : bytes) (b : Buf) (t : Token) :
  buf_wf b ->
  Lex.next_token (lexer_at (NUL :: rest) b t)
  = Ok (tok T_EOF []) (lexer_at rest (fresh_text b) (tok T_EOF []))
  /\ Lex.next_token (lexer_at [] b t)
     = Ok (tok T_EOF []) (lexer_at [] (fresh_text b) (tok T_EOF [])).
Proof.
  intros Hwf. destruct (fresh_text_wf Hwf) as [_ Hc].
  split; rewrite next_token_at; unfold lexer_reset, lexer_at, tok;
    cbn; unfold Lex.set_text, finish_token; cbn; rewrite Hc; reflexivity.
Qed.

Lemma nul_byte_reads_as_eof_witness :
  Lex.next_token (lexer_at (NUL :: B "[1]") buf0 (tok T_ENDARRAY (B "]")))
  = Ok (tok T_EOF []) (lexer_at (B "[1]") buf0 (tok T_EOF [])).
Proof.
  apply (proj1 (@nul_byte_reads_as_eof (B "[1]") buf0 (tok T_ENDARRAY (B "]")) eq_refl)).
Defined.

(** X15. A byte that starts no token is fatal: when the first byte of the
    stream is not white space, none of [{ } : , [ ]], not [t], [f], [n],
    the quote, the minus sign or a digit, and not NUL, [next_token] dies
    with "unexpected character". *)
Theorem unexpected_character (c : ascii) (rest : bytes) (b : Buf) (t : Token) :
  memchr token_start c = false ->
  Lex.next_token (lexer_at (c :: rest) b t)
  = Die "unexpected character" (lexer_reset rest b t).
Proof.
  intros Hc. unfold memchr, token_start in Hc.
  cbn [existsb app Lex.ws B list_ascii_of_string] in Hc.
  repeat match type of Hc with
  | _ || _ = false =>
      let H := fresh "H" in
      apply orb_false_iff in Hc; destruct Hc as [H Hc]
  end.
  rewrite next_token_at. unfold Lex.read_token, Lex.lex_fuel, lexer_reset.
  cbn [input length Lex.skip_ws]. unfold Lex.read_char. cbn [unread input].
  change (negb (Ascii.eqb NUL NUL)) with false. cbv iota.
  unfold memchr. cbn [existsb Lex.ws].
  repeat match goal with
  | H : Ascii.eqb c _ = false |- _ => rewrite H
  end.
  cbn [orb bind]. unfold Lex.is_1to9, memchr.
  cbn [existsb B list_ascii_of_string].
  repeat match goal with
  | H : Ascii.eqb c _ = false |- _ => rewrite ?H; clear H
  end.
  reflexivity.
Qed.

Lemma unexpected_character_witness :
  Lex.next_token (lexer_at (B "'a'") buf0 (tok T_MEMBERSEP (B ",")))
  = Die "unexpected character" (lexer_reset (B "a'") buf0 (tok T_MEMBERSEP (B ","))).
Proof.
  apply unexpected_character. reflexivity.
Defined.

Lemma read_literal_from_mismatch p : forall x q rest l,
  at_input l (p ++ rest) -> hd NUL rest <> x ->
  exists l', Lex.read_literal_from (p ++ x :: q) l = Die "error matching literal" l'.
Proof.
  induction p as [|a p IH]; intros x q rest l Hin Hx; cbn [app Lex.read_literal_from].
  - apply not_eq_sym in Hx. apply Ascii.eqb_neq in Hx.
    destruct rest as [|c rest]; cbn [hd] in Hx.
    + rewrite (read_char_eof Hin).
      rewrite Ascii.eqb_sym, Hx. cbn [negb]. eexists. reflexivity.
    + rewrite (read_char_input Hin).
      rewrite Ascii.eqb_sym, Hx. cbn [negb]. eexists. reflexivity.
  - cbn [app] in Hin. rewrite (read_char_input Hin).
    rewrite Ascii.eqb_refl. cbn [negb].
    apply (IH x q rest). split; [apply Hin|reflexivity]. exact Hx.
Qed.

(** X16. The literal names.  [true], [false] and [null] are tokens of type
    Bool, Bool and Null whose text is the name, whatever byte follows: the
    lexer reads the letters of the name and looks no further.  When a byte
    after the first differs from the name, the end of the stream included,
    [next_token] dies with "error matching literal". *)
Theorem literal_tokens (v : bytes) (ty : TokenType) (b : Buf) (t : Token) :
  In (v, ty) literal_names ->
  (forall rest,
     Lex.next_token (lexer_at (v ++ rest) b t)
     = Ok (tok ty v) (lexer_at rest (fresh_text b) (tok ty v)))
  /\ (forall p x q rest,
        v = p ++ x :: q -> p <> [] -> hd NUL rest <> x ->
        exists l', Lex.next_token (lexer_at (p ++ rest) b t)
                   = Die "error matching literal" l').
Proof.
  intros Hin. split.
  - intros rest. rewrite next_token_at.
    destruct Hin as [H|[H|[H|[]]]]; inversion H; subst; reflexivity.
  - intros p x q rest Hv Hp Hx. rewrite next_token_at.
    destruct p as [|c0 p]; [congruence|]. clear Hp.
    destruct Hin as [H|[H|[H|[]]]]; inversion H as [[H1 H2]];
      rewrite <- H1 in Hv; clear H H1 H2;
      cbn [B list_ascii_of_string app] in Hv; inversion Hv as [[H0 H1]];
      cbn [app];
      match goal with
      | |- context [Lex.read_token (lexer_reset (?c :: ?i) b t)] =>
          first
            [ change (Lex.read_token (lexer_reset (c :: i) b t))
                with (Lex.read_literal (B "true") 1
                        (Lex.set_type T_BOOL (lexer_reset i b t)))
            | change (Lex.read_token (lexer_reset (c :: i) b t))
                with (Lex.read_literal (B "false") 1
                        (Lex.set_type T_BOOL (lexer_reset i b t)))
            | change (Lex.read_token (lexer_reset (c :: i) b t))
                with (Lex.read_literal (B "null") 1
                        (Lex.set_type T_NULL (lexer_reset i b t))) ]
      end;
      unfold Lex.read_literal; cbn [skipn B list_ascii_of_string];
      rewrite H1;
      match goal with
      | |- context [Lex.read_literal_from _ ?l] =>
          destruct (@read_literal_from_mismatch p x q rest l) as [l' Hl];
            [split; reflexivity|exact Hx|rewrite Hl]
      end;
      cbn [bind]; eexists; reflexivity.
Qed.

Lemma literal_tokens_witness :
  Lex.next_token (lexer_at (B "null" ++ B "x") buf0 (tok T_MEMBERSEP (B ",")))
  = Ok (tok T_NULL (B "null")) (lexer_at (B "x") buf0 (tok T_NULL (B "null"))).
Proof.
  apply (proj1 (@literal_tokens (B "null") T_NULL buf0 (tok T_MEMBERSEP (B ","))
                  ltac:(right; right; left; reflexivity)) (B "x")).
Defined.

(** ** Strings that go wrong *)

Lemma read_char_hd l rest :
  at_input l rest -> exists l', Lex.read_char l = (hd NUL rest, l').
Proof.
  intros Hin. destruct rest as [|c rest].
  - rewrite (read_char_eof Hin). eexists. reflexivity.
  - rewrite (read_char_input Hin). eexists. reflexivity.
Qed.

(** The loop of [after_quote] over a well-formed part of a string body. *)
Lemma after_quote_loop_prefix body :
  str_body body ->
  forall fuel l rest,
    at_input l (body ++ rest) -> length body < fuel ->
    exists f',
      fuel - length body <= f'
      /\ Lex.after_quote_loop fuel l
         = Lex.after_quote_loop f' (with_input (append_texts body l) rest).
Proof.
  induction 1 as [|i s Hi Hs IH]; intros fuel l rest Hin Hf.
  - exists fuel. split; [cbn [length]; lia|].
    cbn [append_texts fold_left]. rewrite with_input_same; [reflexivity|apply Hin].
  - destruct fuel as [|f]; [lia|]. cbn [Lex.after_quote_loop].
    pose proof (proj1 Hin) as Hu.
    destruct Hi as [c Hq Hb Hc | x Hx | h1 h2 h3 h4 H1 H2 H3 H4].
    + cbn [app] in Hin. rewrite (read_char_input Hin).
      rewrite (not_control_not_nul _ Hc), Hq, Hb, Hc.
      destruct (IH f (Lex.append_text c (with_input l (s ++ rest))) rest)
        as [f' [Hle Heq]].
      * split; [exact Hu|reflexivity].
      * cbn [app length] in Hf. lia.
      * exists f'. split; [cbn [app length]; lia|]. rewrite Heq.
        rewrite append_text_with_input, append_texts_with_input. reflexivity.
    + cbn [app] in Hin. rewrite (read_char_input Hin).
      change (Ascii.eqb BACKSLASH NUL) with false.
      change (Ascii.eqb BACKSLASH DQUOTE) with false.
      change (Ascii.eqb BACKSLASH BACKSLASH) with true. cbv iota.
      unfold Lex.after_slash.
      rewrite (@read_char_input _ x (s ++ rest)), Hx;
        [|split; [exact Hu|reflexivity]].
      cbn [bind].
      match goal with
      | |- context [Lex.after_quote_loop f ?l1] =>
          destruct (IH f l1 rest) as [f' [Hle Heq]]
      end.
      * split; [exact Hu|reflexivity].
      * cbn [app length] in Hf. lia.
      * exists f'. split; [cbn [app length]; lia|]. rewrite Heq.
        rewrite !append_text_with_input, !with_input_twice,
          append_texts_with_input. reflexivity.
    + cbn [app] in Hin. rewrite (read_char_input Hin).
      change (Ascii.eqb BACKSLASH NUL) with false.
      change (Ascii.eqb BACKSLASH DQUOTE) with false.
      change (Ascii.eqb BACKSLASH BACKSLASH) with true. cbv iota.
      unfold Lex.after_slash.
      rewrite (@read_char_input _ "u"%char (h1 :: h2 :: h3 :: h4 :: s ++ rest));
        [|split; [exact Hu|reflexivity]].
      change (memchr Lex.valid_escapes "u"%char) with false.
      change (Ascii.eqb "u"%char "u"%char) with true. cbv iota.
      rewrite (@xdigit_read _ h1 (h2 :: h3 :: h4 :: s ++ rest));
        [|split; [exact Hu|reflexivity]|exact H1].
      rewrite (@xdigit_read _ h2 (h3 :: h4 :: s ++ rest));
        [|split; [exact Hu|reflexivity]|exact H2].
      rewrite (@xdigit_read _ h3 (h4 :: s ++ rest));
        [|split; [exact Hu|reflexivity]|exact H3].
      rewrite (@xdigit_read _ h4 (s ++ rest));
        [|split; [exact Hu|reflexivity]|exact H4].
      cbn [Lex.hex_digits bind].
      match goal with
      | |- context [Lex.after_quote_loop f ?l1] =>
          destruct (IH f l1 rest) as [f' [Hle Heq]]
      end.
      * split; [exact Hu|reflexivity].
      * cbn [app length] in Hf. lia.
      * exists f'. split; [cbn [app length]; lia|]. rewrite Heq.
        rewrite !append_text_with_input, !with_input_twice,
          append_texts_with_input. reflexivity.
Qed.

Lemma hex_digits_bad hs : forall k l rest,
  length hs < k -> Forall (fun h => Lex.isxdigit h = true) hs ->
  Lex.isxdigit (hd NUL rest) = false -> at_input l (hs ++ rest) ->
  exists l', Lex.hex_digits k l = Die "not a hex character" l'.
Proof.
  induction hs as [|h hs IH]; intros k l rest Hk Hhs Hbad Hin;
    (destruct k as [|k]; [cbn [length] in Hk; lia|]).
  - cbn [app] in Hin. cbn [Lex.hex_digits].
    destruct (read_char_hd Hin) as [l' Hl]. rewrite Hl, Hbad.
    eexists. reflexivity.
  - inversion Hhs as [|? ? Hh Hhs']; subst.
    cbn [app] in Hin. rewrite (xdigit_read Hin Hh).
    apply (IH k _ rest); [cbn [length] in Hk; lia|exact Hhs'|exact Hbad|].
    split; [apply Hin|reflexivity].
Qed.

(** X17. Strings that go wrong.  After the opening quote and any
    well-formed part of a string body, the end of the stream makes
    [next_token] die with "non-terminated string", a control byte with
    "control character in string", a backslash before a byte that is no
    escape character with "invalid escape character", and [\u] before
    fewer than four hex digits with "not a hex character". *)
Theorem string_errors (body tail : bytes) (msg : string) (b : Buf) (t : Token) :
  str_body body -> bad_string_end tail msg ->
  exists l', Lex.next_token (lexer_at (DQUOTE :: body ++ tail) b t) = Die msg l'.
Proof.
  intros Hbody Hbad. rewrite next_token_at.
  change (Lex.read_token (lexer_reset (DQUOTE :: body ++ tail) b t))
    with (Lex.after_quote (Lex.set_type T_STRING (lexer_reset (body ++ tail) b t))).
  unfold Lex.after_quote, Lex.lex_fuel.
  set (l := Lex.set_type T_STRING (lexer_reset (body ++ tail) b t)).
  assert (at_input l (body ++ tail)) as Hin by (split; reflexivity).
  change (input l) with (body ++ tail).
  destruct (@after_quote_loop_prefix body Hbody (S (S (length (body ++ tail)))) l
              tail Hin) as [f' [Hle Heq]];
    [rewrite length_app; lia|].
  rewrite Heq. rewrite length_app in Hle.
  destruct f' as [|f]; [lia|].
  set (l1 := with_input (append_texts body l) tail).
  assert (unread l1 = NUL) as Hu1.
  { unfold l1. rewrite (append_texts_frame body l). reflexivity. }
  assert (forall r, input l1 = r -> at_input l1 r) as Hat
    by (intros r Hr; split; [exact Hu1|exact Hr]).
  cbn [Lex.after_quote_loop].
  destruct Hbad as [|rest|c rest Hc Hn|rest Hv Hu|hs rest Hlen Hhs Hx].
  - rewrite (@read_char_eof l1 (Hat _ eq_refl)).
    change (Ascii.eqb NUL NUL) with true. cbv iota. cbn [bind].
    eexists. reflexivity.
  - rewrite (@read_char_input l1 NUL rest (Hat _ eq_refl)).
    change (Ascii.eqb NUL NUL) with true. cbv iota. cbn [bind].
    eexists. reflexivity.
  - rewrite (@read_char_input l1 c rest (Hat _ eq_refl)).
    apply Ascii.eqb_neq in Hn. rewrite Hn.
    assert (Ascii.eqb c DQUOTE = false) as Hq.
    { apply Ascii.eqb_neq. intros ->. discriminate. }
    assert (Ascii.eqb c BACKSLASH = false) as Hb.
    { apply Ascii.eqb_neq. intros ->. discriminate. }
    rewrite Hq, Hb, Hc. cbn [bind]. eexists. reflexivity.
  - rewrite (@read_char_input l1 BACKSLASH rest (Hat _ eq_refl)).
    change (Ascii.eqb BACKSLASH NUL) with false.
    change (Ascii.eqb BACKSLASH DQUOTE) with false.
    change (Ascii.eqb BACKSLASH BACKSLASH) with true. cbv iota.
    unfold Lex.after_slash.
    match goal with
    | |- context [Lex.read_char ?l2] =>
        destruct (@read_char_hd l2 rest) as [l' Hl];
          [split; [exact Hu1|reflexivity]|rewrite Hl]
    end.
    apply Ascii.eqb_neq in Hu. rewrite Hv, Hu. cbn [bind].
    eexists. reflexivity.
  - rewrite (@read_char_input l1 BACKSLASH ("u"%char :: hs ++ rest) (Hat _ eq_refl)).
    change (Ascii.eqb BACKSLASH NUL) with false.
    change (Ascii.eqb BACKSLASH DQUOTE) with false.
    change (Ascii.eqb BACKSLASH BACKSLASH) with true. cbv iota.
    unfold Lex.after_slash.
    rewrite (@read_char_input _ "u"%char (hs ++ rest));
      [|split; [exact Hu1|reflexivity]].
    change (memchr Lex.valid_escapes "u"%char) with false.
    change (Ascii.eqb "u"%char "u"%char) with true. cbv iota.
    match goal with
    | |- context [Lex.hex_digits 4 ?l2] =>
        destruct (@hex_digits_bad hs 4 l2 rest Hlen Hhs Hx) as [l' Hl];
          [split; [exact Hu1|reflexivity]|rewrite Hl]
    end.
    cbn [bind]. eexists. reflexivity.
Qed.

Lemma string_errors_witness :
  exists l',
    Lex.next_token (lexer_at (DQUOTE :: B "ab" ++ [BACKSLASH; "x"%char; DQUOTE])
                      buf0 (tok T_MEMBERSEP (B ",")))
    = Die "invalid escape character" l'.
Proof.
  apply (@string_errors (B "ab") [BACKSLASH; "x"%char; DQUOTE]
           "invalid escape character" buf0 (tok T_MEMBERSEP (B ","))).
  - apply (@body_cons ["a"%char] ["b"%char]); [now constructor|].
    apply (@body_cons ["b"%char] []); [now constructor|constructor].
  - apply bad_escape; [reflexivity|discriminate].
Defined.

(** ** Numbers *)

Lemma append_texts_lexer_on cs : forall l i,
  append_texts cs (lexer_on l i) = lexer_on (append_texts cs l) i.
Proof.
  induction cs as [|c cs IH]; intros l i; [reflexivity|].
  cbn [append_texts fold_left].
  change (Lex.append_text c (lexer_on l i)) with (lexer_on (Lex.append_text c l) i).
  apply IH.
Qed.

Lemma pushed_back_eof l : at_input l [] -> pushed_back l [] = l.
Proof.
  destruct l as [i u b t p]. intros [Hu Hi]. cbn in Hu, Hi. subst. reflexivity.
Qed.

Lemma read_char_pushed_back l c r :
  c <> NUL -> Lex.read_char (pushed_back l (c :: r)) = (c, lexer_on l r).
Proof.
  intros Hc. apply Ascii.eqb_neq in Hc.
  unfold Lex.read_char, pushed_back. cbn [unread hd tl input ltext token peek].
  rewrite Hc. reflexivity.
Qed.

Lemma is_e_facts e :
  Lex.is_e e = true ->
  e <> NUL /\ Lex.is_digit e = false /\ Ascii.eqb e "."%char = false
  /\ Ascii.eqb e NUL = false.
Proof.
  unfold Lex.is_e. intros H. apply orb_true_iff in H.
  destruct H as [H|H]; apply Ascii.eqb_eq in H; subst;
    (split; [discriminate|split; [reflexivity|split; reflexivity]]).
Qed.

Lemma digit_facts d :
  Lex.is_digit d = true ->
  Ascii.eqb d NUL = false /\ Ascii.eqb d "."%char = false
  /\ Ascii.eqb d "+"%char || Ascii.eqb d "-"%char = false.
Proof.
  intros H. split; [apply digit_not_nul; exact H|].
  split.
  - destruct (Ascii.eqb d "."%char) eqn:E; [|reflexivity].
    apply Ascii.eqb_eq in E. subst. discriminate.
  - destruct (Ascii.eqb d "+"%char) eqn:E1;
      [apply Ascii.eqb_eq in E1; subst; discriminate|].
    destruct (Ascii.eqb d "-"%char) eqn:E2;
      [apply Ascii.eqb_eq in E2; subst; discriminate|]. reflexivity.
Qed.

(** [append_digits] over the digits [ds] before a byte that is no digit. *)
Lemma append_digits_from_stop ds : forall fuel n l rest,
  at_input l (ds ++ rest) -> all_digits ds -> digits_end rest ->
  length ds < fuel -> (n + Z.of_nat (length ds) <= Lex.INT_MAX)%Z ->
  Lex.append_digits_from fuel n l
  = Ok (n + Z.of_nat (length ds))%Z (pushed_back (append_texts ds l) rest).
Proof.
  induction ds as [|d ds IH]; intros fuel n l rest Hin Hd Hend Hf Hn;
    (destruct fuel as [|f]; [simpl in Hf; lia|]); cbn [Lex.append_digits_from].
  - cbn [app] in Hin. cbn [length Z.of_nat append_texts fold_left].
    rewrite Z.add_0_r. destruct rest as [|c r].
    + rewrite (read_char_eof Hin). change (Ascii.eqb NUL NUL) with true.
      cbv iota. rewrite (pushed_back_eof Hin). reflexivity.
    + rewrite (read_char_input Hin). destruct Hend as [Hc Hnd].
      apply Ascii.eqb_neq in Hc. rewrite Hc, Hnd. reflexivity.
  - cbn [app] in Hin. rewrite (read_char_input Hin).
    inversion Hd as [|d0 ds0 Hdig Hds]; subst.
    rewrite (digit_not_nul _ Hdig), Hdig.
    cbn [length] in Hn, Hf. rewrite Nat2Z.inj_succ in Hn.
    replace (n =? Lex.INT_MAX)%Z with false by (symmetry; apply Z.eqb_neq; lia).
    rewrite (IH f (n + 1)%Z _ rest).
    + f_equal; [cbn [length]; lia|].
      rewrite append_text_with_input, append_texts_with_input. reflexivity.
    + split; [apply Hin|reflexivity].
    + exact Hds.
    + exact Hend.
    + lia.
    + lia.
Qed.

Lemma append_digits_stop ds l rest :
  at_input l (ds ++ rest) -> all_digits ds -> digits_end rest ->
  (Z.of_nat (length ds) <= Lex.INT_MAX)%Z ->
  Lex.append_digits l
  = Ok (Z.of_nat (length ds)) (pushed_back (append_texts ds l) rest).
Proof.
  intros Hin Hd Hend Hn. unfold Lex.append_digits.
  rewrite (@append_digits_from_stop ds _ 0%Z l rest); auto.
  unfold Lex.lex_fuel. destruct Hin as [_ ->]. rewrite length_app. lia.
Qed.

Lemma ends_number_digits_end rest : ends_number rest -> digits_end rest.
Proof. destruct rest; [auto|]. intros [H1 [H2 _]]. split; assumption. Qed.

(** [after_exp], called after the [e] has gone to the lexeme. *)
Lemma after_exp_ok l e tail rest :
  exp_part (e :: tail) -> ends_number rest -> at_input l (tail ++ rest) ->
  (Z.of_nat (length tail) <= Lex.INT_MAX)%Z ->
  Lex.after_exp l = Ok tt (pushed_back (append_texts tail l) rest).
Proof.
  intros Hexp Hend Hin Hn.
  pose proof (ends_number_digits_end _ Hend) as Hde.
  inversion Hexp as [|e0 ds He Hds Hne|e0 sg ds He Hsg Hds Hne]; subst.
  - destruct tail as [|d ds]; [congruence|].
    inversion Hds as [|d0 ds0 Hdig Hds']; subst.
    cbn [app] in Hin. unfold Lex.after_exp. rewrite (read_char_input Hin).
    destruct (digit_facts _ Hdig) as [H1 [_ H3]]. rewrite H1, H3, Hdig.
    rewrite (@append_digits_stop ds _ rest).
    + cbn [bind]. rewrite append_text_with_input, append_texts_with_input.
      reflexivity.
    + split; [apply Hin|reflexivity].
    + exact Hds'.
    + exact Hde.
    + cbn [length] in Hn. lia.
  - cbn [app] in Hin. unfold Lex.after_exp. rewrite (read_char_input Hin).
    assert (Ascii.eqb sg NUL = false) as E1 by (destruct Hsg; subst; reflexivity).
    assert (Ascii.eqb sg "+"%char || Ascii.eqb sg "-"%char = true) as E2
      by (destruct Hsg; subst; reflexivity).
    rewrite E1, E2.
    rewrite (@append_digits_stop ds _ rest).
    + cbn [bind]. destruct ds as [|d ds']; [congruence|].
      replace (Z.of_nat (length (d :: ds')) =? 0)%Z with false
        by (symmetry; apply Z.eqb_neq; cbn [length]; lia).
      rewrite append_text_with_input, append_texts_with_input. reflexivity.
    + split; [apply Hin|reflexivity].
    + exact Hds.
    + exact Hde.
    + cbn [length] in Hn. lia.
Qed.

Lemma exp_part_digits_end ex rest :
  exp_part ex -> ends_number rest -> digits_end (ex ++ rest).
Proof.
  intros Hex Hend. destruct ex as [|e tail].
  - apply ends_number_digits_end. exact Hend.
  - assert (Lex.is_e e = true) as He by (inversion Hex; assumption).
    destruct (is_e_facts _ He) as [H1 [H2 _]]. split; assumption.
Qed.

(** What follows the digits of a fraction: an exponent or the end. *)
Lemma after_frac_ok l ds ex rest :
  all_digits ds -> ds <> [] -> exp_part ex -> ends_number rest ->
  at_input l (ds ++ ex ++ rest) ->
  (Z.of_nat (length (ds ++ ex)) <= Lex.INT_MAX)%Z ->
  Lex.after_frac l = Ok tt (pushed_back (append_texts (ds ++ ex) l) rest).
Proof.
  intros Hds Hne Hex Hend Hin Hn. rewrite length_app in Hn.
  unfold Lex.after_frac.
  rewrite (@append_digits_stop ds l (ex ++ rest) Hin Hds
             (@exp_part_digits_end ex rest Hex Hend)) by lia.
  cbn [bind].
  replace (Z.of_nat (length ds) <? 1)%Z with false
    by (symmetry; apply Z.ltb_ge; destruct ds; [congruence|cbn [length]; lia]).
  destruct ex as [|e tail].
  - rewrite app_nil_r. cbn [app]. destruct rest as [|c r].
    + reflexivity.
    + destruct Hend as [H1 [H2 [H3 H4]]].
      rewrite (read_char_pushed_back _ _ H1).
      apply Ascii.eqb_neq in H1. rewrite H1, H4. reflexivity.
  - assert (Lex.is_e e = true) as He by (inversion Hex; assumption).
    destruct (is_e_facts _ He) as [H1 [H2 [H3 H4]]].
    cbn [app]. rewrite (read_char_pushed_back _ _ H1). rewrite H4, He.
    rewrite (@after_exp_ok _ e tail rest Hex Hend).
    + rewrite append_texts_app. cbn [append_texts fold_left].
      change (Lex.append_text e (lexer_on (append_texts ds l) (tail ++ rest)))
        with (lexer_on (Lex.append_text e (append_texts ds l)) (tail ++ rest)).
      fold (append_texts tail (lexer_on (Lex.append_text e (append_texts ds l))
                                (tail ++ rest))).
      rewrite append_texts_lexer_on. reflexivity.
    + split; reflexivity.
    + cbn [length] in Hn. lia.
Qed.

(** What follows the integer part: a fraction, an exponent or the end. *)
Lemma number_tail_cases f ex rest :
  frac_part f -> exp_part ex -> ends_number rest ->
  (f ++ ex ++ rest = [] /\ f = [] /\ ex = [] /\ rest = [])
  \/ (exists c r, f = [] /\ ex = [] /\ rest = c :: r
        /\ Ascii.eqb c NUL = false /\ Lex.is_digit c = false
        /\ Ascii.eqb c "."%char = false /\ Lex.is_e c = false)
  \/ (exists ds, f = "."%char :: ds /\ all_digits ds /\ ds <> [])
  \/ (exists e tail, f = [] /\ ex = e :: tail /\ Lex.is_e e = true).
Proof.
  intros Hf Hex Hend. destruct Hf as [|ds Hds Hne].
  - destruct ex as [|e tail].
    + destruct rest as [|c r]; [left; auto|].
      right. left. destruct Hend as [H1 [H2 [H3 H4]]].
      apply Ascii.eqb_neq in H1, H3. exists c, r. auto 10.
    + right. right. right. exists e, tail.
      split; [reflexivity|split; [reflexivity|inversion Hex; assumption]].
  - right. right. left. exists ds. auto.
Qed.

Lemma after_0_ok l f ex rest :
  frac_part f -> exp_part ex -> ends_number rest ->
  at_input l (f ++ ex ++ rest) ->
  (Z.of_nat (length (f ++ ex)) <= Lex.INT_MAX)%Z ->
  Lex.after_0 l = Ok tt (pushed_back (append_texts (f ++ ex) l) rest).
Proof.
  intros Hf Hex Hend Hin Hn. rewrite length_app in Hn. unfold Lex.after_0.
  destruct (@number_tail_cases f ex rest Hf Hex Hend)
    as [[_ [-> [-> ->]]] | [[c [r [-> [-> [-> [H1 [H2 [H3 H4]]]]]]]]
        | [[ds [-> [Hds Hne]]] | [e [tail [-> [-> He]]]]]]].
  - cbn [app] in *. rewrite (read_char_eof Hin).
    change (Ascii.eqb NUL "."%char) with false.
    change (Lex.is_e NUL) with false.
    change (negb (Ascii.eqb NUL NUL)) with false. cbv iota.
    cbn [append_texts fold_left]. rewrite (pushed_back_eof Hin). reflexivity.
  - cbn [app] in *. rewrite (read_char_input Hin). rewrite H3, H4, H1.
    reflexivity.
  - cbn [app] in Hin. rewrite (read_char_input Hin).
    change (Ascii.eqb "."%char "."%char) with true. cbv iota.
    rewrite (@after_frac_ok _ ds ex rest Hds Hne Hex Hend).
    + cbn [app append_texts fold_left].
      rewrite append_text_with_input.
      fold (append_texts (ds ++ ex)
              (with_input (Lex.append_text "."%char l) (ds ++ ex ++ rest))).
      rewrite append_texts_with_input. reflexivity.
    + split; [apply Hin|reflexivity].
    + rewrite length_app. cbn [length] in Hn. lia.
  - cbn [app] in Hin. rewrite (read_char_input Hin).
    destruct (is_e_facts _ He) as [_ [_ [E3 _]]]. rewrite E3, He.
    rewrite (@after_exp_ok _ e tail rest Hex Hend).
    + cbn [app append_texts fold_left].
      rewrite append_text_with_input.
      fold (append_texts tail (with_input (Lex.append_text e l) (tail ++ rest))).
      rewrite append_texts_with_input. reflexivity.
    + split; [apply Hin|reflexivity].
    + cbn [app length] in Hn. lia.
Qed.

Lemma after_1to9_loop_ok ds : forall fuel l f ex rest,
  all_digits ds -> frac_part f -> exp_part ex -> ends_number rest ->
  at_input l (ds ++ f ++ ex ++ rest) -> length ds < fuel ->
  (Z.of_nat (length (ds ++ f ++ ex)) <= Lex.INT_MAX)%Z ->
  Lex.after_1to9_loop fuel l
  = Ok tt (pushed_back (append_texts (ds ++ f ++ ex) l) rest).
Proof.
  induction ds as [|d ds IH]; intros fuel l f ex rest Hds Hf Hex Hend Hin Hfu Hn;
    (destruct fuel as [|fu]; [simpl in Hfu; lia|]); cbn [Lex.after_1to9_loop].
  - cbn [app] in *. rewrite length_app in Hn.
    destruct (@number_tail_cases f ex rest Hf Hex Hend)
      as [[_ [-> [-> ->]]] | [[c [r [-> [-> [-> [H1 [H2 [H3 H4]]]]]]]]
          | [[fs [-> [Hfs Hne]]] | [e [tail [-> [-> He]]]]]]].
    + cbn [app] in *. rewrite (read_char_eof Hin).
      change (Ascii.eqb NUL NUL) with true. cbv iota.
      cbn [append_texts fold_left]. rewrite (pushed_back_eof Hin). reflexivity.
    + cbn [app] in *. rewrite (read_char_input Hin). rewrite H1, H3, H2, H4.
      reflexivity.
    + cbn [app] in Hin. rewrite (read_char_input Hin).
      change (Ascii.eqb "."%char NUL) with false.
      change (Ascii.eqb "."%char "."%char) with true. cbv iota.
      rewrite (@after_frac_ok _ fs ex rest Hfs Hne Hex Hend).
      * cbn [app append_texts fold_left].
        rewrite append_text_with_input.
        fold (append_texts (fs ++ ex)
                (with_input (Lex.append_text "."%char l) (fs ++ ex ++ rest))).
        rewrite append_texts_with_input. reflexivity.
      * split; [apply Hin|reflexivity].
      * rewrite length_app. cbn [length] in Hn. lia.
    + cbn [app] in Hin. rewrite (read_char_input Hin).
      destruct (is_e_facts _ He) as [_ [E2 [E3 E4]]]. rewrite E4, E3, E2, He.
      rewrite (@after_exp_ok _ e tail rest Hex Hend).
      * cbn [app append_texts fold_left].
        rewrite append_text_with_input.
        fold (append_texts tail (with_input (Lex.append_text e l) (tail ++ rest))).
        rewrite append_texts_with_input. reflexivity.
      * split; [apply Hin|reflexivity].
      * cbn [app length] in Hn. lia.
  - cbn [app] in Hin. rewrite (read_char_input Hin).
    inversion Hds as [|d0 ds0 Hdig Hds']; subst.
    destruct (digit_facts _ Hdig) as [H1 [H2 _]]. rewrite H1, H2, Hdig.
    rewrite (IH fu _ f ex rest Hds' Hf Hex Hend).
    + cbn [app append_texts fold_left].
      rewrite append_text_with_input.
      fold (append_texts (ds ++ f ++ ex)
              (with_input (Lex.append_text d l) (ds ++ f ++ ex ++ rest))).
      rewrite append_texts_with_input. reflexivity.
    + split; [apply Hin|reflexivity].
    + cbn [length] in Hfu. lia.
    + cbn [app length] in Hn. lia.
Qed.

Lemma is_1to9_cases d :
  Lex.is_1to9 d = true -> In d (B "123456789").
Proof.
  unfold Lex.is_1to9, memchr. intros H. apply existsb_exists in H.
  destruct H as [x [Hin Hx]]. apply Ascii.eqb_eq in Hx. subst. exact Hin.
Qed.

(** The integer part and what follows it, after the first byte of the
    integer part has gone to the lexeme. *)
Lemma int_part_ok l c i f ex rest :
  int_part (c :: i) -> frac_part f -> exp_part ex -> ends_number rest ->
  at_input l (i ++ f ++ ex ++ rest) ->
  (Z.of_nat (length (i ++ f ++ ex)) <= Lex.INT_MAX)%Z ->
  (if Ascii.eqb c "0"%char then Lex.after_0 l else Lex.after_1to9 l)
  = Ok tt (pushed_back (append_texts (i ++ f ++ ex) l) rest).
Proof.
  intros Hi Hf Hex Hend Hin Hn.
  inversion Hi as [|d ds Hd Hds]; subst.
  - change (Ascii.eqb "0"%char "0"%char) with true. cbv iota.
    cbn [app] in *. apply after_0_ok; assumption.
  - replace (Ascii.eqb c "0"%char) with false.
    + unfold Lex.after_1to9. apply after_1to9_loop_ok; try assumption.
      unfold Lex.lex_fuel. destruct Hin as [_ ->]. rewrite length_app. lia.
    + symmetry. apply Ascii.eqb_neq. intros ->. discriminate.
Qed.

(** [read_token] on a number: the lexeme buffer takes every byte of the
    number and the byte after it is pushed back. *)
Lemma read_token_number n rest b t :
  json_number n -> ends_number rest ->
  (Z.of_nat (length n) <= Lex.INT_MAX)%Z ->
  Lex.read_token (lexer_reset (n ++ rest) b t)
  = Ok tt (pushed_back
             (append_texts n (Lex.set_type T_NUMBER (lexer_reset [] b t))) rest).
Proof.
  intros Hnum Hend Hn.
  set (l0 := Lex.set_type T_NUMBER (lexer_reset [] b t)).
  assert (forall c i f ex la,
            int_part (c :: i) -> frac_part f -> exp_part ex ->
            (Z.of_nat (length (i ++ f ++ ex)) <= Lex.INT_MAX)%Z ->
            (if Ascii.eqb c "0"%char
             then Lex.after_0 (lexer_on (Lex.append_text c la) (i ++ f ++ ex ++ rest))
             else Lex.after_1to9 (lexer_on (Lex.append_text c la) (i ++ f ++ ex ++ rest)))
            = Ok tt (pushed_back (append_texts (c :: i ++ f ++ ex) la) rest)) as Hint.
  { intros c i f ex la Hi Hf Hex Hb.
    rewrite (@int_part_ok _ c i f ex rest Hi Hf Hex Hend);
      [|split; reflexivity|exact Hb].
    rewrite append_texts_lexer_on. reflexivity. }
  destruct Hnum as [i f ex Hi Hf Hex | i f ex Hi Hf Hex].
  - destruct i as [|c i]; [inversion Hi|].
    cbn [app length] in Hn. cbn [app]. rewrite <- !app_assoc.
    rewrite <- (Hint c i f ex l0 Hi Hf Hex ltac:(lia)). clear Hint.
    inversion Hi as [|d ds Hd Hds]; subst.
    + reflexivity.
    + apply is_1to9_cases in Hd. cbn [B list_ascii_of_string In] in Hd.
      repeat (destruct Hd as [Hd|Hd]; [subst c; reflexivity|]).
      contradiction.
  - destruct i as [|c i]; [inversion Hi|].
    cbn [app length] in Hn. cbn [app]. rewrite <- !app_assoc.
    change (Lex.read_token (lexer_reset ("-"%char :: c :: i ++ f ++ ex ++ rest) b t))
      with (Lex.after_minus
              (lexer_on (Lex.append_text "-"%char l0) (c :: i ++ f ++ ex ++ rest))).
    unfold Lex.after_minus.
    rewrite (@read_char_input _ c (i ++ f ++ ex ++ rest)) by (split; reflexivity).
    change (Lex.append_text c
              (with_input
                 (lexer_on (Lex.append_text "-"%char l0) (c :: i ++ f ++ ex ++ rest))
                 (i ++ f ++ ex ++ rest)))
      with (lexer_on (Lex.append_text c (Lex.append_text "-"%char l0))
              (i ++ f ++ ex ++ rest)).
    specialize (Hint c i f ex (Lex.append_text "-"%char l0) Hi Hf Hex ltac:(lia)).
    destruct (Ascii.eqb c "0"%char) eqn:E0; [exact Hint|].
    inversion Hi as [|d ds Hd Hds]; subst; [discriminate|].
    rewrite Hd. exact Hint.
Qed.

(** X18. Numbers.  For every number of the JSON grammar (an optional minus
    sign, [0] or a digit from 1 to 9 and digits, an optional fraction, an
    optional exponent) that is followed by the end of the stream or by a
    byte that is no digit, point, [e] or [E], [next_token] returns a Number
    token whose text is the number, byte for byte; the byte after the
    number is pushed back and read again by the next call.  (The number is
    not longer than the [int] in which the source counts digits.) *)
Theorem number_tokens (n rest : bytes) (b : Buf) (t : Token) :
  json_number n -> ends_number rest ->
  (Z.of_nat (length n) <= Lex.INT_MAX)%Z -> buf_wf b ->
  exists b',
    Lex.next_token (lexer_at (n ++ rest) b t)
    = Ok (tok T_NUMBER n)
         (mkLexer (tl rest) (hd NUL rest) b' (tok T_NUMBER n) false)
    /\ cstr b' = n /\ buf_wf b'.
Proof.
  intros Hnum Hend Hn Hwf.
  destruct (fresh_text_wf Hwf) as [Hwf0 Hc0].
  set (l0 := Lex.set_type T_NUMBER (lexer_reset [] b t)).
  assert (buf_wf (ltext l0)) as Hwl by exact Hwf0.
  destruct (@append_texts_text n l0 Hwl) as [Hwf1 Hc1].
  assert (cstr (ltext (append_texts n l0)) = n) as Hc.
  { rewrite Hc1. cbn [l0 ltext Lex.set_type Lex.with_token lexer_reset].
    rewrite Hc0. reflexivity. }
  exists (ltext (append_texts n l0)).
  split; [|split; [exact Hc|exact Hwf1]].
  rewrite next_token_at, (@read_token_number n rest b t Hnum Hend Hn).
  fold l0. cbn [bind]. unfold finish_token, pushed_back.
  rewrite (append_texts_frame n l0).
  cbn [token text ltext peek l0 Lex.set_type Lex.with_token lexer_reset
       Lex.set_text type].
  rewrite Hc. reflexivity.
Qed.

Lemma number_tokens_witness :
  exists b',
    Lex.next_token (lexer_at (B "-12.50e+3" ++ B ",1") buf0 (tok T_BEGINARRAY (B "[")))
    = Ok (tok T_NUMBER (B "-12.50e+3"))
         (mkLexer (B "1") ","%char b' (tok T_NUMBER (B "-12.50e+3")) false)
    /\ cstr b' = B "-12.50e+3".
Proof.
  destruct (@number_tokens (B "-12.50e+3") (B ",1") buf0 (tok T_BEGINARRAY (B "[")))
    as [b' [H1 [H2 _]]].
  - apply (@num_minus (B "12") (B ".50") (B "e+3")).
    + apply int_digits; [reflexivity|repeat constructor].
    + apply frac_digits; [repeat constructor|discriminate].
    + apply exp_signed; [reflexivity|left; reflexivity|repeat constructor|discriminate].
  - cbn. repeat split; discriminate.
  - vm_compute. discriminate.
  - reflexivity.
  - exists b'. split; [exact H1|exact H2].
Defined.

(** X19. A leading zero ends the integer part.  After the digit [0] at the
    start of a number, every byte other than the point, [e] and [E] ends
    the token, a digit too: [next_token] returns the Number [0] and pushes
    the byte back, so that a text like 01 is read as the number 0 followed
    by the number 1. *)
Theorem zero_ends_the_integer_part (c : ascii) (rest : bytes) (b : Buf)
    (t : Token) :
  buf_wf b -> c <> "."%char -> Lex.is_e c = false -> c <> NUL ->
  exists b',
    Lex.next_token (lexer_at ("0"%char :: c :: rest) b t)
    = Ok (tok T_NUMBER (B "0")) (mkLexer rest c b' (tok T_NUMBER (B "0")) false)
    /\ cstr b' = B "0".
Proof.
  intros Hwf Hp He Hn.
  destruct (fresh_text_wf Hwf) as [Hwf0 Hc0].
  destruct (append_char_wf "0"%char Hwf0) as [_ Hc1].
  rewrite Hc0 in Hc1. cbn [app] in Hc1.
  exists (append_char (fresh_text b) "0"%char). split; [|exact Hc1].
  rewrite next_token_at.
  set (l0 := Lex.set_type T_NUMBER (lexer_reset [] b t)).
  change (Lex.read_token (lexer_reset ("0"%char :: c :: rest) b t))
    with (Lex.after_0 (lexer_on (Lex.append_text "0"%char l0) (c :: rest))).
  unfold Lex.after_0.
  rewrite (@read_char_input _ c rest) by (split; reflexivity).
  apply Ascii.eqb_neq in Hp, Hn. rewrite Hp, He, Hn. cbn [negb bind].
  unfold finish_token.
  cbn [token text ltext with_input lexer_on Lex.unread_char Lex.append_text
       Lex.with_ltext l0 Lex.set_type Lex.with_token lexer_reset Lex.set_text
       type input peek unread].
  rewrite Hc1. reflexivity.
Qed.

Lemma zero_ends_the_integer_part_witness :
  exists b',
    Lex.next_token (lexer_at (B "01") buf0 (tok T_BEGINARRAY (B "[")))
    = Ok (tok T_NUMBER (B "0")) (mkLexer [] "1"%char b' (tok T_NUMBER (B "0")) false)
    /\ cstr b' = B "0".
Proof.
  apply (@zero_ends_the_integer_part "1"%char [] buf0 (tok T_BEGINARRAY (B "[")));
    [reflexivity|discriminate|reflexivity|discriminate].
Defined.

(** ** The format of an output line *)

Lemma emit_cells_fold fs i row : forall js o,
  fold_left
    (fun o j =>
       let o1 := if (0 <? i) || (0 <? j) then o ++ fs else o in
       match row with
       | Some r =>
           match str (nth j r buf0) with
           | Some s => o1 ++ s
           | None => o1
           end
       | None => o1
       end) js o
  = o ++ concat (map (fun j =>
                        (if (0 <? i) || (0 <? j) then fs else [])
                        ++ match row with
                           | Some r => cstr (nth j r buf0)
                           | None => []
                           end) js).
Proof.
  induction js as [|j js IH]; intros o; cbn [fold_left map concat].
  - rewrite app_nil_r. reflexivity.
  - rewrite IH. cbv zeta. rewrite !app_assoc. f_equal.
    unfold cstr.
    destruct ((0 <? i) || (0 <? j)); destruct row as [r|];
      try destruct (str (nth j r buf0));
      rewrite ?app_nil_r, ?app_assoc; reflexivity.
Qed.

Lemma emit_cells_pos fs i t row o :
  0 < i ->
  emit_cells fs i t row o
  = o ++ concat (map (fun x => fs ++ x) (row_cells t row)).
Proof.
  intros Hi. unfold emit_cells, row_cells. rewrite emit_cells_fold.
  f_equal. rewrite map_map. f_equal. apply map_ext. intros j.
  replace (0 <? i) with true by (symmetry; apply Nat.ltb_lt; exact Hi).
  reflexivity.
Qed.

Lemma emit_cells_first fs t row o :
  emit_cells fs 0 t row o = o ++ join fs (row_cells t row).
Proof.
  unfold emit_cells, row_cells. rewrite emit_cells_fold. f_equal.
  destruct (ncols t) as [|n]; [reflexivity|].
  cbn [seq map concat join]. f_equal.
  rewrite <- seq_shift, !map_map. f_equal.
Qed.

Lemma emit_tables_pos fs tabs : forall i ri o,
  0 < i ->
  emit_tables fs i tabs ri o
  = o ++ concat (map (fun x => fs ++ x) (cells_from i tabs ri)).
Proof.
  induction tabs as [|t tabs IH]; intros i ri o Hi; cbn [emit_tables cells_from].
  - cbn [map concat]. rewrite app_nil_r. reflexivity.
  - cbv zeta. fold (table_row t i ri). rewrite IH by lia.
    rewrite emit_cells_pos by exact Hi.
    rewrite map_app, concat_app, app_assoc. reflexivity.
Qed.

Lemma cells_from_length tabs : forall i ri,
  length (cells_from i tabs ri) = list_sum (map ncols tabs).
Proof.
  induction tabs as [|t tabs IH]; intros i ri; cbn [cells_from map list_sum];
    [reflexivity|].
  rewrite length_app, IH. unfold row_cells. rewrite length_map, length_seq.
  reflexivity.
Qed.

(** X20. The format of an output line.  [emit_row] appends one line: one
    field for every column of every table, in the order of the tables and
    of their columns, with the field separator between two fields and a
    line feed at the end.  The field of a column is the text of the cell
    in the row the row index selects, and it is empty for a cell that was
    never assigned and for every column of a table without rows; so every
    line of a run has the same number of fields.  (The first table has a
    column, as every table of a compiled pattern has: with none, the first
    field of the line would follow a separator.) *)
Theorem emit_row_format (fs : bytes) (tabs : list Table) (ri : list Z)
    (o : bytes) :
  match tabs with t :: _ => 0 < ncols t | [] => True end ->
  emit_row fs tabs ri o = o ++ join fs (cells_from 0 tabs ri) ++ [LF]
  /\ length (cells_from 0 tabs ri) = list_sum (map ncols tabs).
Proof.
  intros H0. split; [|apply cells_from_length].
  unfold emit_row. rewrite app_assoc. f_equal.
  destruct tabs as [|t tabs]; cbn [emit_tables cells_from].
  - cbn [join]. rewrite app_nil_r. reflexivity.
  - cbv zeta. fold (table_row t 0 ri).
    rewrite emit_tables_pos by lia. rewrite emit_cells_first.
    rewrite <- app_assoc. f_equal.
    unfold row_cells. destruct (ncols t) as [|n]; [lia|].
    cbn [seq map app join]. rewrite map_app, concat_app, app_assoc.
    reflexivity.
Qed.

Lemma emit_row_format_witness :
  emit_row (B ";")
    [mkTable 2 [[mkBuf 1 4 (Some (B "a")); buf0]] [buf0; buf0];
     mkTable 1 [] [buf0];
     mkTable 1 [[mkBuf 2 4 (Some (B "x1"))]; [mkBuf 2 4 (Some (B "x2"))]] [buf0]]
    [0; 0; 1]%Z (B "out:")
  = B "out:" ++ B "a;;;x2" ++ [LF].
Proof.
  apply (proj1 (@emit_row_format (B ";")
    [mkTable 2 [[mkBuf 1 4 (Some (B "a")); buf0]] [buf0; buf0];
     mkTable 1 [] [buf0];
     mkTable 1 [[mkBuf 2 4 (Some (B "x1"))]; [mkBuf 2 4 (Some (B "x2"))]] [buf0]]
    [0; 0; 1]%Z (B "out:") ltac:(cbn; lia))).
Defined.

(** ** The pattern [[*]] over an array of literals *)














(** ** The program ends *)

(** *** What the lexer takes from the stream *)

Lemma read_unread_avail l c l1 :
  Lex.read_char l = (c, l1) ->
  avail l1 <= avail l
  /\ avail (Lex.unread_char c l1) <= avail l
  /\ (Ascii.eqb c NUL = false -> avail l1 + 1 <= avail l).
Proof.
  unfold Lex.read_char, avail, Lex.unread_char.
  destruct (Ascii.eqb (unread l) NUL) eqn:Hu; cbn [negb].
  - destruct (input l) as [|c0 rest] eqn:Hi; intros H; inversion H; subst;
      cbn [unread input length]; rewrite ?Hu, ?Hi; cbn [length].
    + change (Ascii.eqb NUL NUL) with true. split; [lia|split; [lia|discriminate]].
    + destruct (Ascii.eqb c NUL); split; try lia; split; try lia.
  - intros H. inversion H; subst. cbn [unread input].
    change (Ascii.eqb NUL NUL) with true. rewrite Hu. split; [lia|split; lia].
Qed.

Ltac avail_norm :=
  repeat match goal with
  | H : Lex.read_char _ = (_, _) |- _ =>
      apply read_unread_avail in H; destruct H as [? [? ?]]
  end;
  repeat match goal with
  | |- context [avail (Lex.append_text ?c ?l)] =>
      change (avail (Lex.append_text c l)) with (avail l)
  | H : context [avail (Lex.append_text ?c ?l)] |- _ =>
      change (avail (Lex.append_text c l)) with (avail l) in H
  | |- context [avail (Lex.set_type ?c ?l)] =>
      change (avail (Lex.set_type c l)) with (avail l)
  | H : context [avail (Lex.set_type ?c ?l)] |- _ =>
      change (avail (Lex.set_type c l)) with (avail l) in H
  | |- context [avail (Lex.set_text ?c ?l)] =>
      change (avail (Lex.set_text c l)) with (avail l)
  | H : context [avail (Lex.set_text ?c ?l)] |- _ =>
      change (avail (Lex.set_text c l)) with (avail l) in H
  end;
  try lia.

Lemma append_digits_from_avail fuel : forall n l r l',
  Lex.append_digits_from fuel n l = Ok r l' -> avail l' <= avail l.
Proof.
  induction fuel as [|f IH]; intros n l r l' H; [discriminate|].
  cbn [Lex.append_digits_from] in H. repeat lex_step H; avail_norm.
  apply IH in H. avail_norm.
Qed.

Lemma append_digits_avail l r l' :
  Lex.append_digits l = Ok r l' -> avail l' <= avail l.
Proof. apply append_digits_from_avail. Qed.

Lemma after_exp_avail l r l' : Lex.after_exp l = Ok r l' -> avail l' <= avail l.
Proof.
  unfold Lex.after_exp. intros H. repeat lex_step H;
    repeat match goal with
    | E : Lex.append_digits _ = Ok _ _ |- _ => apply append_digits_avail in E
    end; avail_norm.
Qed.

Lemma after_frac_avail l r l' : Lex.after_frac l = Ok r l' -> avail l' <= avail l.
Proof.
  unfold Lex.after_frac. intros H. repeat lex_step H;
    repeat match goal with
    | E : Lex.append_digits _ = Ok _ _ |- _ => apply append_digits_avail in E
    | E : Lex.after_exp _ = Ok _ _ |- _ => apply after_exp_avail in E
    end; avail_norm.
Qed.

Lemma after_1to9_loop_avail fuel : forall l r l',
  Lex.after_1to9_loop fuel l = Ok r l' -> avail l' <= avail l.
Proof.
  induction fuel as [|f IH]; intros l r l' H; [discriminate|].
  cbn [Lex.after_1to9_loop] in H. repeat lex_step H;
    repeat match goal with
    | E : Lex.after_frac _ = Ok _ _ |- _ => apply after_frac_avail in E
    | E : Lex.after_exp _ = Ok _ _ |- _ => apply after_exp_avail in E
    | E : Lex.after_1to9_loop f _ = Ok _ _ |- _ => apply IH in E
    end; avail_norm.
Qed.

Lemma after_0_avail l r l' : Lex.after_0 l = Ok r l' -> avail l' <= avail l.
Proof.
  unfold Lex.after_0. intros H. repeat lex_step H;
    repeat match goal with
    | E : Lex.after_frac _ = Ok _ _ |- _ => apply after_frac_avail in E
    | E : Lex.after_exp _ = Ok _ _ |- _ => apply after_exp_avail in E
    end; avail_norm.
Qed.

Lemma after_minus_avail l r l' : Lex.after_minus l = Ok r l' -> avail l' <= avail l.
Proof.
  unfold Lex.after_minus, Lex.after_1to9. intros H. repeat lex_step H;
    repeat match goal with
    | E : Lex.after_0 _ = Ok _ _ |- _ => apply after_0_avail in E
    | E : Lex.after_1to9_loop _ _ = Ok _ _ |- _ => apply after_1to9_loop_avail in E
    end; avail_norm.
Qed.

Lemma after_quote_loop_avail fuel : forall l r l',
  Lex.after_quote_loop fuel l = Ok r l' -> avail l' <= avail l.
Proof.
  induction fuel as [|f IH]; intros l r l' H; [discriminate|].
  cbn [Lex.after_quote_loop] in H. repeat lex_step H;
    repeat match goal with
    | E : Lex.after_slash _ = Ok _ _ |- _ => apply after_slash_avail in E
    | E : Lex.after_quote_loop f _ = Ok _ _ |- _ => apply IH in E
    end; avail_norm.
Qed.

Lemma read_literal_from_avail v : forall l r l',
  Lex.read_literal_from v l = Ok r l' -> avail l' <= avail l.
Proof.
  induction v as [|p v IH]; intros l r l' H; cbn [Lex.read_literal_from] in H.
  - inversion H. lia.
  - repeat lex_step H. apply IH in H. avail_norm.
Qed.

Lemma read_literal_avail v k l r l' :
  Lex.read_literal v k l = Ok r l' -> avail l' <= avail l.
Proof.
  unfold Lex.read_literal. intros H. repeat lex_step H.
  apply read_literal_from_avail in E. avail_norm.
Qed.

Lemma skip_ws_avail fuel : forall l c l',
  Lex.skip_ws fuel l = Ok c l' ->
  avail l' <= avail l /\ (Ascii.eqb c NUL = false -> avail l' + 1 <= avail l).
Proof.
  induction fuel as [|f IH]; intros l c l' H; [discriminate|].
  cbn [Lex.skip_ws] in H.
  destruct (Lex.read_char l) as [c1 l1] eqn:E.
  apply read_unread_avail in E. destruct E as [H1 [_ H3]].
  destruct (memchr Lex.ws c1).
  - apply IH in H. destruct H as [H4 H5]. split; [lia|].
    intros Hc. specialize (H5 Hc). lia.
  - inversion H; subst. split; [exact H1|exact H3].
Qed.

(** A token that is not [Eof] takes at least one byte from the stream, and
    no token gives a byte back. *)
Lemma read_token_avail l r l' :
  Lex.read_token l = Ok r l' ->
  avail l' <= avail l
  /\ (TokenType_eqb (type (token l')) T_EOF = false -> avail l' + 1 <= avail l).
Proof.
  unfold Lex.read_token, Lex.after_quote, Lex.after_1to9, Lex.punct. intros H.
  apply bind_Ok in H. destruct H as [c [l1 [E H]]].
  apply skip_ws_avail in E. destruct E as [E1 E2].
  destruct (Ascii.eqb c NUL) eqn:Hc.
  - inversion H; subst. cbn [token Lex.set_type Lex.with_token type TokenType_eqb].
    split; [avail_norm|discriminate].
  - specialize (E2 eq_refl).
    assert (avail l' <= avail l1) as Hle.
    { repeat lex_step H;
        repeat match goal with
        | E : Lex.read_literal _ _ _ = Ok _ _ |- _ => apply read_literal_avail in E
        | E : Lex.after_quote_loop _ _ = Ok _ _ |- _ =>
            apply after_quote_loop_avail in E
        | E : Lex.after_minus _ = Ok _ _ |- _ => apply after_minus_avail in E
        | E : Lex.after_0 _ = Ok _ _ |- _ => apply after_0_avail in E
        | E : Lex.after_1to9_loop _ _ = Ok _ _ |- _ =>
            apply after_1to9_loop_avail in E
        end; avail_norm. }
    split; [lia|intros _; lia].
Qed.

Lemma lex_next_token_mu l t l' :
  Lex.next_token l = Ok t l' ->
  mu l' + (if TokenType_eqb (type t) T_EOF then 0 else 1) <= mu l.
Proof.
  intros H. destruct (next_token_post _ H) as [Hp Ht].
  unfold Lex.next_token in H. unfold mu. rewrite Hp. cbn [andb].
  destruct (peek l) eqn:Hpl.
  - inversion H; subst. cbn [andb token Lex.with_peek].
    change (avail (Lex.with_peek l false)) with (avail l).
    destruct (TokenType_eqb (type (token l)) T_EOF); cbn [negb]; lia.
  - cbn [andb]. apply bind_Ok in H. destruct H as [a [l1 [E H]]].
    apply read_token_avail in E. destruct E as [E1 E2].
    assert (avail l' = avail l1 /\ type t = type (token l1)) as [Ha Hty].
    { destruct (text (token l1)); inversion H; subst; split; reflexivity. }
    rewrite Ha, Hty.
    match type of E1 with
    | _ <= avail ?x =>
        assert (avail x = avail l) as Hx
          by (destruct (0 <? len (ltext (Lex.with_token l
                                           (mkToken (type (token l)) None))));
              reflexivity);
        rewrite Hx in E1, E2
    end.
    destruct (TokenType_eqb (type (token l1)) T_EOF); [lia|].
    specialize (E2 eq_refl). lia.
Qed.

Lemma lex_peek_token_mu l t l' :
  Lex.peek_token l = Ok t l' -> mu l' <= mu l.
Proof.
  unfold Lex.peek_token. destruct (peek l) eqn:Hp; cbn [negb]; intros H.
  - inversion H; subst. lia.
  - apply bind_Ok in H. destruct H as [a [l1 [E H]]].
    inversion H; subst; clear H.
    pose proof (lex_next_token_mu _ E) as Hm.
    destruct (next_token_post _ E) as [Hp1 Ht1].
    unfold mu in *. rewrite Hp1 in Hm. rewrite Hp in *. cbn [andb] in Hm.
    cbn [peek token Lex.with_peek andb].
    change (avail (Lex.with_peek l1 true)) with (avail l1).
    rewrite Ht1.
    destruct (TokenType_eqb (type t) T_EOF); cbn [negb]; lia.
Qed.

Lemma TokenType_eqb_true a b : TokenType_eqb a b = true -> a = b.
Proof. destruct a, b; intros H; try discriminate; reflexivity. Qed.

(** X5. The lexer makes progress.  On every state of the lexer
    [next_token] returns a token, dies or runs into undefined behaviour:
    the rounds its loops are given, two more than the bytes left in the
    stream, are never used up.  A token that is read from the stream and is
    not [Eof] takes at least one byte from it, and no token leaves more
    bytes to read than there were. *)
Theorem next_token_progress (l : Lexer) :
  Lex.next_token l <> OutOfFuel
  /\ (forall t l', Lex.next_token l = Ok t l' -> peek l = false ->
        avail l' <= avail l /\ (type t <> T_EOF -> avail l' < avail l)).
Proof.
  split; [apply next_token_fuel|].
  intros t l' H Hp.
  pose proof (lex_next_token_mu _ H) as Hm.
  destruct (next_token_post _ H) as [Hp' _].
  unfold mu in Hm. rewrite Hp, Hp' in Hm. cbn [andb] in Hm.
  split; [lia|]. intros Ht.
  destruct (TokenType_eqb (type t) T_EOF) eqn:E; [|lia].
  apply TokenType_eqb_true in E. contradiction.
Qed.

Lemma next_token_progress_witness :
  Lex.next_token (lexer0 (B "  12,")) = Ok (tok T_NUMBER (B "12"))
    (mkLexer [] ","%char (mkBuf 2 4 (Some (B "12"))) (tok T_NUMBER (B "12")) false)
  /\ avail (mkLexer [] ","%char (mkBuf 2 4 (Some (B "12"))) (tok T_NUMBER (B "12")) false)
     < avail (lexer0 (B "  12,")).
Proof.
  split; [vm_compute; reflexivity|].
  apply (proj2 (next_token_progress (lexer0 (B "  12,"))) (tok T_NUMBER (B "12"))
           (mkLexer [] ","%char (mkBuf 2 4 (Some (B "12"))) (tok T_NUMBER (B "12")) false)).
  - vm_compute. reflexivity.
  - reflexivity.
  - discriminate.
Defined.

(** *** What the runtime takes from the stream *)

Lemma on_lexer_Ok {A} (f : Lexer -> Res Lexer A) w a w' :
  on_lexer f w = Ok a w' ->
  f (lexer w) = Ok a (lexer w').
Proof.
  unfold on_lexer. destruct (f (lexer w)); intros H; inversion H; subst.
  reflexivity.
Qed.

Lemma next_token_facts w t w' :
  next_token w = Ok t w' ->
  mu (lexer w') + (if TokenType_eqb (type t) T_EOF then 0 else 1) <= mu (lexer w)
  /\ (peek (lexer w) = true -> t = token (lexer w)).
Proof.
  intros H. apply on_lexer_Ok in H. split; [apply lex_next_token_mu; exact H|].
  intros Hp. unfold Lex.next_token in H. rewrite Hp in H. inversion H.
  reflexivity.
Qed.

Lemma peek_token_facts w t w' :
  peek_token w = Ok t w' ->
  mu (lexer w') <= mu (lexer w)
  /\ peek (lexer w') = true /\ token (lexer w') = t.
Proof.
  intros H. apply on_lexer_Ok in H.
  split; [apply (lex_peek_token_mu _ H)|apply (peek_token_post _ H)].
Qed.

Lemma accept_mu ty w a w' :
  accept ty w = Ok a w' -> ty <> T_EOF -> mu (lexer w') + 1 <= mu (lexer w).
Proof.
  unfold accept. intros H Hty.
  apply bind_Ok in H. destruct H as [t [w1 [E H]]].
  apply next_token_facts in E. destruct E as [E _].
  destruct (TokenType_eqb (type t) ty) eqn:Et; cbn [negb] in H; [|discriminate].
  inversion H; subst. apply TokenType_eqb_true in Et. rewrite Et in E.
  destruct ty; try congruence; cbn [TokenType_eqb] in E; lia.
Qed.

Lemma do_add_value_lexer t c v w a w' :
  do_add_value t c v w = Ok a w' -> lexer w' = lexer w.
Proof.
  unfold do_add_value. intros H.
  destruct (nth_error (tables w) t); [|discriminate].
  destruct v; [|discriminate].
  destruct (add_value _ c _); [|discriminate].
  inversion H. reflexivity.
Qed.

Lemma do_add_row_lexer t w a w' :
  do_add_row t w = Ok a w' -> lexer w' = lexer w.
Proof.
  unfold do_add_row. intros H. destruct t as [t|]; [|inversion H; reflexivity].
  destruct (nth_error (tables w) t); [|discriminate].
  inversion H. reflexivity.
Qed.

Lemma do_flush_lexer r w a w' :
  do_flush r w = Ok a w' -> lexer w' = lexer w.
Proof.
  unfold do_flush. intros H. destruct r; [|inversion H; reflexivity].
  destruct (flush_tables (fieldsep w) (tables w) (out w)).
  inversion H. reflexivity.
Qed.

(** A literal that has been looked at and is then taken. *)
Lemma peek_then_take w t w1 w1' t' w2 :
  peek_token w = Ok t w1 -> lexer w1' = lexer w1 ->
  next_token w1' = Ok t' w2 -> is_literal (type t) = true ->
  mu (lexer w2) + 1 <= mu (lexer w).
Proof.
  intros Hp Hl Hn Hlit.
  apply peek_token_facts in Hp. destruct Hp as [H1 [H2 H3]].
  apply next_token_facts in Hn. destruct Hn as [H4 H5].
  rewrite Hl in *. specialize (H5 H2). rewrite H3 in H5. subst t'.
  destruct (type t); try discriminate; cbn [TokenType_eqb] in H4; lia.
Qed.

Ltac mu_facts :=
  repeat match goal with
  | E : accept _ _ = Ok _ _ |- _ => apply accept_mu in E; [|discriminate]
  | E : do_add_value _ _ _ _ = Ok _ _ |- _ => apply do_add_value_lexer in E
  | E : do_add_row _ _ = Ok _ _ |- _ => apply do_add_row_lexer in E
  | E : do_flush _ _ = Ok _ _ |- _ => apply do_flush_lexer in E
  end;
  repeat match goal with
  | E : peek_token _ = Ok _ _ |- _ =>
      apply peek_token_facts in E; destruct E as [? _]
  | E : next_token _ = Ok _ _ |- _ =>
      apply next_token_facts in E; destruct E as [? _]
  end;
  repeat match goal with
  | E : lexer _ = lexer _ |- _ => rewrite E in *; clear E
  end;
  repeat match goal with
  | H : context [if TokenType_eqb ?a ?b then 0 else 1] |- _ =>
      destruct (TokenType_eqb a b)
  end;
  try lia.

Lemma skip_mu fuel :
  (forall w a w', skip_value fuel w = Ok a w' -> mu (lexer w') + 1 <= mu (lexer w))
  /\ (forall w a w', skip_array fuel w = Ok a w' -> mu (lexer w') + 1 <= mu (lexer w))
  /\ (forall w a w', skip_array_loop fuel w = Ok a w' ->
        mu (lexer w') + 1 <= mu (lexer w))
  /\ (forall w a w', skip_object fuel w = Ok a w' -> mu (lexer w') + 1 <= mu (lexer w))
  /\ (forall w a w', skip_object_loop fuel w = Ok a w' ->
        mu (lexer w') + 1 <= mu (lexer w)).
Proof.
  induction fuel as [|f [IH1 [IH2 [IH3 [IH4 IH5]]]]].
  - repeat split; intros; discriminate.
  - split; [|split; [|split; [|split]]]; intros w a w' H.
    + cbn [skip_value] in H.
      apply bind_Ok in H. destruct H as [t [w1 [Ep H]]].
      destruct (type t) eqn:Et;
        try (apply IH2 in H; mu_facts);
        try (apply IH4 in H; mu_facts);
        cbn [is_literal negb] in H; try discriminate;
        apply bind_Ok in H; destruct H as [t' [w2 [En H]]];
        inversion H; subst;
        apply (@peek_then_take w t w1 w1 t' w' Ep eq_refl En);
        rewrite Et; reflexivity.
    + cbn [skip_array] in H. repeat run_step H;
        repeat match goal with
        | E : skip_array_loop f _ = Ok _ _ |- _ => apply IH3 in E
        end; mu_facts.
    + cbn [skip_array_loop] in H. repeat run_step H;
        repeat match goal with
        | E : skip_value f _ = Ok _ _ |- _ => apply IH1 in E
        | E : skip_array_loop f _ = Ok _ _ |- _ => apply IH3 in E
        end; mu_facts.
    + cbn [skip_object] in H. repeat run_step H;
        repeat match goal with
        | E : skip_object_loop f _ = Ok _ _ |- _ => apply IH5 in E
        end; mu_facts.
    + cbn [skip_object_loop] in H. repeat run_step H;
        repeat match goal with
        | E : skip_value f _ = Ok _ _ |- _ => apply IH1 in E
        | E : skip_object_loop f _ = Ok _ _ |- _ => apply IH5 in E
        end; mu_facts.
Qed.

Lemma run_collect_op_mu fuel t c w a w' :
  run_collect_op fuel t c w = Ok a w' -> mu (lexer w') + 1 <= mu (lexer w).
Proof.
  destruct (skip_mu fuel) as [_ [H2 [_ [H4 _]]]].
  unfold run_collect_op. intros H.
  apply bind_Ok in H. destruct H as [tk [w1 [Ep H]]].
  destruct (type tk) eqn:Et;
    try (apply H2 in H; mu_facts);
    try (apply H4 in H; mu_facts);
    cbn [is_literal negb] in H; try discriminate;
    apply bind_Ok in H; destruct H as [u [w2 [Ea H]]];
    apply bind_Ok in H; destruct H as [t' [w3 [En H]]];
    inversion H; subst;
    apply do_add_value_lexer in Ea;
    apply (@peek_then_take w tk w1 w2 t' w' Ep Ea En);
    rewrite Et; reflexivity.
Qed.

Lemma run_mu fuel :
  (forall op w a w', run_op fuel op w = Ok a w' -> mu (lexer w') + 1 <= mu (lexer w))
  /\ (forall t nx r w a w', run_array_op fuel t nx r w = Ok a w' ->
        mu (lexer w') + 1 <= mu (lexer w))
  /\ (forall t nx w a w', run_array_loop fuel t nx w = Ok a w' ->
        mu (lexer w') + 1 <= mu (lexer w))
  /\ (forall t p r w a w', run_object_op fuel t p r w = Ok a w' ->
        mu (lexer w') + 1 <= mu (lexer w))
  /\ (forall p tk w a w', run_object_loop fuel p tk w = Ok a w' ->
        mu (lexer w') <= mu (lexer w)).
Proof.
  induction fuel as [|f [IH1 [IH2 [IH3 [IH4 IH5]]]]].
  - repeat split; intros; discriminate.
  - destruct (skip_mu f) as [Hs _].
    pose proof (@run_collect_op_mu f) as Hc.
    split; [|split; [|split; [|split]]]; intros until w'; intros H;
      cbn [run_op run_array_op run_array_loop run_object_op run_object_loop] in H;
      repeat run_step H;
      repeat match goal with
      | E : (match ?x with _ => _ end) = Ok _ _ |- _ => destruct x
      end;
      repeat match goal with
      | E : run_op f _ _ = Ok _ _ |- _ => apply IH1 in E
      | E : run_array_op f _ _ _ _ = Ok _ _ |- _ => apply IH2 in E
      | E : run_array_loop f _ _ _ = Ok _ _ |- _ => apply IH3 in E
      | E : run_object_op f _ _ _ _ = Ok _ _ |- _ => apply IH4 in E
      | E : run_object_loop f _ _ _ = Ok _ _ |- _ => apply IH5 in E
      | E : run_collect_op f _ _ _ = Ok _ _ |- _ => apply Hc in E
      | E : skip_value f _ = Ok _ _ |- _ => apply Hs in E
      end;
      mu_facts.
Qed.

(** *** Enough fuel *)

Lemma next_token_no_oof w : next_token w <> OutOfFuel.
Proof.
  unfold next_token, on_lexer.
  pose proof (proj1 (next_token_fuel (lexer w))) as H.
  destruct (Lex.next_token (lexer w)); congruence.
Qed.

Lemma peek_token_no_oof w : peek_token w <> OutOfFuel.
Proof.
  unfold peek_token, on_lexer.
  pose proof (proj2 (next_token_fuel (lexer w))) as H.
  destruct (Lex.peek_token (lexer w)); congruence.
Qed.

Lemma accept_no_oof ty w : accept ty w <> OutOfFuel.
Proof.
  unfold accept. apply bind_no_oof; [apply next_token_no_oof|].
  intros t s _. destruct (negb (TokenType_eqb (type t) ty)); discriminate.
Qed.

Lemma do_add_value_no_oof t c v w : do_add_value t c v w <> OutOfFuel.
Proof.
  unfold do_add_value. destruct (nth_error (tables w) t); [|discriminate].
  destruct v; [|discriminate]. destruct (add_value _ c _); discriminate.
Qed.

Lemma do_add_row_no_oof t w : do_add_row t w <> OutOfFuel.
Proof.
  unfold do_add_row. destruct t as [t|]; [|discriminate].
  destruct (nth_error (tables w) t); discriminate.
Qed.

Lemma do_flush_no_oof r w : do_flush r w <> OutOfFuel.
Proof.
  unfold do_flush. destruct r; [|discriminate].
  destruct (flush_tables (fieldsep w) (tables w) (out w)). discriminate.
Qed.

(** One step of a proof that a computation does not run out of fuel. *)
Ltac oof_step :=
  match goal with
  | |- bind (next_token _) _ <> OutOfFuel =>
      apply bind_no_oof; [apply next_token_no_oof|];
      let t := fresh "t" in let w := fresh "w" in let E := fresh "En" in
      intros t w E; apply next_token_facts in E; destruct E as [E _]
  | |- bind (peek_token _) _ <> OutOfFuel =>
      apply bind_no_oof; [apply peek_token_no_oof|];
      let t := fresh "t" in let w := fresh "w" in let E := fresh "Ep" in
      intros t w E; apply peek_token_facts in E; destruct E as [E _]
  | |- bind (accept _ _) _ <> OutOfFuel =>
      apply bind_no_oof; [apply accept_no_oof|];
      let t := fresh "u" in let w := fresh "w" in let E := fresh "Ea" in
      intros t w E; apply accept_mu in E; [|discriminate]
  | |- bind (do_add_value _ _ _ _) _ <> OutOfFuel =>
      apply bind_no_oof; [apply do_add_value_no_oof|];
      let t := fresh "u" in let w := fresh "w" in let E := fresh "Ev" in
      intros t w E; apply do_add_value_lexer in E
  | |- bind (do_add_row _ _) _ <> OutOfFuel =>
      apply bind_no_oof; [apply do_add_row_no_oof|];
      let t := fresh "u" in let w := fresh "w" in let E := fresh "Er" in
      intros t w E; apply do_add_row_lexer in E
  | |- do_flush _ _ <> OutOfFuel => apply do_flush_no_oof
  | |- Ok _ _ <> OutOfFuel => discriminate
  | |- Die _ _ <> OutOfFuel => discriminate
  | |- Undef <> OutOfFuel => discriminate
  | |- (if TokenType_eqb (type ?t) ?ty then _ else _) <> OutOfFuel =>
      destruct (TokenType_eqb (type t) ty) eqn:?
  | |- (if negb (TokenType_eqb (type ?t) ?ty) then _ else _) <> OutOfFuel =>
      destruct (TokenType_eqb (type t) ty) eqn:?; cbn [negb]
  | |- (if ?b then _ else _) <> OutOfFuel => destruct b
  end.

Ltac mu_lia :=
  repeat match goal with
  | E : lexer _ = lexer _ |- _ => rewrite E in *; clear E
  end;
  repeat match goal with
  | E : TokenType_eqb (type ?t) ?ty = true |- _ =>
      apply TokenType_eqb_true in E; rewrite E in *; clear E
  end;
  cbn [TokenType_eqb] in *;
  repeat match goal with
  | H : context [if TokenType_eqb ?a ?b then 0 else 1] |- _ =>
      destruct (TokenType_eqb a b)
  end;
  lia.

Lemma skip_term fuel :
  (forall w, 3 * mu (lexer w) + 3 <= fuel -> skip_value fuel w <> OutOfFuel)
  /\ (forall w, 3 * mu (lexer w) + 2 <= fuel -> skip_array fuel w <> OutOfFuel)
  /\ (forall w, 3 * mu (lexer w) + 4 <= fuel -> skip_array_loop fuel w <> OutOfFuel)
  /\ (forall w, 3 * mu (lexer w) + 2 <= fuel -> skip_object fuel w <> OutOfFuel)
  /\ (forall w, 3 * mu (lexer w) + 4 <= fuel -> skip_object_loop fuel w <> OutOfFuel).
Proof.
  induction fuel as [|f [IH1 [IH2 [IH3 [IH4 IH5]]]]].
  - repeat split; intros; lia.
  - destruct (skip_mu f) as [Hv _].
    split; [|split; [|split; [|split]]]; intros w Hf.
    + cbn [skip_value]. oof_step.
      destruct (type t); try (apply IH2; lia); try (apply IH4; lia);
        cbn [is_literal negb]; try discriminate;
        apply bind_no_oof; try apply next_token_no_oof; intros; discriminate.
    + cbn [skip_array]. repeat oof_step. apply IH3. mu_lia.
    + cbn [skip_array_loop].
      apply bind_no_oof; [apply IH1; lia|]. intros a w1 E. apply Hv in E.
      repeat oof_step. apply IH3. mu_lia.
    + cbn [skip_object]. repeat oof_step. apply IH5. mu_lia.
    + cbn [skip_object_loop]. repeat oof_step.
      apply bind_no_oof; [apply IH1; mu_lia|]. intros a w2 E. apply Hv in E.
      repeat oof_step. apply IH5. mu_lia.
Qed.

Lemma run_collect_op_term fuel t c w :
  3 * mu (lexer w) + 2 <= fuel -> run_collect_op fuel t c w <> OutOfFuel.
Proof.
  intros Hf. destruct (skip_term fuel) as [_ [H2 [_ [H4 _]]]].
  unfold run_collect_op. oof_step.
  destruct (type t0); try (apply H2; lia); try (apply H4; lia);
    cbn [is_literal negb]; try discriminate;
    repeat oof_step.
Qed.

Lemma run_term fuel :
  (forall op w, 3 * mu (lexer w) + 5 <= fuel -> run_op fuel op w <> OutOfFuel)
  /\ (forall t nx r w, 3 * mu (lexer w) + 4 <= fuel ->
        run_array_op fuel t nx r w <> OutOfFuel)
  /\ (forall t nx w, 3 * mu (lexer w) + 6 <= fuel ->
        run_array_loop fuel t nx w <> OutOfFuel)
  /\ (forall t p r w, 3 * mu (lexer w) + 4 <= fuel ->
        run_object_op fuel t p r w <> OutOfFuel)
  /\ (forall p tk w, 3 * mu (lexer w) + 6 <= fuel ->
        run_object_loop fuel p tk w <> OutOfFuel).
Proof.
  induction fuel as [|f [IH1 [IH2 [IH3 [IH4 IH5]]]]].
  - repeat split; intros; lia.
  - destruct (skip_term f) as [Hsv _].
    destruct (skip_mu f) as [Msv _].
    destruct (run_mu f) as [M1 [_ [M3 [_ M5]]]].
    split; [|split; [|split; [|split]]].
    + intros op w Hf. cbn [run_op]. destruct op as [t nx r|t p r|t c].
      * apply IH2. lia.
      * apply IH4. lia.
      * apply run_collect_op_term. lia.
    + intros t nx r w Hf. cbn [run_array_op]. repeat oof_step.
      * apply bind_no_oof; [apply IH3; mu_lia|]. intros a w3 E. apply M3 in E.
        repeat oof_step.
      * apply Hsv. mu_lia.
    + intros t nx w Hf. cbn [run_array_loop].
      apply bind_no_oof; [apply IH1; lia|]. intros a w1 E. apply M1 in E.
      repeat oof_step. apply IH3. mu_lia.
    + intros t p r w Hf. cbn [run_object_op]. repeat oof_step.
      * apply bind_no_oof; [apply IH5; mu_lia|]. intros tk w3 E. apply M5 in E.
        repeat oof_step.
      * apply Hsv. mu_lia.
    + intros p tk w Hf. cbn [run_object_loop].
      destruct (TokenType_eqb (type tk) T_STRING); [|discriminate].
      destruct (text tk) as [key|]; [|discriminate].
      cbv zeta. oof_step.
      destruct (find_prop (pattern w) p key) as [op|].
      * apply bind_no_oof; [apply IH1; mu_lia|]. intros a w2 E. apply M1 in E.
        repeat oof_step. apply IH5. mu_lia.
      * apply bind_no_oof; [apply Hsv; mu_lia|]. intros a w2 E. apply Msv in E.
        repeat oof_step. apply IH5. mu_lia.
Qed.

Lemma run_stream_term fuel : forall head w,
  3 * mu (lexer w) + 6 <= fuel -> run_stream fuel head w <> OutOfFuel.
Proof.
  induction fuel as [|f IH]; intros head w Hf; [lia|].
  destruct (run_term f) as [T1 _]. destruct (run_mu f) as [M1 _].
  cbn [run_stream].
  apply bind_no_oof; [apply T1; lia|]. intros a w1 E. apply M1 in E.
  repeat oof_step. apply IH. mu_lia.
Qed.

(** X22. The program ends.  On every pattern, field separator and
    standard input, [main] returns, dies, aborts or runs into undefined
    behaviour: with [parse_fuel] of the length of the pattern and
    [run_fuel] of the length of the input (six units for every byte and six
    more) the model does not run out of fuel, and more fuel does not change
    the result.  Every loop and every recursion of the lexer and of the
    runtime takes a token from the stream before it goes round again. *)
Theorem main_terminates (fuel : nat) (fs pat stdin : bytes) :
  parse_fuel (length pat) <= fuel -> run_fuel (length stdin) <= fuel ->
  main fuel fs pat stdin <> Timeout
  /\ (forall fuel', fuel <= fuel' ->
        main fuel' fs pat stdin = main fuel fs pat stdin).
Proof.
  intros Hp Hr.
  assert (main fuel fs pat stdin <> Timeout) as Hmain.
  { unfold main.
    assert (parsed 0 (length pat) (parse_pattern fuel pat)) as Hpp.
    { destruct (parse_total fuel) as [Ha [Ho _]].
      unfold parse_pattern. cbv zeta. apply parsed_bind.
      - unfold parse_fuel in Hp.
        destruct (Ascii.eqb (cur (mkPState pat 0 [])) "["%char).
        + apply (Ha (mkPState pat 0 [])). cbn [pbuf ppos]. lia.
        + destruct (Ascii.eqb (cur (mkPState pat 0 [])) "{"%char).
          * apply (Ho (mkPState pat 0 [])). cbn [pbuf ppos]. lia.
          * parsed_ok.
      - intros [op|] s1 _ H1 H2; parsed_ok. }
    destruct (parse_pattern fuel pat) as [[head|] s| | |]; cbn [parsed] in Hpp;
      try discriminate; try contradiction.
    destruct (find_root head) as [root| |]; try discriminate.
    pose proof (@run_stream_term fuel root
                  (mkWorld (lexer0 stdin) (ptabs s) [] fs (pbuf s))) as Ht.
    cbn [lexer] in Ht.
    assert (mu (lexer0 stdin) = 2 * length stdin) as Hmu.
    { unfold mu, avail, lexer0. cbn [unread input peek andb].
      rewrite Ascii.eqb_refl. lia. }
    rewrite Hmu in Ht. unfold run_fuel in Hr. specialize (Ht ltac:(lia)).
    destruct (run_stream fuel root _); try discriminate. congruence. }
  split; [exact Hmain|].
  intros fuel' Hle.
  apply (@main_mono fuel fuel' fs pat stdin _ eq_refl Hmain Hle).
Qed.

Lemma main_terminates_witness :
  main 200 [TAB] (B "[{id,vals[*]}]") (Q "[{'id':7,'vals':[1,2]}]") <> Timeout.
Proof.
  apply (@main_terminates 200 [TAB] (B "[{id,vals[*]}]")
           (Q "[{'id':7,'vals':[1,2]}]")).
  - vm_compute. lia.
  - vm_compute. lia.
Defined.

(** ** Members that the pattern does not name *)

Lemma run_object_loop_step f prop t w :
  run_object_loop (S f) prop t w
  = (if TokenType_eqb (type t) T_STRING then
       match text t with
       | None => Undef
       | Some key =>
           let p := find_prop (pattern w) prop key in
           accept T_PAIRSEP w ;;;
           fun w =>
             match p with
             | Some op => run_op f op w
             | None => skip_value f w
             end ;;;
             fun w =>
               t <- next_token w ;;
               fun w =>
                 if negb (TokenType_eqb (type t) T_MEMBERSEP) then Ok t w
                 else t <- next_token w ;; run_object_loop f prop t
       end
     else Ok t w).
Proof. reflexivity. Qed.

Lemma run_object_loop_unmatched mem prop k ts :
  unmatched_tail mem prop k ts ->
  forall fuel w l',
    pattern w = mem -> yields (lexer w) ts l' -> 3 * length ts + 1 <= fuel ->
    exists e,
      run_object_loop fuel prop k w = Ok e (with_lexer w l')
      /\ type e = T_ENDOBJECT.
Proof.
  induction 1 as [k key c v e Hk Htx Hfind Hc Hv He
                 |k key c v s e Hk Htx Hfind Hc Hv Hs He
                 |k key c v s k' rest Hk Htx Hfind Hc Hv Hs Hrest IH];
    intros fuel w l' Hpat Hy Hf;
    (destruct fuel as [|f]; [lia|]);
    rewrite run_object_loop_step, Hk; cbn [TokenType_eqb]; rewrite Htx; cbv zeta;
    rewrite Hpat, Hfind;
    inversion Hy as [|? ? l1 ? ? Hn1 Hy1]; subst;
    apply yields_app in Hy1; destruct Hy1 as [lm [Hyv Hy2]];
    rewrite (@accept_w w T_PAIRSEP c l1 Hn1 Hc); cbn [bind];
    cbn [length] in Hf; rewrite length_app in Hf.
  - rewrite (proj1 skip_consumes v Hv f (with_lexer w l1) lm Hyv) by lia.
    cbn [bind]. apply yields_one in Hy2.
    next_with Hy2. cbn [bind]. rewrite He. cbn [TokenType_eqb negb].
    exists e. split; [reflexivity|exact He].
  - rewrite (proj1 skip_consumes v Hv f (with_lexer w l1) lm Hyv) by lia.
    cbn [bind].
    inversion Hy2 as [|? ? l2 ? ? Hn2 Hy3]; subst.
    apply yields_one in Hy3.
    next_with Hn2. cbn [bind]. rewrite Hs. cbn [TokenType_eqb negb].
    next_with Hy3. cbn [bind].
    destruct f as [|f0]; [cbn [length] in Hf; lia|].
    rewrite run_object_loop_step, He. cbn [TokenType_eqb].
    exists e. split; [reflexivity|exact He].
  - rewrite (proj1 skip_consumes v Hv f (with_lexer w l1) lm Hyv) by lia.
    cbn [bind].
    inversion Hy2 as [|? ? l2 ? ? Hn2 Hy3]; subst.
    inversion Hy3 as [|? ? l3 ? ? Hn3 Hy4]; subst.
    next_with Hn2. cbn [bind]. rewrite Hs. cbn [TokenType_eqb negb].
    next_with Hn3. cbn [bind].
    destruct (IH f (with_lexer
                      (with_lexer (with_lexer (with_lexer w l1) lm) l2) l3) l')
      as [e [E He]]; [reflexivity|exact Hy4|cbn [length] in Hf; lia|].
    exists e. split; [|exact He]. rewrite E. reflexivity.
Qed.

Lemma count_rows_no_rows tabs : forall acc,
  no_rows tabs ->
  fold_left
    (fun acc t =>
       let n := nrows t in
       if 0 <? n then (true, size_wrap (snd acc * n)) else acc)%Z
    tabs acc = acc.
Proof.
  induction tabs as [|t tabs IH]; intros acc H; [reflexivity|].
  inversion H as [|? ? Ht Hts]; subst. cbn [fold_left]. cbv zeta.
  replace (0 <? nrows t)%Z with false
    by (unfold nrows; rewrite Ht; reflexivity).
  apply IH. exact Hts.
Qed.

Lemma flush_no_rows fs tabs o :
  no_rows tabs -> flush_tables fs tabs o = (tabs, o).
Proof.
  intros H. unfold flush_tables, count_rows.
  rewrite (count_rows_no_rows _ H). reflexivity.
Qed.

(** X23. Members the pattern does not name are skipped.  When the next
    tokens of the stream are those of an object none of whose keys is the
    name of a property of an Object operator, the operator consumes the
    object and changes neither the tables nor the output: each value is
    skipped, whatever it holds, and no row is completed.  The operator
    takes the object also when a comma stands between its last member and
    the closing brace.  (The pending row of the operator's table holds no
    value, and at the root no table has a completed row, as is the case
    when a document starts.) *)
Theorem unmatched_keys_are_skipped (fuel : nat) (table : option nat)
    (prop : list (nat * Op)) (isroot : bool) (w : World) (b k : Token)
    (ts : list Token) (l' : Lexer) :
  type b = T_BEGINOBJECT -> unmatched_tail (pattern w) prop k ts ->
  yields (lexer w) (b :: k :: ts) l' ->
  (forall t, table = Some t ->
     exists tb, nth_error (tables w) t = Some tb /\ hasval tb = false) ->
  (isroot = true -> no_rows (tables w)) ->
  3 * length ts + 3 <= fuel ->
  run_op fuel (OpObject table prop isroot) w = Ok tt (with_lexer w l').
Proof.
  intros Hb Hts Hy Htab Hroot Hf.
  destruct fuel as [|[|f]]; [lia..|].
  destruct (yields_peek Hy) as [lp [Hp Hy']].
  inversion Hy' as [|? ? l1 ? ? Hn1 Hy1]; subst.
  inversion Hy1 as [|? ? l2 ? ? Hn2 Hy2]; subst.
  destruct (@run_object_loop_unmatched (pattern w) prop k ts Hts f
              (with_lexer (with_lexer (with_lexer w lp) l1) l2) l'
              eq_refl Hy2) as [e [E He]]; [lia|].
  cbn [run_op run_object_op].
  peek_with Hp. cbn [bind]. rewrite Hb. cbn [TokenType_eqb negb].
  rewrite (@accept_w (with_lexer w lp) T_BEGINOBJECT b l1 Hn1 Hb). cbn [bind].
  next_with Hn2. cbn [bind]. rewrite E. cbn [bind]. rewrite He.
  cbn [TokenType_eqb negb].
  assert (forall w0, tables w0 = tables w ->
            do_add_row table w0 = Ok tt w0) as Hrow.
  { intros w0 Hw0. unfold do_add_row. destruct table as [t|]; [|reflexivity].
    destruct (Htab t eq_refl) as [tb [Hnth Hval]].
    rewrite Hw0, Hnth. rewrite (add_row_keep _ Hval).
    rewrite (list_set_same _ _ Hnth). unfold with_tables. rewrite <- Hw0.
    destruct w0; reflexivity. }
  rewrite Hrow by reflexivity. cbn [bind].
  unfold do_flush. destruct isroot; [|reflexivity].
  unfold with_lexer. cbn [fieldsep tables out lexer pattern].
  rewrite (flush_no_rows _ _ (Hroot eq_refl)). reflexivity.
Qed.

Lemma unmatched_keys_are_skipped_witness :
  run_op 40 (OpObject (Some 0) [(3, OpCollect 0 1); (1, OpCollect 0 0)] true)
    (mkWorld (lexer0 (Q "{'x':[1,{}],'y':null} 7")) [mkTable 2 [] [buf0; buf0]] []
       [TAB] (B "{a" ++ [NUL] ++ B "b" ++ [NUL]))
  = Ok tt
      (mkWorld (lexer_at (B " 7") (mkBuf 0 4 (Some [])) (tok T_ENDOBJECT (B "}")))
         [mkTable 2 [] [buf0; buf0]] [] [TAB] (B "{a" ++ [NUL] ++ B "b" ++ [NUL])).
Proof.
  refine (@unmatched_keys_are_skipped 40 (Some 0)
            [(3, OpCollect 0 1); (1, OpCollect 0 0)] true
            (mkWorld (lexer0 (Q "{'x':[1,{}],'y':null} 7")) [mkTable 2 [] [buf0; buf0]]
               [] [TAB] (B "{a" ++ [NUL] ++ B "b" ++ [NUL]))
            (tok T_BEGINOBJECT (B "{")) (tok T_STRING (B "x"))
            ([tok T_PAIRSEP (B ":")]
             ++ [tok T_BEGINARRAY (B "["); tok T_NUMBER (B "1");
                 tok T_MEMBERSEP (B ","); tok T_BEGINOBJECT (B "{");
                 tok T_ENDOBJECT (B "}"); tok T_ENDARRAY (B "]")]
             ++ [tok T_MEMBERSEP (B ","); tok T_STRING (B "y");
                 tok T_PAIRSEP (B ":"); tok T_NULL (B "null");
                 tok T_ENDOBJECT (B "}")])
            (lexer_at (B " 7") (mkBuf 0 4 (Some [])) (tok T_ENDOBJECT (B "}")))
            eq_refl _ _ _ _ _).
  - apply (@ut_more _ _ (tok T_STRING (B "x")) (B "x") (tok T_PAIRSEP (B ":"))
             [tok T_BEGINARRAY (B "["); tok T_NUMBER (B "1");
              tok T_MEMBERSEP (B ","); tok T_BEGINOBJECT (B "{");
              tok T_ENDOBJECT (B "}"); tok T_ENDARRAY (B "]")]
             (tok T_MEMBERSEP (B ",")) (tok T_STRING (B "y"))
             [tok T_PAIRSEP (B ":"); tok T_NULL (B "null"); tok T_ENDOBJECT (B "}")]);
      try reflexivity.
    + apply (@vt_array (tok T_BEGINARRAY (B "["))
               [tok T_NUMBER (B "1"); tok T_MEMBERSEP (B ",");
                tok T_BEGINOBJECT (B "{"); tok T_ENDOBJECT (B "}")]
               (tok T_ENDARRAY (B "]"))); [reflexivity| |reflexivity].
      apply (@et_more [tok T_NUMBER (B "1")]); [now constructor|reflexivity|].
      apply et_last. now apply vt_empty_object.
    + apply (@ut_last _ _ (tok T_STRING (B "y")) (B "y") (tok T_PAIRSEP (B ":"))
               [tok T_NULL (B "null")] (tok T_ENDOBJECT (B "}")));
        try reflexivity.
      now constructor.
  - repeat (eapply yields_cons; [vm_compute; reflexivity|]). apply yields_nil.
  - intros t Ht. inversion Ht; subst. eexists. split; reflexivity.
  - intros _. repeat constructor.
  - cbn. lia.
Defined.

(** [skip_object] on members that are followed by a comma and a token that
    is no key. *)
Lemma skip_object_loop_trailing ms :
  members_toks ms ->
  forall fuel w s u l1 l2,
    yields (lexer w) (ms ++ [s]) l1 -> Lex.next_token l1 = Ok u l2 ->
    type s = T_MEMBERSEP -> type u <> T_STRING -> 3 * length ms + 2 <= fuel ->
    skip_object_loop fuel w = Die "unexpected token type" (with_lexer w l2).
Proof.
  induction 1 as [k c v Hk Hc Hv | k c v s0 ms Hk Hc Hv Hs0 Hms IH];
    intros fuel w s u l1 l2 Hy Hu Hs Hty Hf;
    (destruct fuel as [|f]; [lia|]); cbn [skip_object_loop];
    cbn [app length] in Hy, Hf;
    inversion Hy as [|? ? la ? ? Hn1 Hy1]; subst;
    inversion Hy1 as [|? ? lb ? ? Hn2 Hy2]; subst;
    rewrite (@accept_w w T_STRING k la Hn1 Hk); cbn [bind];
    rewrite (@accept_w (with_lexer w la) T_PAIRSEP c lb Hn2 Hc); cbn [bind].
  - apply yields_app in Hy2. destruct Hy2 as [lm [Hyv Hy3]].
    apply yields_one in Hy3.
    rewrite (proj1 skip_consumes v Hv f (with_lexer (with_lexer w la) lb) lm Hyv)
      by lia.
    cbn [bind]. next_with Hy3. cbn [bind]. rewrite Hs. cbn [TokenType_eqb].
    destruct f as [|f0]; [lia|]. cbn [skip_object_loop].
    unfold accept. next_with Hu. cbn [bind].
    destruct (type u); try congruence; reflexivity.
  - rewrite <- app_assoc in Hy2. cbn [app] in Hy2.
    apply yields_app in Hy2. destruct Hy2 as [lm [Hyv Hy3]].
    inversion Hy3 as [|? ? lc ? ? Hn3 Hy4]; subst.
    rewrite ?length_app in Hf. cbn [length] in Hf.
    rewrite (proj1 skip_consumes v Hv f (with_lexer (with_lexer w la) lb) lm Hyv)
      by lia.
    cbn [bind]. next_with Hn3. cbn [bind]. rewrite Hs0. cbn [TokenType_eqb].
    match goal with
    | |- skip_object_loop f ?w0 = _ =>
        rewrite (IH f w0 s u l1 l2 Hy4 Hu Hs Hty) by lia
    end.
    reflexivity.
Qed.

(** X27. A comma before the closing brace.  Where an object is skipped,
    because no operator matches it or because a Collect meets it, a comma
    between the last member and the closing brace is fatal: [skip_value]
    dies with "unexpected token type" at the brace.  (An Object operator
    that matches the object takes the same text without complaint.) *)
Theorem skipped_object_rejects_trailing_comma (fuel : nat) (w : World)
    (b s e : Token) (ms : list Token) (l1 l2 : Lexer) :
  type b = T_BEGINOBJECT -> members_toks ms -> type s = T_MEMBERSEP ->
  type e = T_ENDOBJECT ->
  yields (lexer w) (b :: ms ++ [s]) l1 -> Lex.next_token l1 = Ok e l2 ->
  3 * length ms + 4 <= fuel ->
  skip_value fuel w = Die "unexpected token type" (with_lexer w l2).
Proof.
  intros Hb Hms Hs He Hy Hn Hf.
  destruct fuel as [|[|f]]; [lia..|].
  destruct (yields_peek Hy) as [lp [Hp Hy']].
  inversion Hy' as [|? ? la ? ? Hn1 Hy1]; subst.
  assert (exists k rest, ms ++ [s] = k :: rest /\ type k = T_STRING)
    as [k [rest [Hms1 Hk]]].
  { destruct Hms; cbn [app]; eexists; eexists; split; try reflexivity; assumption. }
  rewrite Hms1 in Hy1. destruct (yields_peek Hy1) as [lp2 [Hp2 Hy2]].
  rewrite <- Hms1 in Hy2.
  cbn [skip_value]. peek_with Hp. cbn [bind]. rewrite Hb.
  cbn [skip_object].
  rewrite (@accept_w (with_lexer w lp) T_BEGINOBJECT b la Hn1 Hb). cbn [bind].
  peek_with Hp2. cbn [bind]. rewrite Hk. cbn [TokenType_eqb].
  match goal with
  | |- skip_object_loop f ?w0 = _ =>
      rewrite (@skip_object_loop_trailing ms Hms f w0 s e l1 l2 Hy2 Hn Hs) by
        (try lia; rewrite He; discriminate)
  end.
  reflexivity.
Qed.

Lemma skipped_object_rejects_trailing_comma_witness :
  skip_value 13 (mkWorld (lexer0 (Q "{'a':1,}")) [] [] [TAB] [])
  = Die "unexpected token type"
      (mkWorld (lexer_at [] (mkBuf 0 4 (Some [])) (tok T_ENDOBJECT (B "}")))
         [] [] [TAB] []).
Proof.
  refine (@skipped_object_rejects_trailing_comma 13
            (mkWorld (lexer0 (Q "{'a':1,}")) [] [] [TAB] [])
            (tok T_BEGINOBJECT (B "{")) (tok T_MEMBERSEP (B ","))
            (tok T_ENDOBJECT (B "}"))
            [tok T_STRING (B "a"); tok T_PAIRSEP (B ":"); tok T_NUMBER (B "1")]
            _ (lexer_at [] (mkBuf 0 4 (Some [])) (tok T_ENDOBJECT (B "}")))
            eq_refl _ eq_refl eq_refl _ _ _).
  - apply mt_last; [reflexivity|reflexivity|now constructor].
  - repeat (eapply yields_cons; [vm_compute; reflexivity|]). apply yields_nil.
  - vm_compute. reflexivity.
  - cbn. lia.
Defined.

(** ** One root *)

Lemma collect_into_no_root t s op s' :
  collect_into t s = Ok op s' -> count_roots op = 0.
Proof.
  unfold collect_into, new_collect_op.
  destruct (nth_error (ptabs s) t); [|discriminate].
  intros H. inversion H. reflexivity.
Qed.

(** The compiler marks no node. *)
Lemma parse_no_root (fuel : nat) :
  (forall s op s', parse_array fuel s = Ok (Some op) s' -> count_roots op = 0)
  /\ (forall s op s', parse_object fuel s = Ok (Some op) s' -> count_roots op = 0)
  /\ (forall table prop s op s',
        parse_props fuel table prop s = Ok (Some op) s' ->
        list_sum (map (fun p => count_roots (snd p)) prop) = 0 ->
        count_roots op = 0).
Proof.
  induction fuel as [|f [IHa [IHo IHp]]].
  - repeat split; intros; discriminate.
  - split; [|split].
    + intros s op s' H. cbn [parse_array] in H.
      destruct (negb (Ascii.eqb (cur s) "["%char)); [discriminate|].
      apply bind_Ok in H. destruct H as [[tbl nx] [s1 [Hr Hk]]].
      cbn [fst snd] in Hk.
      destruct nx as [next|]; [|discriminate].
      assert (count_roots next = 0) as Hnext.
      { destruct (Ascii.eqb (cur (adv s)) "*"%char).
        - destruct (new_table (adv s)) as [t0 s0].
          apply bind_Ok in Hr. destruct Hr as [op0 [s2 [Hc Hr]]].
          inversion Hr; subst. eapply collect_into_no_root; eauto.
        - destruct (Ascii.eqb (cur (adv s)) "["%char).
          + apply bind_Ok in Hr. destruct Hr as [n [s2 [Hc Hr]]].
            inversion Hr; subst. eapply IHa; eauto.
          + destruct (Ascii.eqb (cur (adv s)) "{"%char).
            * apply bind_Ok in Hr. destruct Hr as [n [s2 [Hc Hr]]].
              inversion Hr; subst. eapply IHo; eauto.
            * inversion Hr. }
      destruct (Ascii.eqb (cur s1) NUL).
      { inversion Hk; subst. cbn [count_roots]. lia. }
      destruct (Ascii.eqb (cur s1) "]"%char); [|discriminate].
      inversion Hk; subst. cbn [count_roots]. lia.
    + intros s op s' H. cbn [parse_object] in H.
      destruct (negb (Ascii.eqb (cur s) "{"%char)); [discriminate|].
      eapply IHp; eauto.
    + intros table prop s op s' H Hprop. cbn [parse_props] in H.
      apply bind_Ok in H. destruct H as [name [s1 [Hname H]]].
      apply bind_Ok in H. destruct H as [[tbl o] [s2 [Hr Hk]]].
      cbn [fst snd] in Hk.
      destruct name as [nm|]; [|discriminate].
      destruct o as [pop|]; [|discriminate].
      assert (count_roots pop = 0) as Hpop.
      { destruct (Ascii.eqb (cur s1) ","%char || Ascii.eqb (cur s1) "}"%char
                  || Ascii.eqb (cur s1) NUL).
        - destruct (match table with Some t => (t, s1) | None => new_table s1 end)
            as [t0 s0].
          apply bind_Ok in Hr. destruct Hr as [op0 [s3 [Hc Hr]]].
          inversion Hr; subst. eapply collect_into_no_root; eauto.
        - destruct (Ascii.eqb (cur s1) "{"%char).
          + apply bind_Ok in Hr. destruct Hr as [n [s3 [Hc Hr]]].
            inversion Hr; subst. eapply IHo; eauto.
          + destruct (Ascii.eqb (cur s1) "["%char).
            * apply bind_Ok in Hr. destruct Hr as [n [s3 [Hc Hr]]].
              inversion Hr; subst. eapply IHa; eauto.
            * inversion Hr. }
      assert (list_sum (map (fun p => count_roots (snd p)) ((nm, pop) :: prop)) = 0)
        as Hsum by (cbn [map list_sum snd]; rewrite Hpop; exact Hprop).
      destruct (Ascii.eqb (cur s2) ","%char).
      { eapply IHp; eauto. }
      destruct (Ascii.eqb (cur s2) "}"%char).
      { inversion Hk; subst. cbn [count_roots]. exact Hsum. }
      destruct (negb (Ascii.eqb (cur s2) NUL)); [discriminate|].
      inversion Hk; subst. cbn [count_roots]. exact Hsum.
Qed.

Lemma find_root_one :
  forall op op', count_roots op = 0 -> find_root op = RootFound op' ->
    erase_root op' = erase_root op /\ count_roots op' = 1.
Proof.
  fix IH 1. intros op op' H0 H.
  destruct op as [t next r | t prop r | t c]; cbn [find_root] in H.
  - cbn [count_roots] in H0. destruct r; [lia|]. cbn [Nat.add] in H0.
    destruct (is_collect next).
    + inversion H; subst. cbn [erase_root count_roots]. split; [reflexivity|lia].
    + destruct (find_root next) as [next'| |] eqn:E; try discriminate.
      inversion H; subst. destruct (IH next next' H0 E) as [H1 H2].
      cbn [erase_root count_roots]. rewrite H1, H2. split; reflexivity.
  - destruct prop as [|[nm pop] rest]; [discriminate|].
    cbn [count_roots map list_sum fold_right snd] in H0.
    destruct r; [lia|]. cbn [Nat.add] in H0.
    destruct (negb match rest with [] => true | _ :: _ => false end
              || is_collect pop).
    + inversion H; subst. cbn [erase_root count_roots map list_sum fold_right snd].
      split; [reflexivity|lia].
    + destruct (find_root pop) as [pop'| |] eqn:E; try discriminate.
      inversion H; subst.
      destruct (IH pop pop' ltac:(lia) E) as [H1 H2].
      cbn [erase_root count_roots map list_sum fold_right snd fst]. rewrite H1, H2.
      split; [reflexivity|lia].
  - discriminate.
Qed.

(** X24. One root.  In the tree of a compiled pattern no node is marked,
    and [find_root] marks exactly one node as the root and changes nothing
    else in the tree. *)
Theorem compiled_pattern_has_one_root (fuel : nat) (pat : bytes) (head root : Op)
    (s : PState) :
  parse_pattern fuel pat = Ok (Some head) s ->
  find_root head = RootFound root ->
  count_roots head = 0 /\ count_roots root = 1
  /\ erase_root root = erase_root head.
Proof.
  intros Hp Hr.
  assert (count_roots head = 0) as H0.
  { unfold parse_pattern in Hp.
    apply bind_Ok in Hp. destruct Hp as [op [s1 [Hp Hk]]].
    destruct op as [op|]; [|discriminate].
    inversion Hk; subst. clear Hk.
    destruct (parse_no_root fuel) as [Ha [Ho _]].
    destruct (Ascii.eqb (cur (mkPState pat 0 [])) "["%char).
    - eapply Ha; eauto.
    - destruct (Ascii.eqb (cur (mkPState pat 0 [])) "{"%char).
      + eapply Ho; eauto.
      + discriminate. }
  destruct (find_root_one head H0 Hr) as [H1 H2]. auto.
Qed.

Lemma compiled_pattern_has_one_root_witness :
  count_roots
    (OpArray None
       (OpObject (Some 0)
          [(5, OpArray (Some 1) (OpCollect 1 0) false); (2, OpCollect 0 0)] true)
       false) = 1.
Proof.
  refine (proj1 (proj2 (@compiled_pattern_has_one_root 20 (B "[{id,vals[*]}]")
            (OpArray None
               (OpObject (Some 0)
                  [(5, OpArray (Some 1) (OpCollect 1 0) false); (2, OpCollect 0 0)]
                  false) false)
            _
            (mkPState (B "[{id" ++ [NUL] ++ B "vals" ++ [NUL] ++ B "*]}]") 14
               [mkTable 1 [] [buf0]; mkTable 1 [] [buf0]]) _ _))).
  - vm_compute. reflexivity.
  - reflexivity.
Defined.

(** ** The argument vector *)

(** X25. The arguments.  With no argument after the program name, and
    with [-f] followed by fewer than two arguments, the program dies with
    the usage line before it reads anything.  With a pattern and no FILE,
    it is [main] on standard input, with the TAB as the field separator
    unless [-f SEP] gives another. *)
Theorem jl_arguments (fuel : nat) (buffered : bytes -> nat)
    (open : bytes -> bytes) (stdin : bytes) :
  (forall argv, length argv < 2 ->
     jl fuel buffered open argv stdin = ExitDie usage [])
  /\ (forall prog rest, length rest < 2 ->
        jl fuel buffered open (prog :: B "-f" :: rest) stdin = ExitDie usage [])
  /\ (forall pat, pat <> B "-f" ->
        jl fuel buffered open (jl_args None pat []) stdin
        = main fuel [TAB] pat stdin)
  /\ (forall fs pat,
        jl fuel buffered open (jl_args (Some fs) pat []) stdin
        = main fuel fs pat stdin).
Proof.
  assert (forall fs pat,
            run_args fuel buffered open fs pat [] stdin = main fuel fs pat stdin)
    as Hmain by reflexivity.
  split; [|split; [|split]].
  - intros [|a [|a1 argv]] H; cbn [length] in H; try lia; reflexivity.
  - intros prog [|a [|a1 rest]] H; cbn [length] in H; try lia; reflexivity.
  - intros pat Hpat. unfold jl, jl_args.
    destruct (bytes_eqb pat (B "-f")) eqn:E.
    + apply bytes_eqb_eq in E. contradiction.
    + apply Hmain.
  - intros fs pat. apply Hmain.
Qed.

Lemma jl_arguments_witness :
  jl 20 (fun _ => 0) (fun _ => []) [B "jl"; B "-f"; B ","] [] = ExitDie usage []
  /\ jl 20 (fun _ => 0) (fun _ => []) (jl_args (Some (B ",")) (B "{a,b}") [])
       (Q "{'a':1,'b':2}") = Exit0 (B "1,2" ++ [LF]).
Proof.
  destruct (jl_arguments 20 (fun _ => 0) (fun _ => []) (Q "{'a':1,'b':2}"))
    as [_ [_ [_ H4]]].
  destruct (jl_arguments 20 (fun _ => 0) (fun _ => []) []) as [_ [H2 _]].
  split.
  - apply (H2 (B "jl") [B ","]). cbn. lia.
  - rewrite H4. vm_compute. reflexivity.
Defined.

(** ** Documents that are not JSON *)

(** X26. Where a value must stand.  When the next token of the stream is
    none that starts a value (a closing bracket or brace, a comma, a colon
    or the end of the stream), [skip_value] and a Collect die with
    "unexpected token type".  When an element of an array that is skipped
    is followed by a token that is neither a comma nor the closing
    bracket, [skip_array] dies with "expected array end". *)
Theorem malformed_documents_die (fuel : nat) (w : World) (t : Token)
    (l1 : Lexer) :
  Lex.next_token (lexer w) = Ok t l1 ->
  (~ starts_value t ->
     (exists lp, skip_value (S fuel) w
                 = Die "unexpected token type" (with_lexer w lp))
     /\ (forall table column,
           exists lp, run_collect_op fuel table column w
                      = Die "unexpected token type" (with_lexer w lp)))
  /\ (forall v u l2 l3,
        value_toks (t :: v) -> yields l1 v l2 -> Lex.next_token l2 = Ok u l3 ->
        bad_after_element u -> 3 * length (t :: v) < fuel ->
        skip_array_loop fuel w = Die "expected array end" (with_lexer w l3)).
Proof.
  intros Hn. split.
  - intros Hbad. destruct (peek_then_next _ Hn) as [lp [Hp _]].
    assert (type t <> T_BEGINARRAY /\ type t <> T_BEGINOBJECT
            /\ is_literal (type t) = false) as [H1 [H2 H3]].
    { unfold starts_value in Hbad.
      destruct (type t); cbn [is_literal] in *;
        repeat split; try discriminate; try reflexivity;
        exfalso; apply Hbad; auto. }
    split.
    + exists lp. cbn [skip_value]. rewrite (peek_token_w _ Hp). cbn [bind].
      destruct (type t); try congruence; try discriminate; reflexivity.
    + intros table column. exists lp. unfold run_collect_op.
      rewrite (peek_token_w _ Hp). cbn [bind].
      destruct (type t); try congruence; try discriminate; reflexivity.
  - intros v u l2 l3 Hv Hy Hu [Hb1 Hb2] Hf.
    destruct fuel as [|f]; [lia|]. cbn [skip_array_loop].
    assert (yields (lexer w) (t :: v) l2) as Hy' by (econstructor; eauto).
    rewrite (proj1 skip_consumes (t :: v) Hv f w l2 Hy') by lia.
    cbn [bind]. next_with Hu. cbn [bind].
    destruct (type u); try congruence; reflexivity.
Qed.

Lemma malformed_documents_die_witness :
  exists lp,
    skip_value 1 (mkWorld (lexer0 (B "]")) [] [] [TAB] [])
    = Die "unexpected token type"
        (with_lexer (mkWorld (lexer0 (B "]")) [] [] [TAB] []) lp).
Proof.
  apply (proj1 (@malformed_documents_die 0
                  (mkWorld (lexer0 (B "]")) [] [] [TAB] [])
                  (tok T_ENDARRAY (B "]"))
                  (lexer_at [] buf0 (tok T_ENDARRAY (B "]"))) eq_refl)).
  intros [H|[H|H]]; discriminate.
Defined.
